(** * Pikachu (Onet) server: board logic and room manager

    A shallow embedding of [src/public/pikachu/server/game-logic.js] and of
    the socket handlers of [src/public/pikachu/server-io.js], with the
    properties of the design document proved (or refuted) on it.

    Conventions.
    - JavaScript numbers used as coordinates are integers, modelled as [Z];
      tile identifiers and counters are [nat].
    - A board is the array of arrays the code allocates; a cell holds [null],
      a tile identifier, or [undefined] (what JavaScript yields when a row
      exists and the column does not).
    - The code reads and writes the board only at indices it has checked or
      that its single caller has checked.  Reading a column that does not
      exist yields [Undefined] as in JavaScript; a row index outside the
      array makes JavaScript throw a TypeError: where a caller can reach
      that, the model has an explicit [TypeError] outcome, elsewhere the
      lemmas carry the in-range hypothesis and the model leaves the board
      unchanged.
    - [Math.random] is an explicit argument: a function giving, for each
      loop index [i] of a Fisher-Yates pass, the raw draw, reduced to
      [0..i] as [Math.floor(Math.random() * (i + 1))] does. *)

From stdpp Require Import base tactics option list numbers strings gmap sorting.
From Stdlib Require Import ZArith Lia.

(** ** Board model *)

Definition ROWS : Z := 11.
Definition COLS : Z := 18.
Definition TYPE_COUNT : nat := 33.

Inductive cell : Type :=
| Null
| Tile (v : nat)
| Undefined.

Global Instance cell_eq_dec : EqDecision cell.
Proof. solve_decision. Defined.

Record pos : Type := Pos { p_r : Z; p_c : Z }.

Global Instance pos_eq_dec : EqDecision pos.
Proof. solve_decision. Defined.

Abbreviation board := (list (list cell)).

(** [board[r][c]] for a row that exists. *)
Definition getCell (b : board) (r c : Z) : cell :=
  if decide (0 ≤ r ∧ 0 ≤ c)%Z then
    match b !! Z.to_nat r with
    | Some row => default Undefined (row !! Z.to_nat c)
    | None => Undefined
    end
  else Undefined.

(** [board[r][c] = x] for a cell that exists. *)
Definition setCell (b : board) (r c : Z) (x : cell) : board :=
  if decide (0 ≤ r ∧ 0 ≤ c)%Z then
    match b !! Z.to_nat r with
    | Some row => <[Z.to_nat r := <[Z.to_nat c := x]> row]> b
    | None => b
    end
  else b.

(** [x !== null] *)
Definition notNull (x : cell) : bool :=
  match x with Null => false | _ => true end.

(** [x === null] *)
Definition isNull (x : cell) : bool := negb (notNull x).

(** [x == null]: loose equality, true of [null] and of [undefined]. *)
Definition looseNull (x : cell) : bool :=
  match x with Tile _ => false | _ => true end.

Definition inBounds (r c : Z) : bool :=
  (0 <=? r)%Z && (r <? ROWS)%Z && (0 <=? c)%Z && (c <? COLS)%Z.

(** The rows and columns [makeInitialBoard] fills: everything but the frame. *)
Definition interior (r c : Z) : bool :=
  (1 <=? r)%Z && (r <? ROWS - 1)%Z && (1 <=? c)%Z && (c <? COLS - 1)%Z.

Definition onBorder (r c : Z) : bool := inBounds r c && negb (interior r c).

(** The shape every board of the program has: [ROWS] rows of [COLS] cells. *)
Definition wf_dims (b : board) : Prop :=
  length b = Z.to_nat ROWS ∧ Forall (λ row, length row = Z.to_nat COLS) b.

Definition wf_dimsb (b : board) : bool :=
  bool_decide (length b = Z.to_nat ROWS) &&
  forallb (λ row, bool_decide (length row = Z.to_nat COLS)) b.

(** Cells of a game board hold [null] or a tile identifier below
    [TYPE_COUNT]. *)
Definition cell_ok (x : cell) : bool :=
  match x with
  | Null => true
  | Tile v => bool_decide (v < TYPE_COUNT)
  | Undefined => false
  end.

Definition tiles_ok (b : board) : Prop :=
  Forall (λ row, Forall (λ x, cell_ok x = true) row) b.

Definition border_null (b : board) : Prop :=
  ∀ r c, onBorder r c = true → getCell b r c = Null.

(** ** The seven collapse policies *)

(** [function level1(board, p) { board[p.r][p.c] = null; }] *)
Definition level1 (b : board) (p : pos) : board :=
  setCell b (p_r p) (p_c p) Null.

(** The loops below take the number of iterations still allowed as their
    first argument; [level2] .. [level7] start them with the distance to the
    end of the scan, which the loop cannot exceed (see the [_fuel] lemmas). *)

Fixpoint level2_loop (n : nat) (b : board) (r c : Z) : board :=
  match n with
  | O => b
  | S n' =>
      if (r <? ROWS - 1)%Z then
        if (r + 1 <? ROWS)%Z && notNull (getCell b (r + 1) c)
        then level2_loop n' (setCell b r c (getCell b (r + 1) c)) (r + 1) c
        else setCell b r c Null
      else b
  end.

Definition level2 (b : board) (p : pos) : board :=
  level2_loop (Z.to_nat (ROWS - 1 - p_r p)) b (p_r p) (p_c p).

Fixpoint level3_loop (n : nat) (b : board) (r c : Z) : board :=
  match n with
  | O => b
  | S n' =>
      if (0 <? r)%Z then
        if (0 <=? r - 1)%Z && notNull (getCell b (r - 1) c)
        then level3_loop n' (setCell b r c (getCell b (r - 1) c)) (r - 1) c
        else setCell b r c Null
      else b
  end.

Definition level3 (b : board) (p : pos) : board :=
  level3_loop (Z.to_nat (p_r p)) b (p_r p) (p_c p).

Fixpoint level4_loop (n : nat) (b : board) (r c : Z) : board :=
  match n with
  | O => b
  | S n' =>
      if (0 <? c)%Z then
        if (0 <=? c - 1)%Z && notNull (getCell b r (c - 1))
        then level4_loop n' (setCell b r c (getCell b r (c - 1))) r (c - 1)
        else setCell b r c Null
      else b
  end.

Definition level4 (b : board) (p : pos) : board :=
  level4_loop (Z.to_nat (p_c p)) b (p_r p) (p_c p).

Fixpoint level5_loop (n : nat) (b : board) (r c : Z) : board :=
  match n with
  | O => b
  | S n' =>
      if (c <? COLS - 1)%Z then
        if (c + 1 <? COLS)%Z && notNull (getCell b r (c + 1))
        then level5_loop n' (setCell b r c (getCell b r (c + 1))) r (c + 1)
        else setCell b r c Null
      else b
  end.

Definition level5 (b : board) (p : pos) : board :=
  level5_loop (Z.to_nat (COLS - 1 - p_c p)) b (p_r p) (p_c p).

Fixpoint level6_above (n : nat) (b : board) (r c : Z) : board :=
  match n with
  | O => b
  | S n' =>
      if (r <=? 5)%Z then
        if (r + 1 <=? 5)%Z && notNull (getCell b (r + 1) c)
        then level6_above n' (setCell b r c (getCell b (r + 1) c)) (r + 1) c
        else setCell b r c Null
      else b
  end.

Fixpoint level6_below (n : nat) (b : board) (r c : Z) : board :=
  match n with
  | O => b
  | S n' =>
      if (5 <=? r)%Z then
        if (5 <=? r - 1)%Z && notNull (getCell b (r - 1) c)
        then level6_below n' (setCell b r c (getCell b (r - 1) c)) (r - 1) c
        else setCell b r c Null
      else b
  end.

Definition level6 (b : board) (p : pos) : board :=
  if (p_r p <? 5)%Z then level6_above (Z.to_nat (6 - p_r p)) b (p_r p) (p_c p)
  else if (5 <? p_r p)%Z then level6_below (Z.to_nat (p_r p - 4)) b (p_r p) (p_c p)
  else setCell b (p_r p) (p_c p) Null.

Fixpoint level7_left (n : nat) (b : board) (r c : Z) : board :=
  match n with
  | O => b
  | S n' =>
      if (c <=? 8)%Z then
        if (c + 1 <=? 8)%Z && notNull (getCell b r (c + 1))
        then level7_left n' (setCell b r c (getCell b r (c + 1))) r (c + 1)
        else setCell b r c Null
      else b
  end.

Fixpoint level7_right (n : nat) (b : board) (r c : Z) : board :=
  match n with
  | O => b
  | S n' =>
      if (8 <? c)%Z then
        if (8 <? c - 1)%Z && notNull (getCell b r (c - 1))
        then level7_right n' (setCell b r c (getCell b r (c - 1))) r (c - 1)
        else setCell b r c Null
      else b
  end.

Definition level7 (b : board) (p : pos) : board :=
  if (p_c p <=? 8)%Z then level7_left (Z.to_nat (9 - p_c p)) b (p_r p) (p_c p)
  else level7_right (Z.to_nat (p_c p - 8)) b (p_r p) (p_c p).

(** [applyLevel]: the [switch] with its ordering tests, a call after a call
    being a composition here. *)
Definition applyLevel (b : board) (level : nat) (a b' : pos) : board :=
  match level with
  | 1 => level1 (level1 b a) b'
  | 2 =>
      if (p_r a <? p_r b')%Z then level2 (level2 b b') a
      else level2 (level2 b a) b'
  | 3 =>
      if (p_r a <? p_r b')%Z then level3 (level3 b a) b'
      else level3 (level3 b b') a
  | 4 =>
      if (p_c a <? p_c b')%Z then level4 (level4 b a) b'
      else level4 (level4 b b') a
  | 5 =>
      if (p_c a <? p_c b')%Z then level5 (level5 b b') a
      else level5 (level5 b a) b'
  | 6 =>
      if (5 <? p_r a)%Z && (5 <? p_r b')%Z then
        if (p_r a <? p_r b')%Z then level6 (level6 b a) b'
        else level6 (level6 b b') a
      else
        if (p_r a <? p_r b')%Z then level6 (level6 b b') a
        else level6 (level6 b a) b'
  | 7 =>
      let centerC := 8%Z in
      let aRight := (centerC <? p_c a)%Z in
      let bRight := (centerC <? p_c b')%Z in
      if aRight && bRight then
        if (p_c a <? p_c b')%Z then level7 (level7 b a) b'
        else level7 (level7 b b') a
      else
        if (p_c a <? p_c b')%Z then level7 (level7 b b') a
        else level7 (level7 b a) b'
  | _ => level1 (level1 b a) b'
  end.

(** The cells the two nested [for] loops of [boardCleared], [hasAnyMove]
    and [rerandomRemaining] visit, in their order:
    [r = 1 .. ROWS - 2], [c = 1 .. COLS - 2]. *)
Definition interiorCells : list pos :=
  r ← seqZ 1 (ROWS - 2); c ← seqZ 1 (COLS - 2); [Pos r c].

(** [boardCleared] *)
Definition boardCleared (b : board) : bool :=
  forallb (λ p, isNull (getCell b (p_r p) (p_c p))) interiorCells.

(** ** Cells: reading after writing *)

Lemma inBounds_spec r c :
  inBounds r c = true ↔ (0 ≤ r < ROWS ∧ 0 ≤ c < COLS)%Z.
Proof. unfold inBounds. rewrite !andb_true_iff. lia. Qed.

Lemma interior_spec r c :
  interior r c = true ↔ (1 ≤ r < ROWS - 1 ∧ 1 ≤ c < COLS - 1)%Z.
Proof. unfold interior. rewrite !andb_true_iff. lia. Qed.

Lemma interior_inBounds r c : interior r c = true → inBounds r c = true.
Proof. rewrite interior_spec, inBounds_spec. unfold ROWS, COLS. lia. Qed.

Lemma wf_dimsb_spec b : wf_dimsb b = true ↔ wf_dims b.
Proof.
  unfold wf_dimsb, wf_dims.
  rewrite andb_true_iff, bool_decide_eq_true, forallb_forall, Forall_forall.
  split; intros [H1 H2]; split; try done.
  - intros x Hx. apply list_elem_of_In, H2 in Hx. by apply bool_decide_eq_true in Hx.
  - intros x Hx. apply bool_decide_eq_true, H2. by apply list_elem_of_In.
Qed.

Lemma wf_dims_row b r :
  wf_dims b → (0 ≤ r < ROWS)%Z →
  ∃ row, b !! Z.to_nat r = Some row ∧ length row = Z.to_nat COLS.
Proof.
  intros [Hl Hrows] Hr.
  destruct (lookup_lt_is_Some_2 b (Z.to_nat r)) as [row Hrow]; [lia|].
  exists row. split; [done|].
  rewrite Forall_forall in Hrows. apply Hrows.
  apply list_elem_of_lookup. eauto.
Qed.

Lemma setCell_dims b r c x : wf_dims b → wf_dims (setCell b r c x).
Proof.
  intros [Hl Hrows]. unfold setCell.
  case_decide; [|done]. destruct (b !! Z.to_nat r) as [row|] eqn:Hrow; [|done].
  split; [by rewrite length_insert|].
  apply Forall_insert; [done|]. rewrite length_insert.
  rewrite Forall_forall in Hrows. apply Hrows, list_elem_of_lookup. eauto.
Qed.

Lemma getCell_setCell b r c x r' c' :
  wf_dims b → inBounds r c = true →
  getCell (setCell b r c x) r' c' =
    if decide (r' = r ∧ c' = c) then x else getCell b r' c'.
Proof.
  intros Hwf Hin. apply inBounds_spec in Hin as [Hr Hc].
  destruct (wf_dims_row b r Hwf Hr) as (row & Hrow & Hlen).
  unfold setCell, getCell. rewrite (decide_True (P:=(0 ≤ r ∧ 0 ≤ c)%Z)) by lia.
  rewrite Hrow.
  destruct (decide (0 ≤ r' ∧ 0 ≤ c')%Z) as [[Hr' Hc']|Hn].
  - destruct (decide (r' = r)) as [->|Hne].
    + rewrite list_lookup_insert_eq by (by eapply lookup_lt_Some).
      rewrite Hrow. destruct (decide (c' = c)) as [->|Hnc].
      * rewrite decide_True by done.
        rewrite list_lookup_insert_eq; [done|]. rewrite Hlen. lia.
      * rewrite decide_False by (intros [_ ?]; done).
        rewrite list_lookup_insert_ne; [done|]. lia.
    + rewrite decide_False by (intros [? _]; done).
      rewrite list_lookup_insert_ne; [done|]. lia.
  - rewrite decide_False; [done|]. intros [-> ->]. lia.
Qed.

Lemma getCell_setCell_eq b r c x :
  wf_dims b → inBounds r c = true → getCell (setCell b r c x) r c = x.
Proof. intros. rewrite getCell_setCell by done. by rewrite decide_True. Qed.

Lemma getCell_setCell_ne b r c x r' c' :
  r' ≠ r ∨ c' ≠ c → getCell (setCell b r c x) r' c' = getCell b r' c'.
Proof.
  intros Hne. unfold setCell, getCell.
  destruct (decide (0 ≤ r ∧ 0 ≤ c)%Z) as [H1|]; [|done].
  destruct (b !! Z.to_nat r) as [row|] eqn:Hrow; [|done].
  destruct (decide (0 ≤ r' ∧ 0 ≤ c')%Z) as [H2|]; [|done].
  destruct (decide (r' = r)) as [->|Hr].
  - rewrite list_lookup_insert_eq by (by eapply lookup_lt_Some).
    rewrite Hrow. rewrite list_lookup_insert_ne; [done|].
    destruct Hne; [done|]. lia.
  - rewrite list_lookup_insert_ne; [done|]. lia.
Qed.

(** ** The shape shared by the collapse loops

    Every loop of [level2] .. [level7] scans from the removed cell along one
    axis: while [guard] holds, the cell takes the value of its neighbour
    [(sr r, sc c)] if [inner] holds and that neighbour is not [null], and
    otherwise becomes [null] and the scan stops. *)

Section shift.
  Variables (guard inner : Z → Z → bool) (sr sc : Z → Z).

Fixpoint shift_loop (n : nat) (b : board) (r c : Z) : board :=
    match n with
    | O => b
    | S n' =>
        if guard r c then
          if inner r c && notNull (getCell b (sr r) (sc c))
          then shift_loop n' (setCell b r c (getCell b (sr r) (sc c))) (sr r) (sc c)
          else setCell b r c Null
        else b
    end.

Lemma shift_loop_dims n b r c : wf_dims b → wf_dims (shift_loop n b r c).
  Proof.
    revert b r c. induction n as [|n IH]; intros b r c Hwf; simpl; [done|].
    destruct (guard r c); [|done].
    destruct (inner r c && notNull (getCell b (sr r) (sc c))).
    - by apply IH, setCell_dims.
    - by apply setCell_dims.
  Qed.

  (** Cells the scan can write: [W]; [Q] says where the scan is. *)
  Section unchanged.
    Variables (Q W : Z → Z → Prop).
    Hypothesis scan_in :
      ∀ r c, Q r c → guard r c = true → W r c ∧ Q (sr r) (sc c).

Lemma shift_loop_unchanged n b r c r' c' :
      Q r c → ¬ W r' c' →
      getCell (shift_loop n b r c) r' c' = getCell b r' c'.
    Proof using scan_in.
      revert b r c. induction n as [|n IH]; intros b r c HQ HW; simpl; [done|].
      destruct (guard r c) eqn:Hg; [|done].
      destruct (scan_in r c HQ Hg) as [Hw HQ'].
      assert (r' ≠ r ∨ c' ≠ c) as Hne.
      { destruct (decide (r' = r)) as [->|]; [|by left].
        destruct (decide (c' = c)) as [->|]; [|by right]. done. }
      destruct (inner r c && notNull (getCell b (sr r) (sc c))).
      - rewrite IH by done. by apply getCell_setCell_ne.
      - by apply getCell_setCell_ne.
    Qed.
  End unchanged.

  (** The scan ends by itself: more iterations than the distance [mu] to the
      end of the scan change nothing. *)
  Section fuel.
    Variable mu : Z → Z → nat.
    Hypothesis mu_decr : ∀ r c, guard r c = true → mu (sr r) (sc c) < mu r c.

Lemma shift_loop_fuel n k b r c :
      mu r c ≤ n → shift_loop (n + k) b r c = shift_loop n b r c.
    Proof using mu_decr.
      revert b r c. induction n as [|n IH]; intros b r c Hmu.
      - destruct k as [|k]; simpl; [done|].
        destruct (guard r c) eqn:Hg; [|done].
        specialize (mu_decr r c Hg). lia.
      - simpl. destruct (guard r c) eqn:Hg; [|done].
        specialize (mu_decr r c Hg).
        destruct (inner r c && notNull (getCell b (sr r) (sc c))); [|done].
        apply IH. lia.
    Qed.
  End fuel.
End shift.

Lemma level2_loop_shift n b r c :
  level2_loop n b r c =
  shift_loop (λ r _, (r <? ROWS - 1)%Z) (λ r _, (r + 1 <? ROWS)%Z)
             (λ r, (r + 1)%Z) id n b r c.
Proof. revert b r. induction n as [|n IH]; intros; simpl; [done|]. by rewrite IH. Qed.

Lemma level3_loop_shift n b r c :
  level3_loop n b r c =
  shift_loop (λ r _, (0 <? r)%Z) (λ r _, (0 <=? r - 1)%Z)
             (λ r, (r - 1)%Z) id n b r c.
Proof. revert b r. induction n as [|n IH]; intros; simpl; [done|]. by rewrite IH. Qed.

Lemma level4_loop_shift n b r c :
  level4_loop n b r c =
  shift_loop (λ _ c, (0 <? c)%Z) (λ _ c, (0 <=? c - 1)%Z)
             id (λ c, (c - 1)%Z) n b r c.
Proof. revert b c. induction n as [|n IH]; intros; simpl; [done|]. by rewrite IH. Qed.

Lemma level5_loop_shift n b r c :
  level5_loop n b r c =
  shift_loop (λ _ c, (c <? COLS - 1)%Z) (λ _ c, (c + 1 <? COLS)%Z)
             id (λ c, (c + 1)%Z) n b r c.
Proof. revert b c. induction n as [|n IH]; intros; simpl; [done|]. by rewrite IH. Qed.

Lemma level6_above_shift n b r c :
  level6_above n b r c =
  shift_loop (λ r _, (r <=? 5)%Z) (λ r _, (r + 1 <=? 5)%Z)
             (λ r, (r + 1)%Z) id n b r c.
Proof. revert b r. induction n as [|n IH]; intros; simpl; [done|]. by rewrite IH. Qed.

Lemma level6_below_shift n b r c :
  level6_below n b r c =
  shift_loop (λ r _, (5 <=? r)%Z) (λ r _, (5 <=? r - 1)%Z)
             (λ r, (r - 1)%Z) id n b r c.
Proof. revert b r. induction n as [|n IH]; intros; simpl; [done|]. by rewrite IH. Qed.

Lemma level7_left_shift n b r c :
  level7_left n b r c =
  shift_loop (λ _ c, (c <=? 8)%Z) (λ _ c, (c + 1 <=? 8)%Z)
             id (λ c, (c + 1)%Z) n b r c.
Proof. revert b c. induction n as [|n IH]; intros; simpl; [done|]. by rewrite IH. Qed.

Lemma level7_right_shift n b r c :
  level7_right n b r c =
  shift_loop (λ _ c, (8 <? c)%Z) (λ _ c, (8 <? c - 1)%Z)
             id (λ c, (c - 1)%Z) n b r c.
Proof. revert b c. induction n as [|n IH]; intros; simpl; [done|]. by rewrite IH. Qed.

(** The iteration counts given by [level2] .. [level7] are never the reason
    a loop stops: any larger count gives the same board. *)
Lemma level2_fuel k b p :
  level2_loop (Z.to_nat (ROWS - 1 - p_r p) + k) b (p_r p) (p_c p) = level2 b p.
Proof.
  unfold level2. rewrite !level2_loop_shift.
  apply (shift_loop_fuel _ _ _ _ (λ r _, Z.to_nat (ROWS - 1 - r))); [|lia].
  intros r c Hg. lia.
Qed.

Lemma level3_fuel k b p :
  level3_loop (Z.to_nat (p_r p) + k) b (p_r p) (p_c p) = level3 b p.
Proof.
  unfold level3. rewrite !level3_loop_shift.
  apply (shift_loop_fuel _ _ _ _ (λ r _, Z.to_nat r)); [|lia].
  intros r c Hg. lia.
Qed.

Lemma level4_fuel k b p :
  level4_loop (Z.to_nat (p_c p) + k) b (p_r p) (p_c p) = level4 b p.
Proof.
  unfold level4. rewrite !level4_loop_shift.
  apply (shift_loop_fuel _ _ _ _ (λ _ c, Z.to_nat c)); [|lia].
  intros r c Hg. lia.
Qed.

Lemma level5_fuel k b p :
  level5_loop (Z.to_nat (COLS - 1 - p_c p) + k) b (p_r p) (p_c p) = level5 b p.
Proof.
  unfold level5. rewrite !level5_loop_shift.
  apply (shift_loop_fuel _ _ _ _ (λ _ c, Z.to_nat (COLS - 1 - c))); [|lia].
  intros r c Hg. lia.
Qed.

Lemma level6_above_fuel k b r c :
  level6_above (Z.to_nat (6 - r) + k) b r c = level6_above (Z.to_nat (6 - r)) b r c.
Proof.
  rewrite !level6_above_shift.
  apply (shift_loop_fuel _ _ _ _ (λ r _, Z.to_nat (6 - r))); [|lia].
  intros r0 c0 Hg. lia.
Qed.

Lemma level6_below_fuel k b r c :
  level6_below (Z.to_nat (r - 4) + k) b r c = level6_below (Z.to_nat (r - 4)) b r c.
Proof.
  rewrite !level6_below_shift.
  apply (shift_loop_fuel _ _ _ _ (λ r _, Z.to_nat (r - 4))); [|lia].
  intros r0 c0 Hg. lia.
Qed.

Lemma level7_left_fuel k b r c :
  level7_left (Z.to_nat (9 - c) + k) b r c = level7_left (Z.to_nat (9 - c)) b r c.
Proof.
  rewrite !level7_left_shift.
  apply (shift_loop_fuel _ _ _ _ (λ _ c, Z.to_nat (9 - c))); [|lia].
  intros r0 c0 Hg. lia.
Qed.

Lemma level7_right_fuel k b r c :
  level7_right (Z.to_nat (c - 8) + k) b r c = level7_right (Z.to_nat (c - 8)) b r c.
Proof.
  rewrite !level7_right_shift.
  apply (shift_loop_fuel _ _ _ _ (λ _ c, Z.to_nat (c - 8))); [|lia].
  intros r0 c0 Hg. lia.
Qed.

(** ** What one collapse can touch *)

Definition interior_pos (p : pos) : Prop := interior (p_r p) (p_c p) = true.

Lemma level1_dims b p : wf_dims b → wf_dims (level1 b p).
Proof. apply setCell_dims. Qed.

Lemma level2_dims b p : wf_dims b → wf_dims (level2 b p).
Proof. unfold level2. rewrite level2_loop_shift. apply shift_loop_dims. Qed.

Lemma level3_dims b p : wf_dims b → wf_dims (level3 b p).
Proof. unfold level3. rewrite level3_loop_shift. apply shift_loop_dims. Qed.

Lemma level4_dims b p : wf_dims b → wf_dims (level4 b p).
Proof. unfold level4. rewrite level4_loop_shift. apply shift_loop_dims. Qed.

Lemma level5_dims b p : wf_dims b → wf_dims (level5 b p).
Proof. unfold level5. rewrite level5_loop_shift. apply shift_loop_dims. Qed.

Lemma level6_dims b p : wf_dims b → wf_dims (level6 b p).
Proof.
  unfold level6. rewrite level6_above_shift, level6_below_shift.
  repeat case_match; auto using shift_loop_dims, setCell_dims.
Qed.

Lemma level7_dims b p : wf_dims b → wf_dims (level7 b p).
Proof.
  unfold level7. rewrite level7_left_shift, level7_right_shift.
  repeat case_match; auto using shift_loop_dims.
Qed.

Lemma applyLevel_dims b level a b' :
  wf_dims b → wf_dims (applyLevel b level a b').
Proof.
  intros Hwf. unfold applyLevel.
  repeat case_match;
    auto using level1_dims, level2_dims, level3_dims, level4_dims,
      level5_dims, level6_dims, level7_dims.
Qed.

(** A collapse along a column leaves the other columns alone. *)
Ltac column_frame :=
  lazymatch goal with
  | |- getCell (shift_loop _ _ _ _ _ _ _ ?c0) _ _ = _ =>
      apply (shift_loop_unchanged _ _ _ _ (λ _ x, x = c0) (λ _ x, x = c0));
      [by intros ? ? -> _ | done | done]
  end.

Ltac row_frame :=
  lazymatch goal with
  | |- getCell (shift_loop _ _ _ _ _ _ ?r0 _) _ _ = _ =>
      apply (shift_loop_unchanged _ _ _ _ (λ x _, x = r0) (λ x _, x = r0));
      [by intros ? ? -> _ | done | done]
  end.

Lemma level2_column b p r c :
  c ≠ p_c p → getCell (level2 b p) r c = getCell b r c.
Proof. intros. unfold level2. rewrite level2_loop_shift. column_frame. Qed.

Lemma level3_column b p r c :
  c ≠ p_c p → getCell (level3 b p) r c = getCell b r c.
Proof. intros. unfold level3. rewrite level3_loop_shift. column_frame. Qed.

Lemma level6_column b p r c :
  c ≠ p_c p → getCell (level6 b p) r c = getCell b r c.
Proof.
  intros. unfold level6. rewrite level6_above_shift, level6_below_shift.
  repeat case_match; [column_frame | column_frame |].
  apply getCell_setCell_ne. by right.
Qed.

Lemma level4_row b p r c :
  r ≠ p_r p → getCell (level4 b p) r c = getCell b r c.
Proof. intros. unfold level4. rewrite level4_loop_shift. row_frame. Qed.

Lemma level5_row b p r c :
  r ≠ p_r p → getCell (level5 b p) r c = getCell b r c.
Proof. intros. unfold level5. rewrite level5_loop_shift. row_frame. Qed.

Lemma level7_row b p r c :
  r ≠ p_r p → getCell (level7 b p) r c = getCell b r c.
Proof.
  intros. unfold level7. rewrite level7_left_shift, level7_right_shift.
  repeat case_match; row_frame.
Qed.

(** A collapse started at an interior cell writes interior cells only. *)
Ltac interior_frame Q :=
  apply (shift_loop_unchanged _ _ _ _ Q (λ r0 c0, interior r0 c0 = true));
  [ intros r0 c0 HQ Hg; rewrite interior_spec;
    unfold ROWS, COLS, id in *; cbv beta in *; lia
  | unfold ROWS, COLS in *; cbv beta; lia
  | congruence ].

Section interior_frame.
  Variables (b : board) (p : pos) (r c : Z).
  Hypothesis p_in : interior_pos p.
  Hypothesis rc_out : interior r c = false.

Local Lemma p_in_spec : (1 ≤ p_r p < ROWS - 1 ∧ 1 ≤ p_c p < COLS - 1)%Z.
  Proof using p_in. by apply interior_spec. Qed.

Lemma level1_interior : getCell (level1 b p) r c = getCell b r c.
  Proof using p_in rc_out.
    apply getCell_setCell_ne.
    destruct (decide (r = p_r p)) as [->|]; [|by left].
    destruct (decide (c = p_c p)) as [->|]; [|by right].
    unfold interior_pos in p_in. congruence.
  Qed.

Lemma level2_interior : getCell (level2 b p) r c = getCell b r c.
  Proof using p_in rc_out.
    pose proof p_in_spec. unfold level2. rewrite level2_loop_shift.
    interior_frame (λ r0 c0, 1 ≤ r0 ∧ 1 ≤ c0 < COLS - 1)%Z.
  Qed.

Lemma level3_interior : getCell (level3 b p) r c = getCell b r c.
  Proof using p_in rc_out.
    pose proof p_in_spec. unfold level3. rewrite level3_loop_shift.
    interior_frame (λ r0 c0, r0 < ROWS - 1 ∧ 1 ≤ c0 < COLS - 1)%Z.
  Qed.

Lemma level4_interior : getCell (level4 b p) r c = getCell b r c.
  Proof using p_in rc_out.
    pose proof p_in_spec. unfold level4. rewrite level4_loop_shift.
    interior_frame (λ r0 c0, 1 ≤ r0 < ROWS - 1 ∧ c0 < COLS - 1)%Z.
  Qed.

Lemma level5_interior : getCell (level5 b p) r c = getCell b r c.
  Proof using p_in rc_out.
    pose proof p_in_spec. unfold level5. rewrite level5_loop_shift.
    interior_frame (λ r0 c0, 1 ≤ r0 < ROWS - 1 ∧ 1 ≤ c0)%Z.
  Qed.

Lemma level6_interior : getCell (level6 b p) r c = getCell b r c.
  Proof using p_in rc_out.
    pose proof p_in_spec. unfold level6.
    rewrite level6_above_shift, level6_below_shift.
    repeat case_match.
    - interior_frame (λ r0 c0, 1 ≤ r0 ∧ 1 ≤ c0 < COLS - 1)%Z.
    - interior_frame (λ r0 c0, r0 < ROWS - 1 ∧ 1 ≤ c0 < COLS - 1)%Z.
    - apply level1_interior.
  Qed.

Lemma level7_interior : getCell (level7 b p) r c = getCell b r c.
  Proof using p_in rc_out.
    pose proof p_in_spec. unfold level7.
    rewrite level7_left_shift, level7_right_shift.
    repeat case_match.
    - interior_frame (λ r0 c0, 1 ≤ r0 < ROWS - 1 ∧ 1 ≤ c0)%Z.
    - interior_frame (λ r0 c0, 1 ≤ r0 < ROWS - 1 ∧ c0 < COLS - 1)%Z.
  Qed.
End interior_frame.

Lemma applyLevel_interior b level a b' r c :
  interior_pos a → interior_pos b' → interior r c = false →
  getCell (applyLevel b level a b') r c = getCell b r c.
Proof.
  intros Ha Hb Hrc. unfold applyLevel.
  repeat case_match;
    first [ rewrite level1_interior, level1_interior by done
          | rewrite level2_interior, level2_interior by done
          | rewrite level3_interior, level3_interior by done
          | rewrite level4_interior, level4_interior by done
          | rewrite level5_interior, level5_interior by done
          | rewrite level6_interior, level6_interior by done
          | rewrite level7_interior, level7_interior by done ]; done.
Qed.

Lemma applyLevel_border b level a b' :
  border_null b → interior_pos a → interior_pos b' →
  border_null (applyLevel b level a b').
Proof.
  intros Hb Ha Hb' r c Hrc. rewrite applyLevel_interior; [by apply Hb|done..|].
  unfold onBorder in Hrc. apply andb_true_iff in Hrc as [_ Hrc].
  by apply negb_true_iff.
Qed.

(** ** Constrained path finder: [findPathLimitedTurns] *)

(** [dirs]: up, down, left, right. *)
Definition dirs : list (Z * Z) := [(-1, 0); (1, 0); (0, -1); (0, 1)]%Z.
Definition dr (d : nat) : Z := (default (0, 0)%Z (dirs !! d)).1.
Definition dc (d : nat) : Z := (default (0, 0)%Z (dirs !! d)).2.

(** A queue entry [{ r, c, d, t, parent }]. *)
#[local] Unset Elimination Schemes.
Inductive node : Type :=
| Node (r c : Z) (d t : nat) (parent : option node).
#[local] Set Elimination Schemes.

Definition n_r (n : node) : Z := let 'Node r _ _ _ _ := n in r.
Definition n_c (n : node) : Z := let 'Node _ c _ _ _ := n in c.
Definition n_d (n : node) : nat := let 'Node _ _ d _ _ := n in d.
Definition n_t (n : node) : nat := let 'Node _ _ _ t _ := n in t.
Definition n_parent (n : node) : option node := let 'Node _ _ _ _ p := n in p.
Definition n_pos (n : node) : pos := Pos (n_r n) (n_c n).

(** [visited[r][c][d]]: a missing key stands for [Infinity]. *)
Abbreviation visitedMap := (gmap (Z * Z * nat) nat).

(** [visited[r][c][d] > nt] *)
Definition unseen (visited : visitedMap) (r c : Z) (d nt : nat) : bool :=
  match visited !! (r, c, d) with
  | Some v => nt <? v
  | None => true
  end.

(** What the outcome of a call can be: a TypeError when [start] is not an
    index of [visited], [null], or the corner points. *)
Inductive pathResult : Type :=
| TypeError
| NoPath
| Path (pts : list pos).

Definition rayFuel : nat := Z.to_nat (ROWS + COLS).

Section search.
Variables (b : board) (start goal : pos) (maxTurns : nat).

Definition canPass (r c : Z) : bool :=
  if negb (inBounds r c) then false
  else if (r =? p_r goal)%Z && (c =? p_c goal)%Z then true
  else isNull (getCell b r c).

(** The inner [while]: one ray from [cur] in direction [nd] at cost [nt],
    now at [(nr, nc)].  Returns [visited], the queue and [endNode]. *)
Fixpoint ray (n : nat) (cur : node) (nd nt : nat) (nr nc : Z)
    (visited : visitedMap) (q : list node) : visitedMap * list node * option node :=
  match n with
  | O => (visited, q, None)
  | S n' =>
      if inBounds nr nc && canPass nr nc then
        if unseen visited nr nc nd nt then
          let visited' := <[(nr, nc, nd) := nt]> visited in
          let next := Node nr nc nd nt (Some cur) in
          if (nr =? p_r goal)%Z && (nc =? p_c goal)%Z
          then (visited', [], Some next)
          else ray n' cur nd nt (nr + dr nd)%Z (nc + dc nd)%Z visited' (q ++ [next])
        else ray n' cur nd nt (nr + dr nd)%Z (nc + dc nd)%Z visited q
      else (visited, q, None)
  end.

(** The [for (nd ...)] loop over the directions still to try. *)
Fixpoint dirLoop (nds : list nat) (cur : node)
    (visited : visitedMap) (q : list node) : visitedMap * list node * option node :=
  match nds with
  | [] => (visited, q, None)
  | nd :: rest =>
      let turnCost := if decide (nd = n_d cur) then 0 else 1 in
      let nt := n_t cur + (if n_parent cur is Some _ then turnCost else 0) in
      if maxTurns <? nt then dirLoop rest cur visited q
      else
        match ray rayFuel cur nd nt (n_r cur + dr nd)%Z (n_c cur + dc nd)%Z visited q with
        | (visited', q', Some e) => (visited', q', Some e)
        | (visited', q', None) => dirLoop rest cur visited' q'
        end
  end.

(** The outer [while (q.length)]; the result is [endNode]. *)
Fixpoint bfs (n : nat) (visited : visitedMap) (q : list node) : option node :=
  match n with
  | O => None
  | S n' =>
      match q with
      | [] => None
      | cur :: q' =>
          match dirLoop [0; 1; 2; 3] cur visited q' with
          | (_, _, Some e) => Some e
          | (visited', q'', None) => bfs n' visited' q''
          end
      end
  end.

(** The reconstruction loop [while (node.parent)]: the points it pushes. *)
Fixpoint walkBack (cur : node) (lastDir : nat) : list pos :=
  match cur with
  | Node _ _ _ _ None => []
  | Node _ _ _ _ (Some p) =>
      if decide (n_d p ≠ lastDir)
      then n_pos p :: walkBack p (n_d p)
      else walkBack p lastDir
  end.

Definition revPoints (endNode : node) : list pos :=
  n_pos endNode :: walkBack endNode (n_d endNode) ++ [start].

Definition seeds : list node :=
  (λ d, Node (p_r start) (p_c start) d 0 None) <$> [0; 1; 2; 3].

Definition visited0 : visitedMap :=
  foldl (λ m d, <[(p_r start, p_c start, d) := 0]> m) ∅ [0; 1; 2; 3].

(** A bound on the iterations of the outer loop: the four seeds and, for each
    of the [4 * ROWS * COLS] search states, one entry per value its [visited]
    slot can take. *)
Definition searchFuel : nat :=
  4 + 4 * Z.to_nat (ROWS * COLS) * (maxTurns + 1).

Definition findPathLimitedTurns : pathResult :=
  if negb (inBounds (p_r start) (p_c start)) then TypeError
  else
    match bfs searchFuel visited0 seeds with
    | None => NoPath
    | Some endNode => Path (reverse (revPoints endNode))
    end.

End search.

Global Arguments rayFuel : simpl never.
Global Arguments searchFuel : simpl never.
Global Arguments dirLoop : simpl never.
Global Arguments bfs : simpl never.

(** ** Example boards *)

Definition emptyBoard : board :=
  replicate (Z.to_nat ROWS) (replicate (Z.to_nat COLS) Null).

(** The empty board with the listed tiles put on it. *)
Definition boardOf (tiles : list (Z * Z * nat)) : board :=
  foldl (λ bd t, setCell bd t.1.1 t.1.2 (Tile t.2)) emptyBoard tiles.

(** ** Legal connections, as the design document words them

    A connection is walked cell by cell: a list of directions, one per unit
    step.  It is legal when it has at least one step, starts on the grid,
    and every cell it enters is on the grid (border included) and is empty
    or is the goal; its turns are the changes of direction between
    consecutive steps. *)

Lemma pos_eta (p : pos) : Pos (p_r p) (p_c p) = p.
Proof. by destruct p. Qed.

Definition pstep (p : pos) (d : nat) : pos :=
  Pos (p_r p + dr d) (p_c p + dc d).

Definition routeEnd (p : pos) (ds : list nat) : pos := foldl pstep p ds.

Fixpoint routeTurns (ds : list nat) : nat :=
  match ds with
  | d1 :: (d2 :: _) as rest => (if decide (d1 = d2) then 0 else 1) + routeTurns rest
  | _ => 0
  end.

Fixpoint routeOk (b : board) (goal p : pos) (ds : list nat) : bool :=
  match ds with
  | [] => true
  | d :: rest =>
      bool_decide (d < 4) &&
      canPass b goal (p_r (pstep p d)) (p_c (pstep p d)) &&
      routeOk b goal (pstep p d) rest
  end.

Definition legalRoute (b : board) (start goal : pos) (ds : list nat) : Prop :=
  ds ≠ [] ∧ inBounds (p_r start) (p_c start) = true ∧
  routeOk b goal start ds = true ∧ routeEnd start ds = goal.

(** Turns and segments of a list of corner points: a segment joins two
    consecutive corner points that differ, and has the direction from the
    first to the second. *)
Definition segDir (p q : pos) : option nat :=
  if decide (p_r p = p_r q) then
    if decide (p_c q < p_c p)%Z then Some 2
    else if decide (p_c p < p_c q)%Z then Some 3 else None
  else if decide (p_c p = p_c q) then
    if decide (p_r q < p_r p)%Z then Some 0 else Some 1
  else None.

Fixpoint pathDirs (pts : list pos) : list nat :=
  match pts with
  | p :: (q :: _) as rest =>
      match segDir p q with Some d => d :: pathDirs rest | None => pathDirs rest end
  | _ => []
  end.

Definition pathTurns (pts : list pos) : nat := routeTurns (pathDirs pts).
Definition pathSegments (pts : list pos) : nat := length (pathDirs pts).

(** Consecutive corner points lie on a common row or column. *)
Fixpoint rectilinear (pts : list pos) : Prop :=
  match pts with
  | p :: (q :: _) as rest => (p_r p = p_r q ∨ p_c p = p_c q) ∧ rectilinear rest
  | _ => True
  end.

(** ** The search, ray by ray *)

Section search_facts.
Variables (b : board) (start goal : pos) (maxTurns : nat).

Local Abbreviation canPass := (canPass b goal).
Local Abbreviation ray := (ray b goal).
Local Abbreviation dirLoop := (dirLoop b goal maxTurns).
Local Abbreviation bfs := (bfs b goal maxTurns).

(** The cells a ray goes through, in order. *)
Fixpoint rayCells (n : nat) (nr nc : Z) (nd : nat) : list (Z * Z) :=
  match n with
  | O => []
  | S n' =>
      if inBounds nr nc && canPass nr nc
      then (nr, nc) :: rayCells n' (nr + dr nd)%Z (nc + dc nd)%Z nd
      else []
  end.

(** What a ray does to [visited] and the queue, cell by cell. *)
Fixpoint rayFold (cur : node) (nd nt : nat) (cells : list (Z * Z))
    (visited : visitedMap) (q : list node) : visitedMap * list node * option node :=
  match cells with
  | [] => (visited, q, None)
  | (nr, nc) :: rest =>
      if unseen visited nr nc nd nt then
        let visited' := <[(nr, nc, nd) := nt]> visited in
        let next := Node nr nc nd nt (Some cur) in
        if (nr =? p_r goal)%Z && (nc =? p_c goal)%Z
        then (visited', [], Some next)
        else rayFold cur nd nt rest visited' (q ++ [next])
      else rayFold cur nd nt rest visited q
  end.

Lemma ray_rayFold n cur nd nt nr nc visited q :
  ray n cur nd nt nr nc visited q =
  rayFold cur nd nt (rayCells n nr nc nd) visited q.
Proof.
  revert nr nc visited q. induction n as [|n IH]; intros; simpl; [done|].
  destruct (inBounds nr nc && canPass nr nc); [|done]. simpl.
  destruct (unseen visited nr nc nd nt); [|by apply IH].
  destruct ((nr =? p_r goal)%Z && (nc =? p_c goal)%Z); [done|]. by apply IH.
Qed.

(** The cost [nt] of leaving [cur] in direction [nd]. *)
Definition nextCost (cur : node) (nd : nat) : nat :=
  n_t cur + (if n_parent cur is Some _
             then (if decide (nd = n_d cur) then 0 else 1) else 0).

Lemma dirLoop_cons nd rest cur visited q :
  dirLoop (nd :: rest) cur visited q =
  if maxTurns <? nextCost cur nd then dirLoop rest cur visited q
  else
    match rayFold cur nd (nextCost cur nd)
            (rayCells rayFuel (n_r cur + dr nd) (n_c cur + dc nd) nd) visited q with
    | (visited', q', Some e) => (visited', q', Some e)
    | (visited', q', None) => dirLoop rest cur visited' q'
    end.
Proof. rewrite <-ray_rayFold. reflexivity. Qed.

Lemma dirLoop_nil cur visited q : dirLoop [] cur visited q = (visited, q, None).
Proof. reflexivity. Qed.

Lemma bfs_S n visited q :
  bfs (S n) visited q =
  match q with
  | [] => None
  | cur :: q' =>
      match dirLoop [0; 1; 2; 3] cur visited q' with
      | (_, _, Some e) => Some e
      | (visited', q'', None) => bfs n visited' q''
      end
  end.
Proof. done. Qed.


Lemma canPass_inBounds r c : canPass r c = true → inBounds r c = true.
Proof. unfold canPass. by destruct (inBounds r c). Qed.

Lemma dirs_lt d : d < 4 →
  (dr d, dc d) = (-1, 0)%Z ∨ (dr d, dc d) = (1, 0)%Z ∨
  (dr d, dc d) = (0, -1)%Z ∨ (dr d, dc d) = (0, 1)%Z.
Proof.
  intros Hd. destruct d as [|[|[|[|]]]]; [auto..|lia].
Qed.

(** Distance to the edge of the grid along a direction. *)
Definition edgeDist (r c : Z) (d : nat) : nat :=
  match d with
  | 0 => Z.to_nat (r + 1)
  | 1 => Z.to_nat (ROWS - r)
  | 2 => Z.to_nat (c + 1)
  | _ => Z.to_nat (COLS - c)
  end.

Lemma edgeDist_step r c d :
  d < 4 → inBounds r c = true →
  S (edgeDist (r + dr d) (c + dc d) d) = edgeDist r c d.
Proof.
  intros Hd Hin%inBounds_spec.
  destruct d as [|[|[|[|]]]]; unfold edgeDist, dr, dc; simpl;
    unfold ROWS, COLS in *; lia.
Qed.

Lemma rayCells_canPass n nr nc nd r c :
  (r, c) ∈ rayCells n nr nc nd → canPass r c = true.
Proof.
  revert nr nc. induction n as [|n IH]; intros nr nc; simpl; [by intros ?%elem_of_nil|].
  destruct (inBounds nr nc && canPass nr nc) eqn:H; [|by intros ?%elem_of_nil].
  apply andb_true_iff in H as [_ H].
  intros [[= -> ->]|Hin]%elem_of_cons; [done|]. by eapply IH.
Qed.

Lemma rayCells_head n nr nc nd :
  canPass nr nc = true → (nr, nc) ∈ rayCells (S n) nr nc nd.
Proof.
  intros H. simpl. rewrite H, (canPass_inBounds _ _ H). simpl. apply elem_of_cons. by left.
Qed.

(** With enough iterations a ray stops only where it cannot pass: the cell
    after a cell of the ray is on the ray when it can be entered. *)
Lemma rayCells_succ n nr nc nd r c :
  nd < 4 → edgeDist nr nc nd ≤ n →
  (r, c) ∈ rayCells n nr nc nd →
  canPass (r + dr nd) (c + dc nd) = true →
  ((r + dr nd)%Z, (c + dc nd)%Z) ∈ rayCells n nr nc nd.
Proof.
  intros Hd. revert nr nc. induction n as [|n IH]; intros nr nc Hn; simpl;
    [by intros ?%elem_of_nil|].
  destruct (inBounds nr nc && canPass nr nc) eqn:H; [|by intros ?%elem_of_nil].
  apply andb_true_iff in H as [Hin _].
  pose proof (edgeDist_step nr nc nd Hd Hin) as Hstep.
  intros [[= -> ->]|Hcell]%elem_of_cons Hnext; apply elem_of_cons; right.
  - destruct n as [|n].
    + pose proof (edgeDist_step _ _ nd Hd (canPass_inBounds _ _ Hnext)). lia.
    + by apply rayCells_head.
  - apply IH; [lia|done..].
Qed.

(** A cell of the ray from the cell after [p] is the end of a straight,
    passable walk from [p]. *)
Lemma rayCells_route n p nd r c :
  nd < 4 →
  (r, c) ∈ rayCells n (p_r p + dr nd) (p_c p + dc nd) nd →
  ∃ k, 0 < k ∧ routeOk b goal p (replicate k nd) = true ∧
       routeEnd p (replicate k nd) = Pos r c.
Proof.
  intros Hd. revert p. induction n as [|n IH]; intros p; simpl; [by intros ?%elem_of_nil|].
  destruct (inBounds _ _ && canPass _ _) eqn:H; [|by intros ?%elem_of_nil].
  apply andb_true_iff in H as [_ Hp].
  intros [[= -> ->]|Hcell]%elem_of_cons.
  - exists 1. split; [lia|]. simpl. rewrite Hp, bool_decide_eq_true_2 by done. done.
  - destruct (IH (pstep p nd) Hcell) as (k & Hk & Hok & Hend).
    exists (S k). split; [lia|]. simpl.
    rewrite Hp, bool_decide_eq_true_2 by done. done.
Qed.

(** [visited[s] <= v] *)
Definition vle (m : visitedMap) (s : Z * Z * nat) (v : nat) : Prop :=
  ∃ v', m !! s = Some v' ∧ v' ≤ v.

Lemma unseen_false m r c d nt : unseen m r c d nt = false ↔ vle m (r, c, d) nt.
Proof.
  unfold unseen, vle. destruct (m !! (r, c, d)) as [v|].
  - rewrite Nat.ltb_ge. split; [eauto|]. by intros (? & [= <-] & ?).
  - split; [done|]. by intros (? & ? & ?).
Qed.

Lemma unseen_insert_ne m s r c d nt :
  unseen (<[s := nt]> m) r c d nt = true → s ≠ (r, c, d) ∧ unseen m r c d nt = true.
Proof.
  unfold unseen. destruct (decide (s = (r, c, d))) as [->|Hne].
  - rewrite lookup_insert_eq. rewrite Nat.ltb_irrefl. done.
  - by rewrite lookup_insert_ne.
Qed.

Lemma vle_mono m s v v' : vle m s v → v ≤ v' → vle m s v'.
Proof. intros (v0 & ? & ?) ?. exists v0. split; [done|lia]. Qed.

(** A ray over cells already reached as cheaply changes nothing. *)
Lemma rayFold_covered cur nd nt cells visited q :
  (∀ r c, (r, c) ∈ cells → vle visited (r, c, nd) nt) →
  rayFold cur nd nt cells visited q = (visited, q, None).
Proof.
  induction cells as [|[nr nc] rest IH]; intros Hcov; simpl; [done|].
  assert (unseen visited nr nc nd nt = false) as ->.
  { apply unseen_false, Hcov, elem_of_cons. by left. }
  apply IH. intros r c Hin. apply Hcov, elem_of_cons. by right.
Qed.

(** How [visited'] relates to [visited] after a ray that pushed [news]. *)
Definition rayUpdate (cur : node) (nd nt : nat) (cells : list (Z * Z))
    (visited visited' : visitedMap) (news : list node) : Prop :=
  ∀ s, visited' !! s = visited !! s ∨
       ∃ r c, s = (r, c, nd) ∧ (r, c) ∈ cells ∧ unseen visited r c nd nt = true ∧
              visited' !! s = Some nt ∧ Node r c nd nt (Some cur) ∈ news.

Definition rayNew (cur : node) (nd nt : nat) (cells : list (Z * Z))
    (visited visited' : visitedMap) (m : node) : Prop :=
  ∃ r c, m = Node r c nd nt (Some cur) ∧ (r, c) ∈ cells ∧
         unseen visited r c nd nt = true ∧ Pos r c ≠ goal ∧
         visited' !! (r, c, nd) = Some nt.

Lemma rayUpdate_vle cur nd nt cells visited visited' news s v :
  rayUpdate cur nd nt cells visited visited' news →
  vle visited s v → vle visited' s v.
Proof.
  intros Hupd (v0 & Hv0 & Hle). destruct (Hupd s) as [Heq|(r & c & -> & _ & Hun & Hv' & _)].
  - exists v0. by rewrite Heq.
  - exists nt. split; [done|]. unfold unseen in Hun. rewrite Hv0 in Hun.
    apply Nat.ltb_lt in Hun. lia.
Qed.

Lemma rayFold_None cur nd nt cells visited q visited' q' :
  rayFold cur nd nt cells visited q = (visited', q', None) →
  ∃ news, q' = q ++ news ∧
    Forall (rayNew cur nd nt cells visited visited') news ∧
    rayUpdate cur nd nt cells visited visited' news ∧
    (∀ r c, (r, c) ∈ cells → vle visited' (r, c, nd) nt).
Proof.
  revert visited q. induction cells as [|[nr nc] rest IH]; intros visited q; simpl.
  - intros [= <- <-]. exists []. rewrite app_nil_r. split; [done|]. split; [done|].
    split; [by left|]. by intros r c ?%elem_of_nil.
  - destruct (unseen visited nr nc nd nt) eqn:Hun.
    + destruct ((nr =? p_r goal)%Z && (nc =? p_c goal)%Z) eqn:Hgoal; [done|].
      intros Hfold. destruct (IH _ _ Hfold) as (news & -> & Hnew & Hupd & Hcov).
      assert (visited' !! (nr, nc, nd) = Some nt) as Hhere.
      { destruct (Hupd (nr, nc, nd)) as [->|(? & ? & ? & ? & ? & ? & ?)]; [|done].
        apply lookup_insert_eq. }
      exists (Node nr nc nd nt (Some cur) :: news).
      split; [by rewrite <-app_assoc|]. split; [|split].
      * constructor.
        -- exists nr, nc. split; [done|]. split; [apply elem_of_cons; by left|].
           split; [done|]. split; [|done]. intros <-. simpl in Hgoal.
           by rewrite !Z.eqb_refl in Hgoal.
        -- eapply Forall_impl; [exact Hnew|]. intros m (r & c & -> & Hin & Hun' & Hg & Hv).
           exists r, c. split; [done|]. split; [apply elem_of_cons; by right|].
           apply unseen_insert_ne in Hun' as [_ ?]. done.
      * intros s. destruct (Hupd s) as [Heq|(r & c & -> & Hin & Hun' & Hv & Hm)].
        -- destruct (decide (s = (nr, nc, nd))) as [->|Hne].
           ++ right. exists nr, nc. split; [done|]. split; [apply elem_of_cons; by left|].
              split; [done|]. split; [done|]. apply elem_of_cons. by left.
           ++ left. rewrite Heq. by apply lookup_insert_ne.
        -- right. exists r, c. split; [done|]. split; [apply elem_of_cons; by right|].
           apply unseen_insert_ne in Hun' as [_ ?].
           split; [done|]. split; [done|]. apply elem_of_cons. by right.
      * intros r c [[= -> ->]|Hin]%elem_of_cons; [|by apply Hcov].
        exists nt. done.
    + intros Hfold. destruct (IH _ _ Hfold) as (news & -> & Hnew & Hupd & Hcov).
      exists news. split; [done|]. split; [|split].
      * eapply Forall_impl; [exact Hnew|]. intros m (r & c & -> & Hin & Hun' & Hg & Hv).
        exists r, c. split; [done|]. split; [apply elem_of_cons; by right|]. done.
      * intros s. destruct (Hupd s) as [Heq|(r & c & -> & Hin & Hun' & Hv & Hm)]; [by left|].
        right. exists r, c. split; [done|]. split; [apply elem_of_cons; by right|]. done.
      * intros r c [[= -> ->]|Hin]%elem_of_cons; [|by apply Hcov].
        eapply rayUpdate_vle; [exact Hupd|]. by apply unseen_false.
Qed.

Lemma rayFold_Some cur nd nt cells visited q visited' q' e :
  rayFold cur nd nt cells visited q = (visited', q', Some e) →
  e = Node (p_r goal) (p_c goal) nd nt (Some cur) ∧
  (p_r goal, p_c goal) ∈ cells ∧ unseen visited (p_r goal) (p_c goal) nd nt = true.
Proof.
  revert visited q. induction cells as [|[nr nc] rest IH]; intros visited q; simpl; [done|].
  destruct (unseen visited nr nc nd nt) eqn:Hun.
  - destruct ((nr =? p_r goal)%Z && (nc =? p_c goal)%Z) eqn:Hgoal.
    + apply andb_true_iff in Hgoal as [->%Z.eqb_eq ->%Z.eqb_eq].
      intros [= <- <- <-]. split; [done|]. split; [apply elem_of_cons; by left|done].
    + intros Hfold. destruct (IH _ _ Hfold) as (-> & Hin & Hun').
      split; [done|]. split; [apply elem_of_cons; by right|].
      by apply unseen_insert_ne in Hun' as [_ ?].
  - intros Hfold. destruct (IH _ _ Hfold) as (-> & Hin & Hun').
    split; [done|]. split; [apply elem_of_cons; by right|done].
Qed.

(** *** The outer loop ends

    Each queue entry was pushed when a [visited] slot dropped, and a slot
    holds [Infinity] or a value up to [maxTurns]; the potential below counts
    the drops still possible. *)

Definition allStates : list (Z * Z * nat) :=
  r ← seqZ 0 ROWS; c ← seqZ 0 COLS; d ← [0; 1; 2; 3]; [(r, c, d)].

Definition rank (o : option nat) : nat :=
  match o with None => S maxTurns | Some v => v `min` S maxTurns end.

Definition potential (visited : visitedMap) : nat :=
  sum_list_with (λ s, rank (visited !! s)) allStates.

Lemma allStates_elem r c d :
  inBounds r c = true → d < 4 → (r, c, d) ∈ allStates.
Proof.
  intros [Hr Hc]%inBounds_spec Hd. unfold allStates.
  apply list_elem_of_bind. exists r. split; [|apply elem_of_seqZ; lia].
  apply list_elem_of_bind. exists c. split; [|apply elem_of_seqZ; lia].
  apply list_elem_of_bind. exists d. split; [apply list_elem_of_singleton; done|].
  destruct d as [|[|[|[|]]]]; [repeat constructor..|lia].
Qed.

Lemma sum_list_with_le_pointwise {A} (f g : A → nat) (l : list A) :
  (∀ y, f y ≤ g y) → sum_list_with f l ≤ sum_list_with g l.
Proof. intros H. induction l as [|x l IH]; simpl; [done|]. specialize (H x). lia. Qed.

Lemma sum_list_with_lt_pointwise {A} (f g : A → nat) (l : list A) x :
  (∀ y, f y ≤ g y) → x ∈ l → f x < g x →
  sum_list_with f l < sum_list_with g l.
Proof.
  intros H Hin Hx. induction Hin as [x l|x y l Hin IH]; simpl.
  - pose proof (sum_list_with_le_pointwise f g l H). lia.
  - specialize (H y). lia.
Qed.

Lemma potential_insert visited r c d nt :
  inBounds r c = true → d < 4 → nt ≤ maxTurns →
  unseen visited r c d nt = true →
  potential (<[(r, c, d) := nt]> visited) < potential visited.
Proof.
  intros Hin Hd Hnt Hun. unfold potential.
  apply sum_list_with_lt_pointwise with (x := (r, c, d)).
  - intros s. destruct (decide (s = (r, c, d))) as [->|Hne].
    + rewrite lookup_insert_eq. unfold unseen in Hun.
      destruct (visited !! (r, c, d)) as [v|]; simpl; [|lia].
      apply Nat.ltb_lt in Hun. lia.
    + by rewrite lookup_insert_ne.
  - by apply allStates_elem.
  - rewrite lookup_insert_eq. unfold unseen in Hun.
    destruct (visited !! (r, c, d)) as [v|]; simpl; [|lia].
    apply Nat.ltb_lt in Hun. lia.
Qed.

Lemma rayFold_measure cur nd nt cells visited q visited' q' :
  nd < 4 → nt ≤ maxTurns →
  (∀ r c, (r, c) ∈ cells → inBounds r c = true) →
  rayFold cur nd nt cells visited q = (visited', q', None) →
  potential visited' + length q' ≤ potential visited + length q.
Proof.
  intros Hd Hnt. revert visited q.
  induction cells as [|[nr nc] rest IH]; intros visited q Hcells; simpl.
  - by intros [= <- <-].
  - assert (∀ r c, (r, c) ∈ rest → inBounds r c = true) as Hrest.
    { intros r c Hin. apply Hcells, elem_of_cons. by right. }
    destruct (unseen visited nr nc nd nt) eqn:Hun; [|by apply IH].
    destruct ((nr =? p_r goal)%Z && (nc =? p_c goal)%Z); [done|].
    intros Hfold%IH; [|done]. rewrite length_app in Hfold. simpl in Hfold.
    assert (inBounds nr nc = true) as Hin by (apply Hcells, elem_of_cons; by left).
    pose proof (potential_insert visited nr nc nd nt Hin Hd Hnt Hun). lia.
Qed.

Lemma dirLoop_measure nds cur visited q visited' q' :
  Forall (λ d, d < 4) nds →
  dirLoop nds cur visited q = (visited', q', None) →
  potential visited' + length q' ≤ potential visited + length q.
Proof.
  intros Hnds. revert visited q.
  induction Hnds as [|nd rest Hd Hrest IH]; intros visited q.
  - by intros [= <- <-].
  - rewrite dirLoop_cons. case_match; [by apply IH|].
    destruct (rayFold _ _ _ _ _ _) as [[v1 q1] [e|]] eqn:Hray; [done|].
    intros Hloop%IH. apply rayFold_measure in Hray; [lia|done|..].
    + by apply Nat.ltb_ge.
    + intros r c Hin. by eapply canPass_inBounds, rayCells_canPass.
Qed.

(** More iterations than the potential allows change nothing. *)
Lemma bfs_fuel n k visited q :
  potential visited + length q ≤ n →
  bfs (n + k) visited q = bfs n visited q.
Proof.
  revert visited q. induction n as [|n IH]; intros visited q Hn.
  - destruct q; [|simpl in Hn; lia]. by destruct k.
  - rewrite Nat.add_succ_l, !bfs_S. destruct q as [|cur q]; [done|].
    destruct (dirLoop _ _ _ _) as [[v1 q1] [e|]] eqn:Hloop; [done|].
    apply IH. apply dirLoop_measure in Hloop; [simpl in Hn; lia|].
    repeat constructor.
Qed.

Lemma potential_bound visited : potential visited ≤ length allStates * S maxTurns.
Proof.
  unfold potential. induction allStates as [|s l IH]; simpl; [done|].
  assert (rank (visited !! s) ≤ S maxTurns); [|lia].
  unfold rank. destruct (visited !! s); lia.
Qed.

Lemma searchFuel_enough visited :
  potential visited + length (seeds start) ≤ searchFuel maxTurns.
Proof.
  pose proof (potential_bound visited) as H.
  assert (length allStates = 792) as Hlen by (by vm_compute).
  unfold searchFuel. rewrite Hlen in H.
  change (Z.to_nat (ROWS * COLS)) with 198.
  change (length (seeds start)) with 4. lia.
Qed.

(** [findPathLimitedTurns] never stops for lack of iterations. *)
Lemma bfs_searchFuel k :
  bfs (searchFuel maxTurns + k) (visited0 start) (seeds start) =
  bfs (searchFuel maxTurns) (visited0 start) (seeds start).
Proof. apply bfs_fuel. apply searchFuel_enough. Qed.

(** *** Queue entries are ends of legal walks

    [nodeRoute n ds]: the parent links of [n] lead back to a seed, and [ds]
    is the walk along them.  An entry pushed from a seed starts the first
    leg at no cost; any other entry was pushed by a turn. *)

Inductive nodeRoute : node → list nat → Prop :=
| nr_seed d :
    d < 4 → nodeRoute (Node (p_r start) (p_c start) d 0 None) []
| nr_first d0 r c d k :
    d0 < 4 → d < 4 → 0 < k →
    routeOk b goal start (replicate k d) = true →
    routeEnd start (replicate k d) = Pos r c →
    Pos r c ≠ start →
    nodeRoute (Node r c d 0 (Some (Node (p_r start) (p_c start) d0 0 None)))
              (replicate k d)
| nr_turn p ds r c d k :
    nodeRoute p ds → n_parent p ≠ None → d < 4 → d ≠ n_d p → 0 < k →
    routeOk b goal (n_pos p) (replicate k d) = true →
    routeEnd (n_pos p) (replicate k d) = Pos r c →
    Pos r c ≠ start → S (n_t p) ≤ maxTurns →
    nodeRoute (Node r c d (S (n_t p)) (Some p)) (ds ++ replicate k d).

Definition wfNode (n : node) : Prop := ∃ ds, nodeRoute n ds.

Definition nodeOK (visited : visitedMap) (n : node) : Prop :=
  wfNode n ∧ vle visited (n_r n, n_c n, n_d n) (n_t n).

Lemma routeOk_app p ds1 ds2 :
  routeOk b goal p (ds1 ++ ds2) =
  routeOk b goal p ds1 && routeOk b goal (routeEnd p ds1) ds2.
Proof.
  revert p. induction ds1 as [|d ds1 IH]; intros p; simpl; [done|].
  rewrite IH. by rewrite !andb_assoc.
Qed.

Lemma routeEnd_app p ds1 ds2 :
  routeEnd p (ds1 ++ ds2) = routeEnd (routeEnd p ds1) ds2.
Proof. apply foldl_app. Qed.

Lemma routeTurns_snoc ds d d' :
  last ds = Some d →
  routeTurns (ds ++ [d']) = routeTurns ds + (if decide (d = d') then 0 else 1).
Proof.
  induction ds as [|d1 [|d2 ds] IH]; intros Hlast; [done|..].
  - injection Hlast as ->. simpl. lia.
  - change (routeTurns ((d1 :: d2 :: ds) ++ [d'])) with
      ((if decide (d1 = d2) then 0 else 1) + routeTurns ((d2 :: ds) ++ [d'])).
    rewrite IH by done. simpl. lia.
Qed.

Lemma routeTurns_replicate k d : routeTurns (replicate k d) = 0.
Proof.
  induction k as [|[|k] IH]; [done..|].
  change (routeTurns (replicate (S (S k)) d)) with
    ((if decide (d = d) then 0 else 1) + routeTurns (replicate (S k) d)).
  rewrite IH. by rewrite decide_True.
Qed.

Lemma routeTurns_app_replicate ds k d d' :
  last ds = Some d → 0 < k →
  routeTurns (ds ++ replicate k d') =
  routeTurns ds + (if decide (d = d') then 0 else 1).
Proof.
  intros Hlast Hk. destruct k as [|k]; [lia|]. clear Hk.
  revert ds d Hlast. induction k as [|k IH]; intros ds d Hlast.
  - by apply routeTurns_snoc.
  - change (replicate (S (S k)) d') with ([d'] ++ replicate (S k) d').
    rewrite app_assoc. rewrite (IH (ds ++ [d']) d') by apply last_snoc.
    rewrite (routeTurns_snoc _ d) by done.
    rewrite (decide_True (P:=d' = d')) by done. lia.
Qed.

Lemma last_replicate {A} k (x : A) : 0 < k → last (replicate k x) = Some x.
Proof.
  intros Hk. destruct k as [|k]; [lia|].
  rewrite replicate_S_end. by rewrite last_snoc.
Qed.

Lemma nodeRoute_seed n ds :
  nodeRoute n ds → n_parent n = None →
  ∃ d, d < 4 ∧ n = Node (p_r start) (p_c start) d 0 None ∧ ds = [].
Proof. destruct 1; try done. intros _. eauto. Qed.

Lemma nodeRoute_facts n ds :
  nodeRoute n ds →
  n_d n < 4 ∧ n_t n ≤ maxTurns ∧
  (n_parent n = None ↔ n_pos n = start) ∧
  routeOk b goal start ds = true ∧ routeEnd start ds = n_pos n ∧
  (n_parent n ≠ None →
     ds ≠ [] ∧ routeTurns ds = n_t n ∧ last ds = Some (n_d n)).
Proof.
  induction 1 as [d Hd|d0 r c d k Hd0 Hd Hk Hok Hend Hne
                 |p ds r c d k Hp IH Hpar Hd Hdne Hk Hok Hend Hne Hle].
  - split; [done|]. split; [simpl; lia|]. split; [by destruct start|].
    split; [done|]. split; [by destruct start|]. done.
  - split; [done|]. split; [simpl; lia|]. split; [done|].
    split; [done|]. split; [done|]. intros _.
    split; [destruct k; [lia|done]|].
    split; [apply routeTurns_replicate|by apply last_replicate].
  - destruct IH as (Hpd & Hpt & Hps & Hpok & Hpend & Hpn).
    destruct (Hpn Hpar) as (Hne' & Hturns & Hlast).
    split; [done|]. split; [done|]. split; [done|].
    split; [rewrite routeOk_app, Hpok, Hpend; done|].
    split; [rewrite routeEnd_app, Hpend; done|]. intros _.
    split; [by destruct ds|].
    split.
    + rewrite (routeTurns_app_replicate _ _ (n_d p)) by done.
      rewrite decide_False by done. simpl. lia.
    + rewrite last_app, last_replicate by done. done.
Qed.

Lemma wfNode_inBounds n :
  inBounds (p_r start) (p_c start) = true → wfNode n →
  inBounds (n_r n) (n_c n) = true.
Proof.
  intros Hstart [ds Hn].
  destruct Hn as [d Hd|d0 r c d k Hd0 Hd Hk Hok Hend Hne
                 |p ds r c d k Hp Hpar Hd Hdne Hk Hok Hend Hne Hle]; [done|..].
  - simpl. clear Hne. revert Hok Hend. generalize start as s.
    induction k as [|[|k] IH]; [lia|..]; intros s Hok Hend.
    + simpl in *. rewrite andb_true_r in Hok.
      apply andb_true_iff in Hok as [_ Hok%canPass_inBounds].
      injection Hend as <- <-. done.
    + change (replicate (S (S k)) d) with (d :: replicate (S k) d) in *.
      simpl in Hok. apply andb_true_iff in Hok as [_ Hok].
      apply (IH ltac:(lia) (pstep s d)); done.
  - simpl. clear Hne Hp. revert Hok Hend. generalize (n_pos p) as s.
    induction k as [|[|k] IH]; [lia|..]; intros s Hok Hend.
    + simpl in *. rewrite andb_true_r in Hok.
      apply andb_true_iff in Hok as [_ Hok%canPass_inBounds].
      injection Hend as <- <-. done.
    + change (replicate (S (S k)) d) with (d :: replicate (S k) d) in *.
      simpl in Hok. apply andb_true_iff in Hok as [_ Hok].
      apply (IH ltac:(lia) (pstep s d)); done.
Qed.

(** *** The invariant of the search *)

Hypothesis start_in : inBounds (p_r start) (p_c start) = true.

Definition leaveCost (r c : Z) (d nd : nat) : nat :=
  if decide (Pos r c = start) then 0 else if decide (nd = d) then 0 else 1.

(** Every neighbour of [(r, c)] that can be entered within the budget has
    been reached at the cost of going there from [(r, c, d)]. *)
Definition closed1 (visited : visitedMap) (r c : Z) (d v : nat) : Prop :=
  ∀ nd, nd < 4 → v + leaveCost r c d nd ≤ maxTurns →
    canPass (r + dr nd) (c + dc nd) = true →
    vle visited ((r + dr nd)%Z, (c + dc nd)%Z, nd) (v + leaveCost r c d nd).

(** Going on in the same direction never costs more; [D] lists the
    directions out of [start] not cast yet. *)
Definition Rinv (D : list nat) (visited : visitedMap) : Prop :=
  ∀ r c d v, visited !! (r, c, d) = Some v →
    canPass (r + dr d) (c + dc d) = true →
    vle visited ((r + dr d)%Z, (c + dc d)%Z, d) v ∨ (Pos r c = start ∧ d ∈ D).

Definition V0 (visited : visitedMap) : Prop :=
  ∀ d, d < 4 → visited !! (p_r start, p_c start, d) = Some 0.

Definition Ginv (visited : visitedMap) : Prop :=
  start ≠ goal → ∀ d, visited !! (p_r goal, p_c goal, d) = None.

(** The queue holds entries of one turn count followed by entries of the
    next. *)
Definition blocks (T : nat) (strict : bool) (q : list node) : Prop :=
  ∃ l1 l2, q = l1 ++ l2 ∧ Forall (λ m, n_t m = T) l1 ∧
           Forall (λ m, n_t m = S T) l2 ∧ (strict = true → l2 = []).

Definition represented (q : list node) (r c : Z) (d v : nat) : Prop :=
  ∃ m, m ∈ q ∧ n_r m = r ∧ n_c m = c ∧ n_d m = d ∧ n_t m = v.

(** Between two rays of the entry [cur]; [pend] are the directions still to
    cast, [init] tells the first iteration from the others. *)
Record Mid (init : bool) (cur : node) (pend : list nat)
    (visited : visitedMap) (q : list node) : Prop := mkMid {
  mid_nodes : Forall (nodeOK visited) q;
  mid_cur : nodeOK visited cur;
  mid_init : init = true → n_parent cur = None;
  mid_V0 : V0 visited;
  mid_R : Rinv (if init then pend else []) visited;
  mid_G : Ginv visited;
  mid_blocks : blocks (n_t cur) init q;
  mid_I1 : ∀ r c d v, visited !! (r, c, d) = Some v →
    represented q r c d v ∨ closed1 visited r c d v ∨
    (n_r cur = r ∧ n_c cur = c ∧ n_d cur = d ∧ n_t cur = v);
  mid_done : ∀ nd, nd < 4 → nd ∉ pend → nextCost cur nd ≤ maxTurns →
    canPass (n_r cur + dr nd) (n_c cur + dc nd) = true →
    vle visited ((n_r cur + dr nd)%Z, (n_c cur + dc nd)%Z, nd) (nextCost cur nd)
}.

(** Between two iterations of the outer loop. *)
Record Inv (visited : visitedMap) (q : list node) : Prop := mkInv {
  inv_nodes : Forall (nodeOK visited) q;
  inv_V0 : V0 visited;
  inv_R : Rinv [] visited;
  inv_G : Ginv visited;
  inv_blocks : ∃ h, blocks h false q;
  inv_I1 : ∀ r c d v, visited !! (r, c, d) = Some v →
    represented q r c d v ∨ closed1 visited r c d v
}.

Lemma nextCost_leaveCost cur nd :
  wfNode cur →
  nextCost cur nd = n_t cur + leaveCost (n_r cur) (n_c cur) (n_d cur) nd.
Proof.
  intros [ds Hcur]. destruct (nodeRoute_facts _ _ Hcur) as (_ & _ & Hs & _).
  unfold nextCost, leaveCost.
  destruct (decide (Pos (n_r cur) (n_c cur) = start)) as [Heq|Hne].
  - apply Hs in Heq. by rewrite Heq.
  - destruct (n_parent cur) as [p|] eqn:Hp; [done|]. exfalso. by apply Hne, Hs.
Qed.

Lemma closed1_mono visited visited' r c d v :
  (∀ s w, vle visited s w → vle visited' s w) →
  closed1 visited r c d v → closed1 visited' r c d v.
Proof. intros Hm Hc nd Hnd Hle Hok. by apply Hm, Hc. Qed.

Lemma edgeDist_first r c nd :
  inBounds r c = true → nd < 4 →
  edgeDist (r + dr nd) (c + dc nd) nd ≤ rayFuel.
Proof.
  intros Hin%inBounds_spec Hd.
  destruct nd as [|[|[|[|]]]]; unfold edgeDist, dr, dc, rayFuel; simpl;
    unfold ROWS, COLS in *; lia.
Qed.

(** Under [Rinv []], a ray that continues a reached state is all reached. *)
Lemma ray_all_covered visited n r0 c0 nd v :
  Rinv [] visited → vle visited (r0, c0, nd) v →
  ∀ r c, (r, c) ∈ rayCells n (r0 + dr nd) (c0 + dc nd) nd →
         vle visited (r, c, nd) v.
Proof.
  intros HR. revert r0 c0. induction n as [|n IH]; intros r0 c0 Hv r c; simpl;
    [by intros ?%elem_of_nil|].
  destruct (inBounds _ _ && canPass _ _) eqn:H; [|by intros ?%elem_of_nil].
  apply andb_true_iff in H as [_ Hok].
  assert (vle visited ((r0 + dr nd)%Z, (c0 + dc nd)%Z, nd) v) as Hnext.
  { destruct Hv as (v0 & Hv0 & Hle).
    destruct (HR _ _ _ _ Hv0 Hok) as [Hvle|[_ []%elem_of_nil]].
    by eapply vle_mono. }
  intros [[= -> ->]|Hin]%elem_of_cons; [done|]. by eapply IH.
Qed.

Lemma unseen_not_start visited r c nd nt :
  V0 visited → nd < 4 → unseen visited r c nd nt = true → Pos r c ≠ start.
Proof.
  intros HV Hnd Hun Heq. specialize (HV nd Hnd). rewrite <-Heq in HV.
  simpl in HV. unfold unseen in Hun. rewrite HV in Hun.
  apply Nat.ltb_lt in Hun. lia.
Qed.

(** *** One ray keeps the invariant *)

Lemma seed_cost cur nd :
  wfNode cur → n_parent cur = None → n_t cur = 0 ∧ nextCost cur nd = 0.
Proof.
  intros [ds Hcur] Hp. destruct (nodeRoute_seed _ _ Hcur Hp) as (d & _ & -> & _). done.
Qed.

Lemma new_node_wf init cur pend visited q nd r c :
  Mid init cur pend visited q → nd < 4 →
  init = true ∨ (n_parent cur ≠ None ∧ nd ≠ n_d cur) →
  nextCost cur nd ≤ maxTurns →
  (r, c) ∈ rayCells rayFuel (n_r cur + dr nd) (n_c cur + dc nd) nd →
  unseen visited r c nd (nextCost cur nd) = true →
  wfNode (Node r c nd (nextCost cur nd) (Some cur)) ∧
  nextCost cur nd = (if init then 0 else S (n_t cur)).
Proof.
  intros HM Hnd Hprod Hnt Hin Hun.
  destruct (mid_cur _ _ _ _ _ HM) as [[ds Hcur] _].
  destruct (rayCells_route rayFuel (n_pos cur) nd r c Hnd Hin) as (k & Hk & Hok & Hend).
  pose proof (unseen_not_start _ _ _ _ _ (mid_V0 _ _ _ _ _ HM) Hnd Hun) as Hne.
  destruct (n_parent cur) as [p|] eqn:Hp.
  - assert (init = false) as ->.
    { destruct init; [|done]. pose proof (mid_init _ _ _ _ _ HM eq_refl). congruence. }
    destruct Hprod as [?|[_ Hdne]]; [done|].
    assert (nextCost cur nd = S (n_t cur)) as Hc.
    { unfold nextCost. rewrite Hp, decide_False by done. lia. }
    rewrite Hc in *.
    split; [|done]. exists (ds ++ replicate k nd).
    apply nr_turn; try done. by rewrite Hp.
  - destruct (nodeRoute_seed _ _ Hcur Hp) as (d0 & Hd0 & -> & ->).
    change (nextCost (Node (p_r start) (p_c start) d0 0 None) nd) with 0.
    split.
    + exists (replicate k nd). apply nr_first; try done.
      * by destruct start.
      * by destruct start.
    + destruct init; [done|]. by destruct Hprod as [?|[? _]].
Qed.

Lemma mid_ray_None init cur nd rest visited q visited' q' :
  Mid init cur (nd :: rest) visited q → nd < 4 →
  init = true ∨ (n_parent cur ≠ None ∧ nd ≠ n_d cur) →
  nextCost cur nd ≤ maxTurns →
  rayFold cur nd (nextCost cur nd)
    (rayCells rayFuel (n_r cur + dr nd) (n_c cur + dc nd) nd) visited q
  = (visited', q', None) →
  Mid init cur rest visited' q'.
Proof.
  intros HM Hnd Hprod Hnt Hfold.
  destruct (rayFold_None _ _ _ _ _ _ _ _ Hfold) as (news & -> & Hnew & Hupd & Hcov).
  assert (∀ s w, vle visited s w → vle visited' s w) as Hmono.
  { intros s w. by eapply rayUpdate_vle. }
  assert (inBounds (n_r cur) (n_c cur) = true) as Hcur_in.
  { apply wfNode_inBounds; [done|]. apply (mid_cur _ _ _ _ _ HM). }
  assert (canPass (n_r cur + dr nd) (n_c cur + dc nd) = true →
          ((n_r cur + dr nd)%Z, (n_c cur + dc nd)%Z) ∈
            rayCells rayFuel (n_r cur + dr nd) (n_c cur + dc nd) nd) as Hfirst.
  { intros Hok. change rayFuel with (S 28). by apply rayCells_head. }
  assert (Forall (λ m, wfNode m ∧ n_t m = (if init then 0 else S (n_t cur))) news)
    as Hnews.
  { eapply Forall_impl; [exact Hnew|].
    intros m (r & c & -> & Hin & Hun & _ & _).
    destruct (new_node_wf _ _ _ _ _ _ _ _ HM Hnd Hprod Hnt Hin Hun) as [? <-]. done. }
  constructor.
  - apply Forall_app. split.
    + eapply Forall_impl; [apply (mid_nodes _ _ _ _ _ HM)|].
      intros m [Hwf Hv]. split; [done|]. by apply Hmono.
    + rewrite Forall_forall in Hnew, Hnews. apply Forall_forall. intros m Hm.
      split; [by apply Hnews|].
      destruct (Hnew m Hm) as (r & c & -> & _ & _ & _ & Hv). simpl.
      exists (nextCost cur nd). done.
  - destruct (mid_cur _ _ _ _ _ HM) as [Hwf Hv]. split; [done|]. by apply Hmono.
  - apply (mid_init _ _ _ _ _ HM).
  - intros d Hd.
    destruct (Hupd (p_r start, p_c start, d)) as [->|(r & c & [= <- <- <-] & _ & Hun & _)].
    + by apply (mid_V0 _ _ _ _ _ HM).
    + exfalso. eapply unseen_not_start; [apply (mid_V0 _ _ _ _ _ HM)|exact Hnd|exact Hun|].
      by destruct start.
  - intros r c d v Hv Hok.
    destruct (Hupd (r, c, d)) as [Heq|(r' & c' & [= <- <- ->] & Hin & Hun & Hv' & _)].
    + rewrite Heq in Hv.
      destruct (mid_R _ _ _ _ _ HM _ _ _ _ Hv Hok) as [Hle|[Hs Hd]]; [left; by apply Hmono|].
      destruct init; [|by apply elem_of_nil in Hd].
      apply elem_of_cons in Hd as [->|Hd]; [|by right].
      left. pose proof (mid_init _ _ _ _ _ HM eq_refl) as Hp.
      destruct (mid_cur _ _ _ _ _ HM) as [Hwf _].
      destruct (seed_cost cur nd Hwf Hp) as [_ Hz].
      destruct Hwf as [ds Hcur].
      destruct (nodeRoute_facts _ _ Hcur) as (_ & _ & Hst & _).
      apply Hst in Hp. rewrite <-Hs in Hp. injection Hp as Hr Hc.
      rewrite Hr, Hc, Hz in *. eapply vle_mono; [by apply Hcov, Hfirst|lia].
    + left. rewrite Hv' in Hv. injection Hv as <-. apply Hcov.
      apply rayCells_succ; [done|by apply edgeDist_first|done..].
  - intros Hsg d.
    destruct (Hupd (p_r goal, p_c goal, d)) as [->|(r & c & [= <- <- <-] & _ & _ & _ & Hm)].
    + by apply (mid_G _ _ _ _ _ HM).
    + exfalso. rewrite Forall_forall in Hnew.
      destruct (Hnew _ Hm) as (r' & c' & [= <- <-] & _ & _ & Hg & _).
      apply Hg. by destruct goal.
  - destruct (mid_blocks _ _ _ _ _ HM) as (l1 & l2 & -> & H1 & H2 & Hstrict).
    destruct init.
    + rewrite (Hstrict eq_refl) in *. exists (l1 ++ news), [].
      rewrite !app_nil_r. split; [done|]. split; [|done].
      apply Forall_app. split; [done|].
      destruct (seed_cost cur nd (proj1 (mid_cur _ _ _ _ _ HM))
                  (mid_init _ _ _ _ _ HM eq_refl)) as [-> _].
      eapply Forall_impl; [exact Hnews|]. by intros m [_ ?].
    + exists l1, (l2 ++ news). split; [by rewrite app_assoc|]. split; [done|].
      split; [|done]. apply Forall_app. split; [done|].
      eapply Forall_impl; [exact Hnews|]. by intros m [_ ?].
  - intros r c d v Hv.
    destruct (Hupd (r, c, d)) as [Heq|(r' & c' & [= <- <- ->] & Hin & Hun & Hv' & Hm)].
    + rewrite Heq in Hv.
      destruct (mid_I1 _ _ _ _ _ HM _ _ _ _ Hv) as [(m & Hm & ?)|[Hc|?]].
      * left. exists m. split; [apply elem_of_app; by left|done].
      * right. left. by eapply closed1_mono.
      * right. by right.
    + left. rewrite Hv' in Hv. injection Hv as <-.
      exists (Node r c nd (nextCost cur nd) (Some cur)).
      split; [apply elem_of_app; by right|done].
  - intros nd' Hnd' Hnin Hle Hok. destruct (decide (nd' = nd)) as [->|Hne].
    + by apply Hcov, Hfirst.
    + apply Hmono, (mid_done _ _ _ _ _ HM); [done| |done..].
      intros [?|?]%elem_of_cons; done.
Qed.

Lemma mid_ray_Some init cur nd rest visited q visited' q' e :
  Mid init cur (nd :: rest) visited q → nd < 4 →
  init = true ∨ (n_parent cur ≠ None ∧ nd ≠ n_d cur) →
  nextCost cur nd ≤ maxTurns →
  rayFold cur nd (nextCost cur nd)
    (rayCells rayFuel (n_r cur + dr nd) (n_c cur + dc nd) nd) visited q
  = (visited', q', Some e) →
  wfNode e ∧ n_parent e ≠ None ∧ n_pos e = goal ∧
  n_t e = (if init then 0 else S (n_t cur)).
Proof.
  intros HM Hnd Hprod Hnt Hfold.
  destruct (rayFold_Some _ _ _ _ _ _ _ _ _ Hfold) as (-> & Hin & Hun).
  destruct (new_node_wf _ _ _ _ _ _ _ _ HM Hnd Hprod Hnt Hin Hun) as [Hwf Hc].
  split; [done|]. split; [done|]. split; [by destruct goal|done].
Qed.

Lemma mid_covered cur nd rest visited q :
  Mid false cur (nd :: rest) visited q → nd < 4 →
  n_parent cur = None ∨ nd = n_d cur →
  rayFold cur nd (nextCost cur nd)
    (rayCells rayFuel (n_r cur + dr nd) (n_c cur + dc nd) nd) visited q
  = (visited, q, None) ∧ Mid false cur rest visited q.
Proof.
  intros HM Hnd Hcase.
  assert (vle visited (n_r cur, n_c cur, nd) (nextCost cur nd)) as Hv.
  { destruct (mid_cur _ _ _ _ _ HM) as [Hwf Hcur].
    destruct (n_parent cur) as [p|] eqn:Hp.
    - destruct Hcase as [? | ->]; [done|].
      unfold nextCost. rewrite Hp, decide_True by done. by rewrite Nat.add_0_r.
    - destruct Hwf as [ds Hds].
      destruct (nodeRoute_seed _ _ Hds Hp) as (d0 & _ & -> & _).
      exists 0. split; [|lia]. by apply (mid_V0 _ _ _ _ _ HM). }
  pose proof (ray_all_covered visited rayFuel _ _ nd _ (mid_R _ _ _ _ _ HM) Hv) as Hall.
  split; [by apply rayFold_covered|].
  destruct HM as [H1 H2 H3 H4 H5 H6 H7 H8 H9]. constructor; try done.
  intros nd' Hnd' Hnin Hle Hok. destruct (decide (nd' = nd)) as [->|Hne].
  - apply Hall. change rayFuel with (S 28). by apply rayCells_head.
  - apply H9; [done| |done..]. intros [?|?]%elem_of_cons; done.
Qed.

Lemma mid_skip init cur nd rest visited q :
  Mid init cur (nd :: rest) visited q → maxTurns < nextCost cur nd →
  Mid init cur rest visited q.
Proof.
  intros HM Hlt.
  assert (init = false) as ->.
  { destruct init; [|done].
    destruct (seed_cost cur nd (proj1 (mid_cur _ _ _ _ _ HM))
                (mid_init _ _ _ _ _ HM eq_refl)) as [_ Hz]. lia. }
  destruct HM as [H1 H2 H3 H4 H5 H6 H7 H8 H9]. constructor; try done.
  intros nd' Hnd' Hnin Hle Hok. destruct (decide (nd' = nd)) as [->|Hne]; [lia|].
  apply H9; [done| |done..]. intros [?|?]%elem_of_cons; done.
Qed.

(** *** One entry keeps the invariant *)

Lemma mid_loop init cur pend visited q visited' q' e :
  Mid init cur pend visited q → Forall (λ d, d < 4) pend →
  dirLoop pend cur visited q = (visited', q', e) →
  match e with
  | None => Mid init cur [] visited' q'
  | Some m => wfNode m ∧ n_parent m ≠ None ∧ n_pos m = goal ∧
              n_t m = (if init then 0 else S (n_t cur))
  end.
Proof.
  intros HM Hpend. revert visited q HM.
  induction Hpend as [|nd rest Hnd Hrest IH]; intros visited q HM.
  - rewrite dirLoop_nil. by intros [= <- <- <-].
  - rewrite dirLoop_cons. destruct (maxTurns <? nextCost cur nd) eqn:Hcost.
    { apply Nat.ltb_lt in Hcost. by apply IH, (mid_skip _ _ nd). }
    apply Nat.ltb_ge in Hcost.
    assert ((init = true ∨ (n_parent cur ≠ None ∧ nd ≠ n_d cur)) ∨
            (init = false ∧ (n_parent cur = None ∨ nd = n_d cur))) as [Hprod|[-> Hcov]].
    { destruct init; [by left; left|].
      destruct (n_parent cur) as [p|]; [|by right; split; [|left]].
      destruct (decide (nd = n_d cur)); [by right; split; [|right]|by left; right]. }
    + destruct (rayFold _ _ _ _ _ _) as [[v1 q1] [e1|]] eqn:Hray.
      * intros [= <- <- <-]. by eapply mid_ray_Some.
      * apply IH. by eapply mid_ray_None.
    + destruct (mid_covered _ _ _ _ _ HM Hnd Hcov) as [-> HM']. by apply IH.
Qed.

Lemma mid_end init cur visited q : Mid init cur [] visited q → Inv visited q.
Proof.
  intros [H1 H2 H3 H4 H5 H6 H7 H8 H9]. constructor; try done.
  - by destruct init.
  - destruct H7 as (l1 & l2 & ? & ? & ? & _). exists (n_t cur), l1, l2. done.
  - intros r c d v Hv. destruct (H8 _ _ _ _ Hv) as [?|[?|(<- & <- & <- & <-)]]; [by left|by right|].
    right. intros nd Hnd Hle Hok. destruct H2 as [Hwf _].
    rewrite <-nextCost_leaveCost in * by done.
    apply H9; [done|by intros ?%elem_of_nil|done..].
Qed.

Lemma inv_pop visited cur q :
  Inv visited (cur :: q) →
  Mid false cur [0; 1; 2; 3] visited q ∧ ∀ m, m ∈ cur :: q → n_t cur ≤ n_t m.
Proof.
  intros [H1 H2 H3 H4 (h & l1 & l2 & Hq & Hl1 & Hl2 & _) H6].
  apply Forall_cons in H1 as [Hcur Hq'].
  assert (blocks (n_t cur) false q ∧ ∀ m, m ∈ q → n_t cur ≤ n_t m) as [Hb Hle].
  { destruct l1 as [|x l1].
    - simpl in Hq. subst l2. apply Forall_cons in Hl2 as [Ht Hl2]. split.
      + exists q, []. rewrite app_nil_r, Ht. done.
      + rewrite Forall_forall in Hl2. intros m Hm. rewrite Ht, (Hl2 m Hm). done.
    - injection Hq as <- ->. apply Forall_cons in Hl1 as [Ht Hl1]. split.
      + exists l1, l2. by rewrite Ht.
      + rewrite Forall_forall in Hl1, Hl2.
        intros m [Hm|Hm]%elem_of_app; [rewrite (Hl1 m Hm)|rewrite (Hl2 m Hm)]; lia. }
  split.
  - constructor; try done.
    + intros r c d v Hv. destruct (H6 _ _ _ _ Hv) as [(m & Hm & Hs)|?]; [|by right; left].
      apply elem_of_cons in Hm as [->|Hm]; [by right; right|].
      left. by exists m.
    + intros nd Hnd Hnin. exfalso. apply Hnin.
      destruct nd as [|[|[|[|]]]]; [repeat constructor..|lia].
  - intros m [->|Hm]%elem_of_cons; [done|by apply Hle].
Qed.

Lemma visited0_Some r c d v :
  visited0 start !! (r, c, d) = Some v →
  r = p_r start ∧ c = p_c start ∧ d < 4 ∧ v = 0.
Proof.
  unfold visited0. simpl. rewrite !lookup_insert, lookup_empty.
  repeat case_decide; simplify_eq; intros; simplify_eq; repeat split; lia.
Qed.

Lemma visited0_start d : d < 4 → visited0 start !! (p_r start, p_c start, d) = Some 0.
Proof.
  intros Hd. unfold visited0. simpl. rewrite !lookup_insert.
  destruct d as [|[|[|[|]]]]; [repeat case_decide; simplify_eq; done..|lia].
Qed.

Lemma mid_start :
  Mid true (Node (p_r start) (p_c start) 0 0 None) [0; 1; 2; 3] (visited0 start)
    ((λ d, Node (p_r start) (p_c start) d 0 None) <$> [1; 2; 3]).
Proof.
  assert (∀ d, d < 4 → nodeOK (visited0 start) (Node (p_r start) (p_c start) d 0 None))
    as Hseed.
  { intros d Hd. split; [exists []; by constructor|]. exists 0.
    split; [by apply visited0_start|done]. }
  constructor.
  - repeat constructor; apply Hseed; lia.
  - apply Hseed. lia.
  - done.
  - intros d Hd. by apply visited0_start.
  - intros r c d v (-> & -> & Hd & ->)%visited0_Some _. right.
    split; [by destruct start|].
    destruct d as [|[|[|[|]]]]; [repeat constructor..|lia].
  - intros Hne d. destruct (visited0 start !! _) as [v|] eqn:Hv; [|done].
    apply visited0_Some in Hv as (Hr & Hc & _). exfalso. apply Hne.
    destruct start, goal. simpl in *. congruence.
  - eexists _, []. rewrite app_nil_r. split; [done|]. split; [|done].
    by repeat constructor.
  - intros r c d v (-> & -> & Hd & ->)%visited0_Some.
    destruct d as [|d]; [by right; right|]. left.
    exists (Node (p_r start) (p_c start) (S d) 0 None). split; [|done].
    simpl. destruct d as [|[|[|]]]; [repeat constructor..|lia].
  - intros nd Hnd Hnin. exfalso. apply Hnin.
    destruct nd as [|[|[|[|]]]]; [repeat constructor..|lia].
Qed.

(** *** Every cheap enough walk has been found *)

Lemma covered_route visited hb B :
  Rinv [] visited →
  (∀ r c d v, visited !! (r, c, d) = Some v → v < hb → closed1 visited r c d v) →
  B ≤ hb → B ≤ maxTurns →
  ∀ ds r c d v,
    vle visited (r, c, d) v → ds ≠ [] →
    routeOk b goal (Pos r c) ds = true →
    v + routeTurns (d :: ds) ≤ B →
    ∃ d', last ds = Some d' ∧
          vle visited (p_r (routeEnd (Pos r c) ds), p_c (routeEnd (Pos r c) ds), d')
              (v + routeTurns (d :: ds)).
Proof.
  intros HR Hclosed HB HBm ds.
  induction ds as [|nd rest IH]; intros r c d v Hv Hne Hok Hturns; [done|].
  simpl in Hok. apply andb_true_iff in Hok as [Hok Hrest].
  apply andb_true_iff in Hok as [Hnd%bool_decide_eq_true Hpass].
  change (routeTurns (d :: nd :: rest)) with
    ((if decide (d = nd) then 0 else 1) + routeTurns (nd :: rest)) in *.
  set (cost := if decide (d = nd) then 0 else 1) in *.
  assert (vle visited ((r + dr nd)%Z, (c + dc nd)%Z, nd) (v + cost)) as Hnext.
  { destruct Hv as (v0 & Hv0 & Hle). unfold cost. destruct (decide (d = nd)) as [->|Hdne].
    - destruct (HR _ _ _ _ Hv0 Hpass) as [Hvle|[_ []%elem_of_nil]].
      eapply vle_mono; [done|lia].
    - assert (v0 < hb) as Hlt by lia.
      pose proof (Hclosed _ _ _ _ Hv0 Hlt nd Hnd) as Hc.
      assert (leaveCost r c d nd ≤ 1) as Hlc.
      { unfold leaveCost. repeat case_decide; lia. }
      eapply vle_mono; [apply Hc; [lia|done]|lia]. }
  destruct rest as [|nd' rest].
  - exists nd. split; [done|]. simpl. rewrite Nat.add_0_r. done.
  - destruct (IH _ _ nd (v + cost) Hnext ltac:(done) Hrest ltac:(lia))
      as (d' & Hlast & Hvle).
    exists d'. split; [done|]. simpl in *. by rewrite Nat.add_assoc.
Qed.

Lemma inv_no_route visited q hb B :
  Inv visited q → (∀ m, m ∈ q → hb ≤ n_t m) → B ≤ hb → B ≤ maxTurns →
  start ≠ goal →
  ∀ ds, legalRoute b start goal ds → routeTurns ds ≤ B → False.
Proof.
  intros HI Hq HB HBm Hsg ds (Hne & _ & Hok & Hend) Hturns.
  destruct ds as [|d1 rest]; [done|].
  assert (d1 < 4) as Hd1.
  { simpl in Hok. apply andb_true_iff in Hok as [Hok _].
    apply andb_true_iff in Hok as [Hd%bool_decide_eq_true _]. done. }
  destruct (covered_route visited hb B (inv_R _ _ HI)) with
    (ds := d1 :: rest) (r := p_r start) (c := p_c start) (d := d1) (v := 0)
    as (d' & _ & (v' & Hv' & _)); try done.
  - intros r c d v Hv Hlt.
    destruct (inv_I1 _ _ HI _ _ _ _ Hv) as [(m & Hm & _ & _ & _ & Ht)|?]; [|done].
    apply Hq in Hm. lia.
  - exists 0. split; [|done]. by apply (inv_V0 _ _ HI).
  - change (routeTurns (d1 :: d1 :: rest)) with
      ((if decide (d1 = d1) then 0 else 1) + routeTurns (d1 :: rest)).
    rewrite decide_True by done. simpl in *. lia.
  - rewrite pos_eta, Hend in Hv'.
    by rewrite (inv_G _ _ HI Hsg) in Hv'.
Qed.

(** *** The outer loop *)

(** What [endNode] is when the search finds one. *)
Definition Good (e : node) : Prop :=
  wfNode e ∧ n_parent e ≠ None ∧ n_pos e = goal ∧
  (start ≠ goal → ∀ ds, legalRoute b start goal ds → n_t e ≤ routeTurns ds).

Lemma bfs_Inv n visited q e :
  Inv visited q → bfs n visited q = Some e → Good e.
Proof.
  revert visited q. induction n as [|n IH]; intros visited q HI; [done|].
  rewrite bfs_S. destruct q as [|cur q]; [done|].
  destruct (inv_pop _ _ _ HI) as [HM Hle].
  destruct (dirLoop _ _ _ _) as [[v1 q1] [e1|]] eqn:Hloop.
  - intros [= ->].
    apply (mid_loop false) in Hloop as (Hwf & Hp & Hg & Ht);
      [|done|repeat constructor].
    split; [done|]. split; [done|]. split; [done|].
    intros Hsg ds Hds. rewrite Ht.
    destruct (decide (routeTurns ds ≤ n_t cur)) as [Hturns|]; [|lia].
    exfalso. eapply (inv_no_route _ _ (n_t cur) (n_t cur)); try done.
    destruct (mid_cur _ _ _ _ _ HM) as [[ds' Hcur] _].
    by destruct (nodeRoute_facts _ _ Hcur) as (_ & ? & _).
  - apply (mid_loop false) in Hloop; [|done|repeat constructor].
    apply IH. by eapply mid_end.
Qed.

Lemma bfs_start n e :
  bfs n (visited0 start) (seeds start) = Some e → Good e.
Proof.
  destruct n as [|n]; [done|]. rewrite bfs_S.
  change (seeds start) with
    (Node (p_r start) (p_c start) 0 0 None ::
     ((λ d, Node (p_r start) (p_c start) d 0 None) <$> [1; 2; 3])).
  cbv iota.
  destruct (dirLoop _ _ _ _) as [[v1 q1] [e1|]] eqn:Hloop.
  - intros [= ->].
    apply (mid_loop true) in Hloop as (Hwf & Hp & Hg & Ht);
      [|apply mid_start|repeat constructor].
    split; [done|]. split; [done|]. split; [done|]. intros _ ds _. lia.
  - apply (mid_loop true) in Hloop; [|apply mid_start|repeat constructor].
    apply bfs_Inv. by eapply mid_end.
Qed.

Lemma bfs_Inv_None n visited q :
  Inv visited q → potential visited + length q ≤ n →
  bfs n visited q = None → start ≠ goal →
  ∀ ds, legalRoute b start goal ds → routeTurns ds ≤ maxTurns → False.
Proof.
  revert visited q. induction n as [|n IH]; intros visited q HI Hn Hbfs Hsg.
  - destruct q; [|simpl in Hn; lia].
    eapply (inv_no_route _ _ (S maxTurns) maxTurns); try done; [|lia].
    by intros m ?%elem_of_nil.
  - rewrite bfs_S in Hbfs. destruct q as [|cur q].
    { eapply (inv_no_route _ _ (S maxTurns) maxTurns); try done; [|lia].
      by intros m ?%elem_of_nil. }
    destruct (inv_pop _ _ _ HI) as [HM _].
    destruct (dirLoop _ _ _ _) as [[v1 q1] [e1|]] eqn:Hloop; [done|].
    pose proof Hloop as Hmeas. apply dirLoop_measure in Hmeas; [|repeat constructor].
    apply (mid_loop false) in Hloop; [|done|repeat constructor].
    eapply IH; [by eapply mid_end| |done..]. simpl in Hn. lia.
Qed.

Lemma bfs_start_None :
  bfs (searchFuel maxTurns) (visited0 start) (seeds start) = None →
  start ≠ goal →
  ∀ ds, legalRoute b start goal ds → routeTurns ds ≤ maxTurns → False.
Proof.
  pose proof (searchFuel_enough (visited0 start)) as Hfuel.
  destruct (searchFuel maxTurns) as [|n]; [simpl in Hfuel; lia|].
  rewrite bfs_S.
  change (seeds start) with
    (Node (p_r start) (p_c start) 0 0 None ::
     ((λ d, Node (p_r start) (p_c start) d 0 None) <$> [1; 2; 3])) in *.
  cbv iota.
  destruct (dirLoop _ _ _ _) as [[v1 q1] [e1|]] eqn:Hloop; [done|].
  pose proof Hloop as Hmeas. apply dirLoop_measure in Hmeas; [|repeat constructor].
  apply (mid_loop true) in Hloop; [|apply mid_start|repeat constructor].
  apply bfs_Inv_None; [by eapply mid_end|]. simpl in *. lia.
Qed.

(** *** The corner points handed back *)

Lemma routeEnd_replicate p k d :
  routeEnd p (replicate k d) =
  Pos (p_r p + Z.of_nat k * dr d) (p_c p + Z.of_nat k * dc d).
Proof.
  revert p. induction k as [|k IH]; intros p.
  - simpl. rewrite !Z.add_0_r. by destruct p.
  - change (routeEnd p (replicate (S k) d)) with (routeEnd (pstep p d) (replicate k d)).
    rewrite IH. simpl. f_equal; lia.
Qed.

Lemma segDir_straight p q k d :
  d < 4 → 0 < k → routeEnd p (replicate k d) = q → segDir p q = Some d.
Proof.
  intros Hd Hk <-. rewrite routeEnd_replicate. unfold segDir. simpl.
  destruct d as [|[|[|[|]]]]; [..|lia]; unfold dr, dc; simpl;
    repeat case_decide; try done; lia.
Qed.

Lemma segDir_refl p : segDir p p = None.
Proof. unfold segDir. repeat case_decide; try done; lia. Qed.

Lemma segDir_aligned p q d : segDir p q = Some d → p_r p = p_r q ∨ p_c p = p_c q.
Proof. unfold segDir. repeat case_decide; intros; simplify_eq; auto. Qed.

Lemma pathDirs_snoc l p q d :
  last l = Some p → segDir p q = Some d →
  pathDirs (l ++ [q]) = pathDirs l ++ [d].
Proof.
  intros Hlast Hseg. induction l as [|x [|y l] IH]; [done|..].
  - injection Hlast as ->. simpl. by rewrite Hseg.
  - change (pathDirs ((x :: y :: l) ++ [q])) with
      (match segDir x y with
       | Some d0 => d0 :: pathDirs ((y :: l) ++ [q])
       | None => pathDirs ((y :: l) ++ [q])
       end).
    rewrite IH by done. simpl. by destruct (segDir x y).
Qed.

Lemma rectilinear_snoc l p q :
  last l = Some p → p_r p = p_r q ∨ p_c p = p_c q →
  rectilinear l → rectilinear (l ++ [q]).
Proof.
  intros Hlast Hpq. induction l as [|x [|y l] IH]; [done|..].
  - injection Hlast as ->. done.
  - intros [Hxy Hrest]. split; [done|]. by apply IH.
Qed.

(** The points of [revPoints] but the last, from the goal back. *)
Definition cornersBack (e : node) : list pos :=
  n_pos e :: walkBack e (n_d e).

Lemma reverse_revPoints e :
  reverse (revPoints start e) = start :: reverse (cornersBack e).
Proof.
  unfold revPoints, cornersBack. rewrite !reverse_cons, reverse_app. done.
Qed.

Lemma corners_spec e ds :
  nodeRoute e ds → n_parent e ≠ None →
  last (start :: reverse (cornersBack e)) = Some (n_pos e) ∧
  rectilinear (start :: reverse (cornersBack e)) ∧
  ∃ L, pathDirs (start :: reverse (cornersBack e)) = L ∧
       last L = Some (n_d e) ∧ routeTurns L = n_t e ∧ length L = S (n_t e).
Proof.
  induction 1 as [d Hd|d0 r c d k Hd0 Hd Hk Hok Hend Hne
                 |p ds r c d k Hp IH Hpar Hd Hdne Hk Hok Hend Hne Hle]; intros Hnp;
    [done|..].
  - pose proof (segDir_straight _ _ _ _ Hd Hk Hend) as Hseg.
    pose proof (segDir_aligned _ _ _ Hseg) as Hal.
    unfold cornersBack, n_pos. simpl.
    destruct (decide (d0 ≠ d)); simpl; unfold n_pos; simpl; rewrite ?pos_eta.
    + rewrite segDir_refl, Hseg. split; [done|]. split; [by auto|]. by exists [d].
    + rewrite Hseg. split; [done|]. split; [by auto|]. by exists [d].
  - destruct (IH Hpar) as (Hlast & Hrect & L & HL & HLlast & HLt & HLlen).
    pose proof (segDir_straight _ _ _ _ Hd Hk Hend) as Hseg.
    assert (start :: reverse (cornersBack (Node r c d (S (n_t p)) (Some p))) =
            (start :: reverse (cornersBack p)) ++ [Pos r c]) as ->.
    { unfold cornersBack. simpl. rewrite decide_True by done.
      by rewrite !reverse_cons. }
    split; [by rewrite last_snoc|]. split.
    { eapply rectilinear_snoc; [done| |done]. by eapply segDir_aligned. }
    exists (L ++ [d]). split; [by rewrite (pathDirs_snoc _ _ _ _ Hlast Hseg), HL|].
    split; [by rewrite last_snoc|]. split.
    + rewrite (routeTurns_snoc _ _ _ HLlast), decide_False by done. simpl. lia.
    + rewrite length_app. simpl. lia.
Qed.

End search_facts.

(** ** What [findPathLimitedTurns] returns *)

Lemma findPath_endNode b start goal maxTurns pts :
  findPathLimitedTurns b start goal maxTurns = Path pts →
  inBounds (p_r start) (p_c start) = true ∧
  ∃ e, Good b start goal maxTurns e ∧ pts = reverse (revPoints start e).
Proof.
  unfold findPathLimitedTurns.
  destruct (inBounds (p_r start) (p_c start)) eqn:Hin; [|done]. cbn [negb].
  destruct (bfs _ _ _ _ _ _) as [e|] eqn:Hbfs; [|done].
  intros [= <-]. split; [done|]. exists e. split; [|done].
  by eapply bfs_start.
Qed.

Lemma findPath_finds b start goal maxTurns ds :
  start ≠ goal → legalRoute b start goal ds → routeTurns ds ≤ maxTurns →
  ∃ pts, findPathLimitedTurns b start goal maxTurns = Path pts.
Proof.
  intros Hsg Hds Hturns. unfold findPathLimitedTurns.
  destruct Hds as (Hne & Hin & Hok & Hend). rewrite Hin. cbn [negb].
  destruct (bfs _ _ _ _ _ _) as [e|] eqn:Hbfs; [by eexists|].
  exfalso. by eapply (bfs_start_None b start goal maxTurns Hin Hbfs Hsg ds).
Qed.

(** The path found: a legal connection with as few turns as any, given by
    its corner points. *)
Lemma findPath_path b start goal maxTurns pts :
  findPathLimitedTurns b start goal maxTurns = Path pts →
  start ≠ goal ∧ rectilinear pts ∧
  (∃ ds, legalRoute b start goal ds ∧ routeTurns ds = pathTurns pts) ∧
  (∀ ds, legalRoute b start goal ds → pathTurns pts ≤ routeTurns ds) ∧
  pathTurns pts ≤ maxTurns ∧ pathSegments pts = S (pathTurns pts).
Proof.
  intros (Hin & e & (Hwf & Hpar & Hgoal & Hmin) & ->)%findPath_endNode.
  destruct Hwf as [ds He].
  destruct (nodeRoute_facts _ _ _ _ _ _ He) as (_ & Ht & Hseed & Hok & Hend & Hnon).
  destruct (Hnon Hpar) as (Hne & Hturns & _).
  destruct (corners_spec _ _ _ _ _ _ He Hpar) as (_ & Hrect & L & HL & _ & HLt & HLlen).
  assert (start ≠ goal) as Hsg.
  { intros Heq. apply Hpar, Hseed. congruence. }
  rewrite reverse_revPoints. unfold pathTurns, pathSegments. rewrite HL, HLt, HLlen.
  split; [done|]. split; [done|]. split; [|split; [by apply Hmin|done]].
  exists ds. split; [|done]. split; [done|]. split; [done|]. split; [done|]. congruence.
Qed.

(** ** Shuffling, the initial board, the reshuffle, the deadlock test *)

(** [[bag[i], bag[j]] = [bag[j], bag[i]]] *)
Definition swap {A} (l : list A) (i j : nat) : list A :=
  match l !! i, l !! j with
  | Some x, Some y => <[i := y]> (<[j := x]> l)
  | _, _ => l
  end.

(** The Fisher-Yates loop [for (i = ...; i > 0; i--)], from index [i] down;
    [draw i] is the raw random draw used at index [i]. *)
Fixpoint shuffleFrom (draw : nat → nat) (i : nat) (bag : list nat) : list nat :=
  match i with
  | O => bag
  | S i' => shuffleFrom draw i' (swap bag i (draw i mod (i + 1)))
  end.

Definition shuffle (draw : nat → nat) (bag : list nat) : list nat :=
  shuffleFrom draw (length bag - 1) bag.

(** [bag[idx]] as a cell: [undefined] past the end. *)
Definition bagAt (bag : list nat) (idx : nat) : cell :=
  match bag !! idx with Some v => Tile v | None => Undefined end.

(** [board[r][c] = bag[idx++]] over the listed cells. *)
Fixpoint place (b : board) (cells : list pos) (bag : list nat) (idx : nat) : board :=
  match cells with
  | [] => b
  | p :: rest => place (setCell b (p_r p) (p_c p) (bagAt bag idx)) rest bag (S idx)
  end.

Definition initialBag : list nat :=
  i ← seq 0 TYPE_COUNT; replicate (if i <? 6 then 6 else 4) i.

Definition makeInitialBoard (draw : nat → nat) : board :=
  place emptyBoard interiorCells (shuffle draw initialBag) 0.

(** [counts[board[r][c]]++]: a slot that does not exist takes no count that
    the bag would see. *)
Definition bump (counts : list nat) (x : cell) : list nat :=
  match x with Tile v => alter S v counts | _ => counts end.

(** The first pair of loops of [rerandomRemaining]. *)
Fixpoint collect (cells : list pos) (b : board) (counts : list nat)
    (positions : list pos) : board * list nat * list pos :=
  match cells with
  | [] => (b, counts, positions)
  | p :: rest =>
      let x := getCell b (p_r p) (p_c p) in
      if notNull x
      then collect rest (setCell b (p_r p) (p_c p) Null) (bump counts x) (positions ++ [p])
      else collect rest b counts positions
  end.

Definition bagOf (counts : list nat) : list nat :=
  t ← seq 0 TYPE_COUNT; replicate (default 0 (counts !! t)) t.

Definition rerandomRemaining (draw : nat → nat) (b : board) : board :=
  let '(b1, counts, positions) := collect interiorCells b (replicate TYPE_COUNT 0) [] in
  place b1 positions (shuffle draw (bagOf counts)) 0.

(** [hasAnyMove] *)
Definition positionsByType (b : board) (t : nat) : list pos :=
  filter (λ p, getCell b (p_r p) (p_c p) = Tile t) interiorCells.

Definition isPath (res : pathResult) : bool :=
  match res with Path _ => true | _ => false end.

(** The loops over [i < j]. *)
Fixpoint anyPair (f : pos → pos → bool) (pts : list pos) : bool :=
  match pts with
  | [] => false
  | p :: rest => existsb (f p) rest || anyPair f rest
  end.

Definition hasAnyMove (b : board) : bool :=
  existsb
    (λ t, anyPair (λ p q, isPath (findPathLimitedTurns b p q 2)) (positionsByType b t))
    (seq 0 TYPE_COUNT).

(** The tile values on the interior, row by row. *)
Definition tileAt (b : board) (p : pos) : option nat :=
  match getCell b (p_r p) (p_c p) with Tile v => Some v | _ => None end.

Definition tileValues (b : board) : list nat := omap (tileAt b) interiorCells.

(** A board of the game: the right shape, and every cell [null] or a tile
    type below [TYPE_COUNT]. *)
Definition board_ok (b : board) : Prop :=
  wf_dims b ∧ ∀ r c, inBounds r c = true → cell_ok (getCell b r c) = true.

Definition board_okb (b : board) : bool :=
  wf_dimsb b && forallb (λ row, forallb cell_ok row) b.

(** ** The reshuffle keeps the tiles and the occupied cells *)

Lemma interiorCells_elem p : p ∈ interiorCells ↔ interior (p_r p) (p_c p) = true.
Proof.
  unfold interiorCells. rewrite interior_spec, list_elem_of_bind. split.
  - intros (r & (c & ->%list_elem_of_singleton & Hc%elem_of_seqZ)%list_elem_of_bind
            & Hr%elem_of_seqZ).
    simpl. unfold ROWS, COLS in *. lia.
  - intros [Hr Hc]. exists (p_r p). split; [|apply elem_of_seqZ; unfold ROWS in *; lia].
    apply list_elem_of_bind. exists (p_c p).
    split; [apply list_elem_of_singleton; by destruct p|].
    apply elem_of_seqZ. unfold COLS in *. lia.
Qed.

Lemma interiorCells_NoDup : NoDup interiorCells.
Proof. apply (bool_decide_unpack _). by vm_compute. Qed.

Lemma insert_perm_cons {A} (l : list A) j x y :
  l !! j = Some y → y :: <[j := x]> l ≡ₚ x :: l.
Proof.
  revert j. induction l as [|a l IH]; intros [|j] Hj; try done.
  - injection Hj as ->. simpl. apply Permutation_swap.
  - simpl in *. rewrite Permutation_swap, (IH j Hj). apply Permutation_swap.
Qed.

Lemma swap_perm {A} (l : list A) i j : swap l i j ≡ₚ l.
Proof.
  unfold swap. destruct (l !! i) as [x|] eqn:Hi; [|done].
  destruct (l !! j) as [y|] eqn:Hj; [|done].
  destruct (decide (i = j)) as [->|Hne].
  - rewrite Hi in Hj. injection Hj as ->.
    rewrite (list_insert_id l j y Hi). by rewrite (list_insert_id l j y Hi).
  - apply (Permutation_cons_inv (a := x)).
    rewrite (insert_perm_cons (<[j := x]> l) i y x).
    + by apply insert_perm_cons.
    + by rewrite list_lookup_insert_ne.
Qed.

Lemma shuffle_perm draw bag : shuffle draw bag ≡ₚ bag.
Proof.
  unfold shuffle. generalize (length bag - 1) as i. intros i. revert bag.
  induction i as [|i IH]; intros bag; simpl; [done|].
  rewrite IH. apply swap_perm.
Qed.

Lemma place_other b cells bag idx r c :
  Pos r c ∉ cells →
  getCell (place b cells bag idx) r c = getCell b r c.
Proof.
  revert b idx. induction cells as [|p rest IH]; intros b idx Hnin; simpl; [done|].
  apply not_elem_of_cons in Hnin as [Hne Hnin]. rewrite IH by done.
  apply getCell_setCell_ne.
  destruct (decide (r = p_r p)) as [->|]; [|by left].
  destruct (decide (c = p_c p)) as [->|]; [|by right].
  by destruct p.
Qed.

Lemma place_dims b cells bag idx : wf_dims b → wf_dims (place b cells bag idx).
Proof.
  revert b idx. induction cells as [|p rest IH]; intros b idx Hwf; simpl; [done|].
  by apply IH, setCell_dims.
Qed.

Lemma place_lookup b cells bag idx i p :
  NoDup cells → wf_dims b → Forall (λ p, inBounds (p_r p) (p_c p) = true) cells →
  cells !! i = Some p →
  getCell (place b cells bag idx) (p_r p) (p_c p) = bagAt bag (idx + i).
Proof.
  revert b idx i. induction cells as [|x rest IH]; intros b idx i Hnd Hwf Hin Hi; [done|].
  apply NoDup_cons in Hnd as [Hx Hnd]. apply Forall_cons in Hin as [Hxin Hin].
  simpl. destruct i as [|i].
  - injection Hi as ->. rewrite place_other by (by rewrite pos_eta).
    rewrite getCell_setCell_eq by done. by rewrite Nat.add_0_r.
  - rewrite (IH _ _ i) by (done || by apply setCell_dims).
    f_equal. lia.
Qed.

(** The cells the first loops of [rerandomRemaining] find occupied. *)
Definition occupied (b : board) (p : pos) : Prop :=
  notNull (getCell b (p_r p) (p_c p)) = true.

Global Instance occupied_dec b p : Decision (occupied b p).
Proof. unfold occupied. apply _. Defined.

Section reshuffle.
Variable b : board.
Hypothesis b_ok : board_ok b.

Lemma collect_spec cells b0 counts positions b1 counts1 positions1 :
  NoDup cells → wf_dims b0 →
  Forall (λ p, inBounds (p_r p) (p_c p) = true) cells →
  (∀ p, p ∈ cells → getCell b0 (p_r p) (p_c p) = getCell b (p_r p) (p_c p)) →
  collect cells b0 counts positions = (b1, counts1, positions1) →
  positions1 = positions ++ filter (occupied b) cells ∧
  counts1 = foldl bump counts ((λ p, getCell b (p_r p) (p_c p)) <$> filter (occupied b) cells) ∧
  wf_dims b1 ∧
  (∀ p, p ∈ cells → getCell b1 (p_r p) (p_c p) = Null) ∧
  (∀ r c, Pos r c ∉ cells → getCell b1 r c = getCell b0 r c).
Proof.
  revert b0 counts positions.
  induction cells as [|x rest IH]; intros b0 counts positions Hnd Hwf Hin Hsame; simpl.
  - intros [= <- <- <-]. rewrite app_nil_r.
    split; [done|]. split; [done|]. split; [done|].
    split; [by intros p ?%elem_of_nil|done].
  - apply NoDup_cons in Hnd as [Hx Hnd]. apply Forall_cons in Hin as [Hxin Hin].
    assert (getCell b0 (p_r x) (p_c x) = getCell b (p_r x) (p_c x)) as Hx0
      by (apply Hsame, elem_of_cons; by left).
    rewrite Hx0. rewrite filter_cons.
    destruct (notNull (getCell b (p_r x) (p_c x))) eqn:Hocc.
    + rewrite decide_True by done. intros Hc.
      apply IH in Hc as (-> & -> & Hwf1 & Hnull & Hframe); try done.
      * split; [by rewrite <-app_assoc|]. split; [done|]. split; [done|]. split.
        -- intros p [->|Hp]%elem_of_cons; [|by apply Hnull].
           rewrite Hframe by (by rewrite pos_eta). by apply getCell_setCell_eq.
        -- intros r c [Hne Hnin]%not_elem_of_cons. rewrite Hframe by done.
           apply getCell_setCell_ne.
           destruct (decide (r = p_r x)) as [->|]; [|by left].
           destruct (decide (c = p_c x)) as [->|]; [|by right]. by destruct x.
      * by apply setCell_dims.
      * intros p Hp. rewrite <-Hsame by (apply elem_of_cons; by right).
        apply getCell_setCell_ne.
        destruct (decide (p_r p = p_r x)) as [Hr|]; [|by left].
        destruct (decide (p_c p = p_c x)) as [Hc'|]; [|by right].
        exfalso. apply Hx. destruct p, x. simpl in *. by subst.
    + rewrite decide_False by (unfold occupied; congruence). intros Hc.
      apply IH in Hc as (-> & -> & Hwf1 & Hnull & Hframe); try done.
      * split; [done|]. split; [done|]. split; [done|]. split.
        -- intros p [->|Hp]%elem_of_cons; [|by apply Hnull].
           rewrite Hframe by (by rewrite pos_eta). rewrite Hx0.
           by destruct (getCell b (p_r x) (p_c x)).
        -- intros r c [Hne Hnin]%not_elem_of_cons. by apply Hframe.
      * intros p Hp. apply Hsame, elem_of_cons. by right.
Qed.

(** Filling the occupied cells in scan order lays the bag out in order. *)
Lemma place_values cells b0 bag idx :
  NoDup cells → wf_dims b0 →
  Forall (λ p, inBounds (p_r p) (p_c p) = true) cells →
  (∀ p, p ∈ cells → getCell b0 (p_r p) (p_c p) = Null) →
  idx + length (filter (occupied b) cells) ≤ length bag →
  omap (tileAt (place b0 (filter (occupied b) cells) bag idx)) cells =
  take (length (filter (occupied b) cells)) (drop idx bag).
Proof.
  revert b0 idx.
  induction cells as [|x rest IH]; intros b0 idx Hnd Hwf Hin Hnull Hlen; [done|].
  apply NoDup_cons in Hnd as [Hx Hnd]. apply Forall_cons in Hin as [Hxin Hin].
  assert (Pos (p_r x) (p_c x) ∉ filter (occupied b) rest) as Hxf.
  { rewrite pos_eta. by intros [_ ?]%list_elem_of_filter. }
  rewrite filter_cons in *. destruct (decide (occupied b x)) as [Hocc|Hocc].
  - simpl in Hlen. destruct (lookup_lt_is_Some_2 bag idx) as [v Hv]; [lia|].
    cbn [omap list_omap place length]. unfold tileAt at 1.
    rewrite place_other by done. rewrite getCell_setCell_eq by done.
    unfold bagAt at 1. rewrite Hv.
    rewrite IH; try done.
    + by rewrite (drop_S _ _ _ Hv).
    + by apply setCell_dims.
    + intros p Hp. rewrite getCell_setCell_ne; [apply Hnull, elem_of_cons; by right|].
      destruct (decide (p_r p = p_r x)) as [Hr|]; [|by left].
      destruct (decide (p_c p = p_c x)) as [Hc'|]; [|by right].
      exfalso. apply Hx. destruct p, x. simpl in *. by subst.
    + lia.
  - cbn [omap list_omap]. unfold tileAt at 1.
    rewrite place_other by done. rewrite Hnull by (apply elem_of_cons; by left).
    apply IH; try done. intros p Hp. apply Hnull, elem_of_cons. by right.
Qed.

Lemma occupied_values cells :
  (∀ p, p ∈ cells → inBounds (p_r p) (p_c p) = true) →
  (λ p, getCell b (p_r p) (p_c p)) <$> filter (occupied b) cells =
    Tile <$> omap (tileAt b) cells ∧
  Forall (λ v, v < TYPE_COUNT) (omap (tileAt b) cells).
Proof.
  destruct b_ok as [_ Hcells].
  induction cells as [|x rest IH]; intros Hin; [done|].
  destruct IH as [IH1 IH2]; [intros p Hp; apply Hin, elem_of_cons; by right|].
  specialize (Hcells _ _ (Hin x ltac:(apply elem_of_cons; by left))).
  rewrite filter_cons. cbn [omap list_omap].
  destruct (getCell b (p_r x) (p_c x)) as [|v|] eqn:Hx; [|..|done].
  - assert (tileAt b x = None) as -> by (unfold tileAt; by rewrite Hx).
    rewrite decide_False; [done|]. unfold occupied. by rewrite Hx.
  - assert (tileAt b x = Some v) as -> by (unfold tileAt; by rewrite Hx).
    rewrite decide_True by (unfold occupied; by rewrite Hx).
    rewrite !fmap_cons, Hx, IH1. split; [done|].
    constructor; [|done]. by apply bool_decide_eq_true in Hcells.
Qed.

End reshuffle.

Lemma bind_replicate_alter counts v a n :
  v < length counts →
  (t ← seq a n; replicate (default 0 (alter S v counts !! t)) t) ≡ₚ
  (if decide (a ≤ v < a + n) then [v] else []) ++
  (t ← seq a n; replicate (default 0 (counts !! t)) t).
Proof.
  intros Hv. revert a. induction n as [|n IH]; intros a.
  - simpl. rewrite decide_False by lia. done.
  - simpl. rewrite (IH (S a)). destruct (decide (a = v)) as [->|Hne].
    + rewrite list_lookup_alter_eq.
      destruct (lookup_lt_is_Some_2 counts v Hv) as [k ->]. simpl.
      repeat case_decide; try lia. done.
    + rewrite list_lookup_alter_ne by done.
      repeat case_decide; try lia; [|done].
      simpl. by rewrite <-Permutation_middle.
Qed.

Lemma bagOf_bump counts v :
  length counts = TYPE_COUNT → v < TYPE_COUNT →
  bagOf (bump counts (Tile v)) ≡ₚ v :: bagOf counts.
Proof.
  intros Hlen Hv. unfold bagOf, bump.
  rewrite bind_replicate_alter by lia. rewrite decide_True by lia. done.
Qed.

Lemma bagOf_foldl counts vs :
  length counts = TYPE_COUNT → Forall (λ v, v < TYPE_COUNT) vs →
  bagOf (foldl bump counts (Tile <$> vs)) ≡ₚ vs ++ bagOf counts.
Proof.
  intros Hlen Hvs. revert counts Hlen.
  induction Hvs as [|v vs Hv Hvs IH]; intros counts Hlen; simpl; [done|].
  rewrite IH by (by rewrite length_alter).
  change (alter S v counts) with (bump counts (Tile v)).
  rewrite bagOf_bump by done. by rewrite <-Permutation_middle.
Qed.

Lemma interiorCells_inBounds :
  Forall (λ p, inBounds (p_r p) (p_c p) = true) interiorCells.
Proof.
  apply Forall_forall. intros p Hp. by apply interior_inBounds, interiorCells_elem.
Qed.

Lemma rerandomRemaining_spec draw b :
  board_ok b →
  tileValues (rerandomRemaining draw b) = shuffle draw (bagOf
    (foldl bump (replicate TYPE_COUNT 0) (Tile <$> tileValues b))) ∧
  wf_dims (rerandomRemaining draw b) ∧
  (∀ r c, isNull (getCell (rerandomRemaining draw b) r c) = isNull (getCell b r c)).
Proof.
  intros Hok. pose proof Hok as [Hwf Hcells]. unfold rerandomRemaining.
  destruct (collect _ _ _ _) as [[b1 counts1] positions1] eqn:Hc.
  apply (collect_spec b) in Hc as (-> & -> & Hwf1 & Hnull & Hframe);
    [|apply interiorCells_NoDup|done|apply interiorCells_inBounds|done].
  destruct (occupied_values b Hok interiorCells) as [Hvals Hlt].
  { intros p Hp. by apply interior_inBounds, interiorCells_elem. }
  rewrite Hvals. fold (tileValues b) in *. rewrite app_nil_l.
  set (bag := shuffle draw _).
  assert (length bag = length (filter (occupied b) interiorCells)) as Hlen.
  { unfold bag. rewrite shuffle_perm, bagOf_foldl by (done || by rewrite length_replicate).
    replace (bagOf (replicate TYPE_COUNT 0)) with (@nil nat) by (by vm_compute).
    rewrite app_nil_r. apply (f_equal length) in Hvals.
    by rewrite !length_fmap in Hvals. }
  split; [|split].
  - unfold tileValues. rewrite (place_values b);
      [|apply interiorCells_NoDup|done|apply interiorCells_inBounds|done|simpl; lia].
    rewrite drop_0, take_ge by lia. done.
  - by apply place_dims.
  - intros r c. destruct (decide (Pos r c ∈ filter (occupied b) interiorCells)) as [Hin|Hnin].
    + pose proof Hin as [Hocc _]%list_elem_of_filter.
      apply list_elem_of_lookup in Hin as [i Hi].
      pose proof (place_lookup b1 _ bag 0 i (Pos r c)
        (NoDup_filter (occupied b) _ interiorCells_NoDup) Hwf1) as Hget.
      simpl in Hget. rewrite Hget; [| |done].
      * unfold bagAt. destruct (lookup_lt_is_Some_2 bag i) as [v ->].
        { rewrite Hlen. by eapply lookup_lt_Some. }
        unfold occupied in Hocc. simpl in Hocc. unfold isNull. by rewrite Hocc.
      * apply Forall_forall. intros p [_ Hp]%list_elem_of_filter.
        by apply interior_inBounds, interiorCells_elem.
    + rewrite place_other by done.
      destruct (decide (Pos r c ∈ interiorCells)) as [Hint|Hnint].
      * pose proof (Hnull _ Hint) as Hn. simpl in Hn. rewrite Hn.
        assert (¬ occupied b (Pos r c)) as Hocc.
        { intros Hocc. apply Hnin, list_elem_of_filter. done. }
        unfold occupied in Hocc. simpl in Hocc. unfold isNull.
        by destruct (notNull (getCell b r c)).
      * by rewrite Hframe.
Qed.

Lemma rerandomRemaining_frame draw b r c :
  wf_dims b → interior r c = false →
  getCell (rerandomRemaining draw b) r c = getCell b r c.
Proof.
  intros Hwf Hrc. unfold rerandomRemaining.
  destruct (collect _ _ _ _) as [[b1 counts1] positions1] eqn:Hc.
  apply (collect_spec b) in Hc as (-> & -> & Hwf1 & Hnull & Hframe);
    [|apply interiorCells_NoDup|done|apply interiorCells_inBounds|done].
  assert (Pos r c ∉ interiorCells) as Hnin.
  { intros Hin%interiorCells_elem. simpl in Hin. congruence. }
  rewrite place_other; [by apply Hframe|].
  simpl. by intros [_ ?]%list_elem_of_filter.
Qed.

Lemma emptyBoard_get r c : inBounds r c = true → getCell emptyBoard r c = Null.
Proof.
  intros [Hr Hc]%inBounds_spec. unfold getCell, emptyBoard.
  rewrite decide_True by lia.
  assert (Z.to_nat r < Z.to_nat ROWS) as Hr' by lia.
  assert (Z.to_nat c < Z.to_nat COLS) as Hc' by lia.
  rewrite (lookup_replicate_2 _ _ _ Hr').
  by rewrite (lookup_replicate_2 _ _ _ Hc').
Qed.

Lemma emptyBoard_dims : wf_dims emptyBoard.
Proof. by apply wf_dimsb_spec. Qed.

Lemma makeInitialBoard_border draw : border_null (makeInitialBoard draw).
Proof.
  intros r c Hrc. unfold onBorder in Hrc.
  apply andb_true_iff in Hrc as [Hin Hout%negb_true_iff].
  unfold makeInitialBoard. rewrite place_other; [by apply emptyBoard_get|].
  intros Hint%interiorCells_elem. simpl in Hint. congruence.
Qed.

(** ** The order of the two collapses *)

(** The collapse of one position at a level ([level1] for an unknown
    level, as the [default] branch). *)
Definition collapse (level : nat) (b : board) (p : pos) : board :=
  match level with
  | 2 => level2 b p
  | 3 => level3 b p
  | 4 => level4 b p
  | 5 => level5 b p
  | 6 => level6 b p
  | 7 => level7 b p
  | _ => level1 b p
  end.

(** The design document's rule for levels 3, 4, 6 and 7, in its words: the
    destination of the upward policy is the top row, of the leftward policy
    the left column, of the center-biased policies the center row 5 and the
    center column 8. *)
Definition destinationDistance (level : nat) (p : pos) : Z :=
  match level with
  | 3 => p_r p
  | 4 => p_c p
  | 6 => Z.abs (p_r p - 5)
  | 7 => Z.abs (p_c p - 8)
  | _ => 0
  end.

(** "The tile farther from the collapse direction's destination is
    processed first." *)
Definition fartherFirst : Prop :=
  ∀ (b : board) (level : nat) (a b' : pos),
    level = 3 ∨ level = 4 ∨ level = 6 ∨ level = 7 →
    (destinationDistance level b' < destinationDistance level a)%Z →
    applyLevel b level a b' = collapse level (collapse level b a) b'.

(** A column holding 7, 5, 5 from row 1 down; the two 5 are removed. *)
Definition orderBoard : board := boardOf [(1%Z, 1%Z, 7); (2%Z, 1%Z, 5); (3%Z, 1%Z, 5)].

Lemma board_okb_spec b : board_okb b = true → board_ok b.
Proof.
  unfold board_okb. intros [Hwf Hcells]%andb_true_iff.
  apply wf_dimsb_spec in Hwf. split; [done|].
  intros r c [Hr Hc]%inBounds_spec.
  destruct (wf_dims_row b r Hwf Hr) as (row & Hrow & Hlen).
  destruct (lookup_lt_is_Some_2 row (Z.to_nat c)) as [x Hx]; [lia|].
  unfold getCell. rewrite decide_True by lia. rewrite Hrow, Hx. simpl.
  rewrite forallb_forall in Hcells.
  assert (forallb cell_ok row = true) as Hrowok.
  { apply Hcells, list_elem_of_In, list_elem_of_lookup. eauto. }
  rewrite forallb_forall in Hrowok.
  apply Hrowok, list_elem_of_In, list_elem_of_lookup. eauto.
Qed.

(** ** Example positions *)

(** Two tiles 5 in row 1 with a tile 6 between them. *)
Definition pathBoard : board := boardOf [(1%Z, 1%Z, 5); (1%Z, 2%Z, 6); (1%Z, 3%Z, 5)].

(** One tile alone. *)
Definition loneBoard : board := boardOf [(1%Z, 1%Z, 5)].

(** Two tiles 5 side by side. *)
Definition pairBoard : board := boardOf [(5%Z, 3%Z, 5); (6%Z, 3%Z, 5)].

(** For a first leg that is not upward the corner list starts with [start]
    twice: the seed entry the walk back ends on has direction 0. *)
Example findPath_adjacent :
  findPathLimitedTurns pairBoard (Pos 5 3) (Pos 6 3) 2
  = Path [Pos 5 3; Pos 5 3; Pos 6 3].
Proof. by vm_compute. Qed.

Example findPath_around :
  findPathLimitedTurns pathBoard (Pos 1 1) (Pos 1 3) 2
  = Path [Pos 1 1; Pos 0 1; Pos 0 3; Pos 1 3].
Proof. by vm_compute. Qed.

(** ** The path finder against the design document *)

Definition findsPath (b : board) (start goal : pos) (k : nat) : Prop :=
  ∃ pts, findPathLimitedTurns b start goal k = Path pts.

Definition connectable (b : board) (start goal : pos) (k : nat) : Prop :=
  ∃ ds, legalRoute b start goal ds ∧ routeTurns ds ≤ k.

(** C1 as stated fails when [start] and [goal] are the same cell: stepping
    right and back is a legal connection with one turn from the tile to
    itself, and the search returns [null], its goal slots being taken by the
    seeds. *)
Lemma findPath_same_cell :
  ¬ (findsPath loneBoard (Pos 1 1) (Pos 1 1) 2 ↔
     connectable loneBoard (Pos 1 1) (Pos 1 1) 2).
Proof.
  intros [_ H]. destruct H as [pts Hpts].
  - exists [3; 2]. split; [|simpl; lia]. split; [done|]. by vm_compute.
  - by vm_compute in Hpts.
Qed.

(** What a call with [goal = start] gives, at any allowance: the seeds take
    the four slots of the cell, so the search never enters it again. *)
Lemma findPath_same b p k :
  findPathLimitedTurns b p p k
  = if inBounds (p_r p) (p_c p) then NoPath else TypeError.
Proof.
  destruct (findPathLimitedTurns b p p k) as [| |pts] eqn:Hp.
  - unfold findPathLimitedTurns in Hp.
    destruct (inBounds (p_r p) (p_c p)); [|done]. cbn [negb] in Hp.
    by destruct (bfs _ _ _ _ _ _).
  - unfold findPathLimitedTurns in Hp. by destruct (inBounds (p_r p) (p_c p)).
  - by apply findPath_path in Hp as [Hsg _].
Qed.

(** C1, amended: for every board of [ROWS] rows of [COLS] cells and every
    two distinct positions, [findPathLimitedTurns board start goal 2]
    returns a path if and only if a legal connection from [start] to [goal]
    with at most 2 turns exists: unit steps along the four directions, every
    cell entered on the grid (border included) and empty or the goal.  When
    [start] and [goal] are the same cell the call returns [null] if the cell
    is on the grid, and throws if it is off the grid. *)
Theorem findPath_iff_connectable b start goal :
  wf_dims b →
  (start ≠ goal → findsPath b start goal 2 ↔ connectable b start goal 2) ∧
  (start = goal →
   findPathLimitedTurns b start goal 2
   = if inBounds (p_r start) (p_c start) then NoPath else TypeError).
Proof.
  intros _. split.
  - intros Hsg. split.
    + intros [pts Hpts].
      apply findPath_path in Hpts as (_ & _ & (ds & Hds & Ht) & _ & Hle & _).
      exists ds. split; [done|lia].
    + intros (ds & Hds & Ht). by eapply findPath_finds.
  - intros <-. apply findPath_same.
Qed.

Lemma findPath_iff_connectable_witness :
  (findsPath pathBoard (Pos 1 1) (Pos 1 3) 2 ↔ connectable pathBoard (Pos 1 1) (Pos 1 3) 2) ∧
  findPathLimitedTurns pathBoard (Pos 1 1) (Pos 1 1) 2 = NoPath.
Proof.
  destruct (findPath_iff_connectable pathBoard (Pos 1 1) (Pos 1 3)) as [Hiff _];
    [by apply wf_dimsb_spec|].
  destruct (findPath_iff_connectable pathBoard (Pos 1 1) (Pos 1 1)) as [_ Hsame];
    [by apply wf_dimsb_spec|].
  split; [by apply Hiff|by apply Hsame].
Defined.

(** C2: when [findPathLimitedTurns] returns a path, its corner points lie
    on common rows or columns, it is a legal connection, no legal connection
    from [start] to [goal] has fewer turns, and it has at most
    [maxTurns + 1] straight segments. *)
Theorem findPath_minimal_turns b start goal maxTurns pts :
  findPathLimitedTurns b start goal maxTurns = Path pts →
  rectilinear pts ∧
  (∃ ds, legalRoute b start goal ds ∧ routeTurns ds = pathTurns pts) ∧
  (∀ ds, legalRoute b start goal ds → pathTurns pts ≤ routeTurns ds) ∧
  pathTurns pts ≤ maxTurns ∧ pathSegments pts ≤ maxTurns + 1.
Proof.
  intros (_ & Hrect & Hex & Hmin & Hle & Hseg)%findPath_path.
  split; [done|]. split; [done|]. split; [done|]. split; [done|]. lia.
Qed.

Lemma findPath_minimal_turns_witness :
  findPathLimitedTurns pathBoard (Pos 1 1) (Pos 1 3) 2
    = Path [Pos 1 1; Pos 0 1; Pos 0 3; Pos 1 3] ∧
  pathTurns [Pos 1 1; Pos 0 1; Pos 0 3; Pos 1 3] ≤ 2 ∧
  pathSegments [Pos 1 1; Pos 0 1; Pos 0 3; Pos 1 3] ≤ 2 + 1.
Proof.
  split; [by vm_compute|].
  apply (findPath_minimal_turns pathBoard (Pos 1 1) (Pos 1 3) 2). by vm_compute.
Defined.

(** ** The collapse engine against the design document *)

(** C3 as stated fails: at level 3 with [a] below [b'] in one column, [a] is
    the farther from the top row and the code collapses [b'] first; the two
    orders leave different boards. *)
Lemma fartherFirst_fails : ¬ fartherFirst.
Proof.
  intros H. specialize (H orderBoard 3 (Pos 3 1) (Pos 2 1)).
  apply (f_equal (λ bd, getCell bd 3 1)) in H; [by vm_compute in H|by auto|by vm_compute].
Qed.

(** C3, amended: [applyLevel] applies the level's collapse to the two
    positions one after the other; level 1 (and an unknown level) takes [a]
    then [b]; levels 2 and 5 take first the position with the larger row,
    resp. column; levels 3 and 4 take first the position with the smaller
    row, resp. column; level 6 takes the smaller row first when both rows
    are above 5 and the larger row first otherwise; level 7 the same with
    columns and 8. *)
Theorem applyLevel_order b level a b' :
  ∃ first second,
    ((first = a ∧ second = b') ∨ (first = b' ∧ second = a)) ∧
    applyLevel b level a b' = collapse level (collapse level b first) second ∧
    match level with
    | 2 => (p_r second ≤ p_r first)%Z
    | 3 => (p_r first ≤ p_r second)%Z
    | 4 => (p_c first ≤ p_c second)%Z
    | 5 => (p_c second ≤ p_c first)%Z
    | 6 => if (5 <? p_r a)%Z && (5 <? p_r b')%Z
           then (p_r first ≤ p_r second)%Z else (p_r second ≤ p_r first)%Z
    | 7 => if (8 <? p_c a)%Z && (8 <? p_c b')%Z
           then (p_c first ≤ p_c second)%Z else (p_c second ≤ p_c first)%Z
    | _ => first = a ∧ second = b'
    end.
Proof.
  destruct level as [|[|[|[|[|[|[|[|]]]]]]]]; cbn [applyLevel collapse];
    try (exists a, b'; split; [by left|done]).
  - destruct (p_r a <? p_r b')%Z eqn:H;
      [exists b', a|exists a, b']; (split; [auto|split; [done|lia]]).
  - destruct (p_r a <? p_r b')%Z eqn:H;
      [exists a, b'|exists b', a]; (split; [auto|split; [done|lia]]).
  - destruct (p_c a <? p_c b')%Z eqn:H;
      [exists a, b'|exists b', a]; (split; [auto|split; [done|lia]]).
  - destruct (p_c a <? p_c b')%Z eqn:H;
      [exists b', a|exists a, b']; (split; [auto|split; [done|lia]]).
  - destruct ((5 <? p_r a)%Z && (5 <? p_r b')%Z); destruct (p_r a <? p_r b')%Z eqn:H;
      [exists a, b'|exists b', a|exists b', a|exists a, b'];
      (split; [auto|split; [done|lia]]).
  - destruct ((8 <? p_c a)%Z && (8 <? p_c b')%Z); destruct (p_c a <? p_c b')%Z eqn:H;
      [exists a, b'|exists b', a|exists b', a|exists a, b'];
      (split; [auto|split; [done|lia]]).
Qed.

(** C10: with [a] and [b'] interior, [applyLevel] at level 1 changes no
    cell but [a] and [b'], at levels 2, 3 and 6 no cell outside the columns
    of [a] and [b'], at levels 4, 5 and 7 no cell outside their rows. *)
Theorem applyLevel_frame b level a b' r c :
  wf_dims b → interior_pos a → interior_pos b' →
  (level = 1 → Pos r c ≠ a → Pos r c ≠ b' →
     getCell (applyLevel b level a b') r c = getCell b r c) ∧
  (level = 2 ∨ level = 3 ∨ level = 6 → c ≠ p_c a → c ≠ p_c b' →
     getCell (applyLevel b level a b') r c = getCell b r c) ∧
  (level = 4 ∨ level = 5 ∨ level = 7 → r ≠ p_r a → r ≠ p_r b' →
     getCell (applyLevel b level a b') r c = getCell b r c).
Proof.
  intros _ _ _. split; [|split].
  - intros -> Ha Hb. cbn [applyLevel]. unfold level1.
    rewrite !getCell_setCell_ne; [done|..].
    + destruct (decide (r = p_r a)) as [->|]; [|by left].
      destruct (decide (c = p_c a)) as [->|]; [|by right]. by destruct a.
    + destruct (decide (r = p_r b')) as [->|]; [|by left].
      destruct (decide (c = p_c b')) as [->|]; [|by right]. by destruct b'.
  - intros [-> | [-> | ->]] Ha Hb; cbn [applyLevel]; repeat case_match;
      rewrite ?level2_column, ?level3_column, ?level6_column by done; done.
  - intros [-> | [-> | ->]] Ha Hb; cbn [applyLevel]; repeat case_match;
      rewrite ?level4_row, ?level5_row, ?level7_row by done; done.
Qed.

Lemma applyLevel_frame_witness :
  getCell (applyLevel orderBoard 3 (Pos 2 1) (Pos 3 1)) 5 5 = getCell orderBoard 5 5.
Proof.
  refine (proj1 (proj2 (applyLevel_frame orderBoard 3 (Pos 2 1) (Pos 3 1) 5 5 _ _ _)) _ _ _);
    [by apply wf_dimsb_spec|done|done|auto|done|done].
Defined.

(** C6: the border cells are [null] in every board [makeInitialBoard]
    builds, and stay [null] under [applyLevel] at interior positions and
    under [rerandomRemaining]. *)
Theorem border_null_invariant :
  (∀ draw, border_null (makeInitialBoard draw)) ∧
  (∀ b level a b',
     wf_dims b → border_null b → interior_pos a → interior_pos b' →
     border_null (applyLevel b level a b')) ∧
  (∀ draw b, wf_dims b → border_null b → border_null (rerandomRemaining draw b)).
Proof.
  split; [apply makeInitialBoard_border|]. split.
  - intros b level a b' _ Hb Ha Hb'. by apply applyLevel_border.
  - intros draw b Hwf Hb r c Hrc. rewrite rerandomRemaining_frame; [by apply Hb|done|].
    unfold onBorder in Hrc. apply andb_true_iff in Hrc as [_ Hrc]. by apply negb_true_iff.
Qed.

(** C7: on a board of the game, [rerandomRemaining] keeps the multiset of
    tile values, their number, which cells are empty, and every cell off the
    interior. *)
Theorem rerandomRemaining_preserves draw b :
  board_ok b →
  tileValues (rerandomRemaining draw b) ≡ₚ tileValues b ∧
  length (tileValues (rerandomRemaining draw b)) = length (tileValues b) ∧
  (∀ r c, isNull (getCell (rerandomRemaining draw b) r c) = isNull (getCell b r c)) ∧
  (∀ r c, interior r c = false →
     getCell (rerandomRemaining draw b) r c = getCell b r c).
Proof.
  intros Hok. destruct (rerandomRemaining_spec draw b Hok) as (Hvals & Hwf & Hnull).
  destruct (occupied_values b Hok interiorCells) as [_ Hlt].
  { intros p Hp. by apply interior_inBounds, interiorCells_elem. }
  fold (tileValues b) in Hlt.
  assert (tileValues (rerandomRemaining draw b) ≡ₚ tileValues b) as Hperm.
  { rewrite Hvals, shuffle_perm, bagOf_foldl by done.
    replace (bagOf (replicate TYPE_COUNT 0)) with (@nil nat) by (by vm_compute).
    by rewrite app_nil_r. }
  split; [done|]. split; [by rewrite Hperm|]. split; [done|].
  intros r c Hrc. apply rerandomRemaining_frame; [apply Hok|done].
Qed.

Lemma rerandomRemaining_preserves_witness :
  board_ok pathBoard ∧
  tileValues (rerandomRemaining (λ i, i) pathBoard) ≡ₚ tileValues pathBoard.
Proof.
  assert (board_ok pathBoard) as Hok by (apply board_okb_spec; by vm_compute).
  split; [done|]. by apply (rerandomRemaining_preserves (λ i, i) pathBoard).
Defined.

(** * Room manager: the socket handlers of [server-io.js]

    The three registries [rooms], [clientToRoom], [globalLeaderboard] and the
    pending timers of the event loop make the state.  A room is stored under
    its id, which is not repeated in the record; so is a player.  A handler
    is a function from the state to the next state, the acknowledgment
    passed to [ack] and the events broadcast to the room, in order.  The
    [scores] field of the payloads is [serializeScores(room)], a function of
    the room, and is not repeated in the events; an event holds the board
    as it is when [emit] is called; socket.io's own room membership
    ([socket.join], [socket.leave]) is not modelled.  The handlers take the
    fields of the payload object as arguments and return the reply; for
    [game:move] the listener itself is modelled too ([onGameMove]), with a
    payload that may be missing and an acknowledgment argument that may be
    missing or no function. *)

Global Arguments makeInitialBoard : simpl never.
Global Arguments rerandomRemaining : simpl never.
Global Arguments hasAnyMove : simpl never.
Global Arguments findPathLimitedTurns : simpl never.
Global Arguments boardCleared : simpl never.
Global Arguments applyLevel : simpl never.

Inductive roomState : Type := Lobby | InProgress | Ended.

Global Instance roomState_eq_dec : EqDecision roomState.
Proof. solve_decision. Defined.

Record player : Type := Player {
  pl_name : string;
  pl_score : nat;
  pl_connected : bool;
  pl_socketId : string
}.

Record room : Type := Room {
  r_hostId : string;
  r_players : gmap string player;
  r_disconnectTimers : gmap string nat;
  r_state : roomState;
  r_board : option board;
  r_level : nat
}.

(** What the closure given to [setTimeout] captured. *)
Record timer : Type := Timer {
  tm_roomId : string;
  tm_clientId : string;
  tm_wasHost : bool
}.

Record server : Type := Server {
  rooms : gmap string room;
  clientToRoom : gmap string string;
  globalLeaderboard : gmap string nat;
  timers : gmap nat timer;
  nextTimer : nat
}.

Inductive event : Type :=
| EvPlayerJoined (roomId clientId name : string)
| EvPlayerRejoined (roomId clientId : string)
| EvPlayerLeft (roomId clientId : string)
| EvPlayerDisconnected (roomId clientId : string)
| EvRoomClosed (roomId : string)
| EvStarted (roomId : string) (bd : board) (level : nat)
| EvRestarted (roomId : string) (bd : board) (level : nat)
| EvMatched (roomId : string) (a b : pos) (path : list pos) (bd : board)
| EvEnded (roomId : string) (bd : option board) (level : nat)
| EvShuffled (roomId : string) (bd : board)
| EvLevelChanged (roomId : string) (level : nat).

Inductive ack : Type :=
| AckFail (error : string)
| AckOk
| AckRoom (roomId hostId : string) (st : roomState) (level : nat) (bd : option board).

(** A handler ends by returning, or by throwing. *)
Inductive outcome : Type :=
| Throws
| Done (sv : server) (a : ack) (evs : list event).

Definition setRooms (sv : server) (rs : gmap string room) : server :=
  Server rs (clientToRoom sv) (globalLeaderboard sv) (timers sv) (nextTimer sv).

Definition setClientToRoom (sv : server) (m : gmap string string) : server :=
  Server (rooms sv) m (globalLeaderboard sv) (timers sv) (nextTimer sv).

Definition setLeaderboard (sv : server) (m : gmap string nat) : server :=
  Server (rooms sv) (clientToRoom sv) m (timers sv) (nextTimer sv).

Definition setTimers (sv : server) (ts : gmap nat timer) : server :=
  Server (rooms sv) (clientToRoom sv) (globalLeaderboard sv) ts (nextTimer sv).

Definition setPlayers (rm : room) (ps : gmap string player) : room :=
  Room (r_hostId rm) ps (r_disconnectTimers rm) (r_state rm) (r_board rm) (r_level rm).

Definition setDisconnectTimers (rm : room) (ts : gmap string nat) : room :=
  Room (r_hostId rm) (r_players rm) ts (r_state rm) (r_board rm) (r_level rm).

Definition setState (rm : room) (st : roomState) : room :=
  Room (r_hostId rm) (r_players rm) (r_disconnectTimers rm) st (r_board rm) (r_level rm).

Definition setBoard (rm : room) (bd : option board) : room :=
  Room (r_hostId rm) (r_players rm) (r_disconnectTimers rm) (r_state rm) bd (r_level rm).

Definition setLevelOf (rm : room) (level : nat) : room :=
  Room (r_hostId rm) (r_players rm) (r_disconnectTimers rm) (r_state rm) (r_board rm) level.

(** [if (room.state === 'in_progress' || room.state === 'ended') payload.board = room.board] *)
Definition payloadBoard (rm : room) : option board :=
  match r_state rm with Lobby => None | _ => r_board rm end.

(** [if (name) ...], [if (!roomId) ...]: of the strings only the empty one
    is falsy; it stands for a missing field too. *)
Definition truthy (s : string) : bool := negb (bool_decide (s = "")).

(** Marking the player connected again, as both the automatic resume and
    the join of a known identity do; [clearTimeout] takes the timer off the
    event loop. *)
Definition reconnectPlayer (p : player) (socketId name : string) : player :=
  Player (if truthy name then name else pl_name p) (pl_score p) true socketId.

Definition cancelTimer (sv : server) (rm : room) (clientId : string) : server * room :=
  match r_disconnectTimers rm !! clientId with
  | Some h =>
      (setTimers sv (delete h (timers sv)),
       setDisconnectTimers rm (delete clientId (r_disconnectTimers rm)))
  | None => (sv, rm)
  end.

(** The first part of [user:joinRoom]: leaving the room [clientToRoom]
    remembers, when it is another one. *)
Definition leavePrevious (sv : server) (clientId roomId : string) : server * list event :=
  match clientToRoom sv !! clientId with
  | Some prevId =>
      if truthy prevId && bool_decide (prevId ≠ roomId) then
        let '(sv1, evs) :=
          match rooms sv !! prevId with
          | Some prev =>
              if decide (is_Some (r_players prev !! clientId)) then
                let prev' :=
                  setDisconnectTimers
                    (setPlayers prev (delete clientId (r_players prev)))
                    (delete clientId (r_disconnectTimers prev)) in
                (setRooms sv (<[prevId := prev']> (rooms sv)), [EvPlayerLeft prevId clientId])
              else (sv, [])
          | None => (sv, [])
          end in
        (setClientToRoom sv1 (delete clientId (clientToRoom sv1)), evs)
      else (sv, [])
  | None => (sv, [])
  end.

(** [socket.on('user:joinRoom', ...)] *)
Definition joinRoom (sv : server) (clientId socketId roomId name : string)
    : server * ack * list event :=
  match rooms sv !! roomId with
  | None => (sv, AckFail "Room not found", [])
  | Some rm =>
      let '(sv1, evs1) := leavePrevious sv clientId roomId in
      let '(sv2, rm2, ev) :=
        match r_players rm !! clientId with
        | Some p =>
            let rm1 := setPlayers rm
              (<[clientId := reconnectPlayer p socketId name]> (r_players rm)) in
            let '(sv', rm') := cancelTimer sv1 rm1 clientId in
            (sv', rm', EvPlayerRejoined roomId clientId)
        | None =>
            let nm := if truthy name then name else "Player" in
            (sv1,
             setPlayers rm (<[clientId := Player nm 0 true socketId]> (r_players rm)),
             EvPlayerJoined roomId clientId nm)
        end in
      let sv3 := setRooms sv2 (<[roomId := rm2]> (rooms sv2)) in
      let sv4 := setClientToRoom sv3 (<[clientId := roomId]> (clientToRoom sv3)) in
      (sv4,
       AckRoom roomId (r_hostId rm2) (r_state rm2) (r_level rm2) (payloadBoard rm2),
       evs1 ++ [ev])
  end.

(** The automatic resume run when a socket connects. *)
Definition resume (sv : server) (clientId socketId : string) : server * list event :=
  match clientToRoom sv !! clientId with
  | Some roomId =>
      if truthy roomId then
        match rooms sv !! roomId with
        | Some rm =>
            match r_players rm !! clientId with
            | Some p =>
                let '(sv1, rm1) := cancelTimer sv rm clientId in
                let rm2 := setPlayers rm1
                  (<[clientId := Player (pl_name p) (pl_score p) true socketId]>
                     (r_players rm1)) in
                (setRooms sv1 (<[roomId := rm2]> (rooms sv1)),
                 [EvPlayerRejoined roomId clientId])
            | None => (sv, [])
            end
        | None => (sv, [])
        end
      else (sv, [])
  | None => (sv, [])
  end.

(** [socket.on('disconnect', ...)]: marks the player and arms the timer. *)
Definition disconnect (sv : server) (clientId : string) : server * list event :=
  match clientToRoom sv !! clientId with
  | None => (sv, [])
  | Some roomId =>
      if negb (truthy roomId) then (sv, []) else
      match rooms sv !! roomId with
      | None => (setClientToRoom sv (delete clientId (clientToRoom sv)), [])
      | Some rm =>
          match r_players rm !! clientId with
          | None => (setClientToRoom sv (delete clientId (clientToRoom sv)), [])
          | Some p =>
              let p' := Player (pl_name p) (pl_score p) false (pl_socketId p) in
              let wasHost := bool_decide (r_hostId rm = clientId) in
              let h := nextTimer sv in
              let rm' :=
                setDisconnectTimers
                  (setPlayers rm (<[clientId := p']> (r_players rm)))
                  (<[clientId := h]> (r_disconnectTimers rm)) in
              (Server (<[roomId := rm']> (rooms sv)) (clientToRoom sv)
                 (globalLeaderboard sv)
                 (<[h := Timer roomId clientId wasHost]> (timers sv)) (S h),
               [EvPlayerDisconnected roomId clientId])
          end
      end
  end.

(** [clientToRoom.delete(pl.id)] for every player of the room. *)
Definition forgetMembers (m : gmap string string) (ps : gmap string player)
    : gmap string string :=
  filter (λ kv, ps !! kv.1 = None) m.

(** The callback of the grace timer, run by the event loop when the pending
    timer [h] fires. *)
Definition timerFire (sv : server) (h : nat) : server * list event :=
  match timers sv !! h with
  | None => (sv, [])
  | Some tm =>
      let sv0 := setTimers sv (delete h (timers sv)) in
      match rooms sv0 !! tm_roomId tm with
      | None => (sv0, [])
      | Some still =>
          match r_players still !! tm_clientId tm with
          | None => (sv0, [])
          | Some p =>
              if pl_connected p then (sv0, [])
              else
                let still' := setPlayers still (delete (tm_clientId tm) (r_players still)) in
                let c2r := delete (tm_clientId tm) (clientToRoom sv0) in
                if tm_wasHost tm then
                  (Server (delete (tm_roomId tm) (rooms sv0))
                     (forgetMembers c2r (r_players still'))
                     (globalLeaderboard sv0) (timers sv0) (nextTimer sv0),
                   [EvRoomClosed (tm_roomId tm)])
                else
                  (Server (<[tm_roomId tm := still']> (rooms sv0)) c2r
                     (globalLeaderboard sv0) (timers sv0) (nextTimer sv0),
                   [EvPlayerLeft (tm_roomId tm) (tm_clientId tm)])
          end
      end
  end.

(** [for (const p of room.players.values()) p.score = 0] *)
Definition resetScores (ps : gmap string player) : gmap string player :=
  (λ p, Player (pl_name p) 0 (pl_connected p) (pl_socketId p)) <$> ps.

(** [host:startGame] and [host:restartGame] *)
Definition startGame (draw : nat → nat) (sv : server) (clientId roomId : string)
    : server * ack * list event :=
  match rooms sv !! roomId with
  | None => (sv, AckFail "Room not found", [])
  | Some rm =>
      if decide (r_hostId rm ≠ clientId) then (sv, AckFail "Only host can start", [])
      else
        let bd := makeInitialBoard draw in
        let rm' := Room (r_hostId rm) (resetScores (r_players rm))
                     (r_disconnectTimers rm) InProgress (Some bd) (r_level rm) in
        (setRooms sv (<[roomId := rm']> (rooms sv)), AckOk,
         [EvStarted roomId bd (r_level rm)])
  end.

Definition restartGame (draw : nat → nat) (sv : server) (clientId roomId : string)
    : server * ack * list event :=
  match rooms sv !! roomId with
  | None => (sv, AckFail "Room not found", [])
  | Some rm =>
      if decide (r_hostId rm ≠ clientId) then (sv, AckFail "Only host can restart", [])
      else
        let bd := makeInitialBoard draw in
        let rm' := Room (r_hostId rm) (resetScores (r_players rm))
                     (r_disconnectTimers rm) InProgress (Some bd) (r_level rm) in
        (setRooms sv (<[roomId := rm']> (rooms sv)), AckOk,
         [EvRestarted roomId bd (r_level rm)])
  end.

(** [host:endGame] *)
Definition endGame (sv : server) (clientId roomId : string)
    : server * ack * list event :=
  match rooms sv !! roomId with
  | None => (sv, AckFail "Room not found", [])
  | Some rm =>
      if decide (r_hostId rm ≠ clientId) then (sv, AckFail "Only host can end", [])
      else
        (setRooms sv (<[roomId := setState rm Ended]> (rooms sv)), AckOk,
         [EvEnded roomId (r_board rm) (r_level rm)])
  end.

(** [host:setLevel], for an integer [level]. *)
Definition setLevel (sv : server) (clientId roomId : string) (level : Z)
    : server * ack * list event :=
  match rooms sv !! roomId with
  | None => (sv, AckFail "Room not found", [])
  | Some rm =>
      if decide (r_hostId rm ≠ clientId) then (sv, AckFail "Only host can set level", [])
      else if (level <? 1)%Z || (7 <? level)%Z then (sv, AckFail "Level must be 1..7", [])
      else
        (setRooms sv (<[roomId := setLevelOf rm (Z.to_nat level)]> (rooms sv)), AckOk,
         [EvLevelChanged roomId (Z.to_nat level)])
  end.

(** [player.score += 10] and the leaderboard entry of the player's name. *)
Definition award (rm : room) (lb : gmap string nat) (clientId : string)
    : gmap string player * gmap string nat :=
  match r_players rm !! clientId with
  | Some p =>
      (<[clientId := Player (pl_name p) (pl_score p + 10) (pl_connected p) (pl_socketId p)]>
         (r_players rm),
       <[pl_name p := default 0 (lb !! pl_name p) + 10]> lb)
  | None => (r_players rm, lb)
  end.

(** The body of the [game:move] listener, once the payload object has been
    taken apart into [roomId], [a] and [b]; [a] and [b] are [None] when the
    payload has no such field.  The [ack] of [Done] is the reply each exit
    hands to [ack && ack(...)].  [boardCleared(room.board)] throws when the
    room has no board yet, and [findPathLimitedTurns] when [a] is not on the
    grid.  The listener as socket.io calls it is [onGameMove] below. *)
Definition gameMove (draw : nat → nat) (sv : server) (clientId roomId : string)
    (a b : option pos) : outcome :=
  match rooms sv !! roomId with
  | None => Done sv (AckFail "Room not found") []
  | Some rm =>
      if decide (r_state rm ≠ InProgress) then Done sv (AckFail "Game not in progress") []
      else
        match a, b with
        | Some a, Some b =>
            match r_board rm with
            | None => Throws
            | Some bd =>
                if negb (boardCleared bd) then
                  let v1 := getCell bd (p_r a) (p_c a) in
                  let v2 := getCell bd (p_r b) (p_c b) in
                  if looseNull v1 || looseNull v2 || negb (bool_decide (v1 = v2))
                  then Done sv (AckFail "Not matchable") []
                  else
                    match findPathLimitedTurns bd a b 2 with
                    | TypeError => Throws
                    | NoPath => Done sv (AckFail "No path") []
                    | Path path =>
                        let level := if decide (r_level rm = 0) then 1 else r_level rm in
                        let bd1 := applyLevel bd level a b in
                        let '(ps, lb) := award rm (globalLeaderboard sv) clientId in
                        let cleared := boardCleared bd1 in
                        let matched := EvMatched roomId a b path bd1 in
                        if cleared then
                          let level' := r_level rm `mod` 7 + 1 in
                          let rm' := Room (r_hostId rm) ps (r_disconnectTimers rm)
                                       Ended (Some bd1) level' in
                          Done (setLeaderboard (setRooms sv (<[roomId := rm']> (rooms sv))) lb)
                            AckOk [matched; EvEnded roomId (Some bd1) level']
                        else if negb (hasAnyMove bd1) then
                          let bd2 := rerandomRemaining draw bd1 in
                          let rm' := Room (r_hostId rm) ps (r_disconnectTimers rm)
                                       (r_state rm) (Some bd2) (r_level rm) in
                          Done (setLeaderboard (setRooms sv (<[roomId := rm']> (rooms sv))) lb)
                            AckOk [matched; EvShuffled roomId bd2]
                        else
                          let rm' := Room (r_hostId rm) ps (r_disconnectTimers rm)
                                       (r_state rm) (Some bd1) (r_level rm) in
                          Done (setLeaderboard (setRooms sv (<[roomId := rm']> (rooms sv))) lb)
                            AckOk [matched]
                    end
                else Done sv (AckFail "Board already cleared") []
            end
        | _, _ => Done sv (AckFail "Invalid coords") []
        end
  end.

(** What a client passes as the acknowledgment argument: nothing (or a falsy
    value), a function, or a truthy value that is not a function. *)
Inductive ackArg : Type := NoAck | AckFun | AckNotFun.

(** The object a [game:move] carries.  [mp_roomId] is [None] for a field that
    is missing or is no string, hence no key of [rooms]; a position is
    [None] for a missing or falsy field. *)
Record movePayload : Type := MovePayload {
  mp_roomId : option string;
  mp_a : option pos;
  mp_b : option pos
}.

(** How a call of a listener ends: with a TypeError nobody catches, or by
    returning.  Both carry the state left and the events broadcast until
    then; [reply] is what the acknowledgment function was called with, if it
    was called. *)
Inductive handled : Type :=
| Uncaught (sv : server) (evs : list event)
| Returned (sv : server) (reply : option ack) (evs : list event).

(** The body on a payload object: [getRoom(roomId)] finds nothing for a
    [roomId] that is no string. *)
Definition moveBody (draw : nat → nat) (sv : server) (clientId : string)
    (p : movePayload) : outcome :=
  match mp_roomId p with
  | Some roomId => gameMove draw sv clientId roomId (mp_a p) (mp_b p)
  | None => Done sv (AckFail "Room not found") []
  end.

(** [socket.on('game:move', ({ roomId, a, b }, ack) => ...)] as socket.io
    calls it.  [payload] is [None] when the client sent no payload
    ([undefined] or [null]): taking it apart in the parameter list throws
    before the body runs, and nothing catches it.  Every exit of the body is
    [return ack && ack(reply)]: nothing is sent without [ack], and calling an
    [ack] that is no function throws, after the body has written the state
    and broadcast. *)
Definition onGameMove (draw : nat → nat) (sv : server) (clientId : string)
    (payload : option movePayload) (ack : ackArg) : handled :=
  match payload with
  | None => Uncaught sv []
  | Some p =>
      match moveBody draw sv clientId p with
      | Throws => Uncaught sv []
      | Done sv' reply evs =>
          match ack with
          | NoAck => Returned sv' None evs
          | AckFun => Returned sv' (Some reply) evs
          | AckNotFun => Uncaught sv' evs
          end
      end
  end.

(** ** Rejected moves *)

(** A room in progress has a board of the right shape: [host:startGame] and
    [host:restartGame] are the only handlers that set [in_progress], and
    they store a board first. *)
Definition room_ok (rm : room) : Prop :=
  r_state rm = InProgress → ∃ bd, r_board rm = Some bd ∧ wf_dims bd.

Definition rooms_ok (sv : server) : Prop :=
  ∀ roomId rm, rooms sv !! roomId = Some rm → room_ok rm.


Lemma getCell_inBounds bd r c :
  wf_dims bd → getCell bd r c ≠ Undefined → inBounds r c = true.
Proof.
  intros [Hlen Hrows] Hget. unfold getCell in Hget.
  destruct (decide (0 ≤ r ∧ 0 ≤ c)%Z) as [[Hr Hc]|]; [|done].
  destruct (bd !! Z.to_nat r) as [row|] eqn:Hrow; [|done].
  destruct (row !! Z.to_nat c) as [x|] eqn:Hx; [|done].
  apply lookup_lt_Some in Hx. pose proof (lookup_lt_Some _ _ _ Hrow) as Hr'.
  rewrite Forall_forall in Hrows.
  rewrite (Hrows row) in Hx by (apply list_elem_of_lookup; eauto).
  apply inBounds_spec. lia.
Qed.

Lemma findPath_no_TypeError bd start goal k :
  inBounds (p_r start) (p_c start) = true →
  findPathLimitedTurns bd start goal k ≠ TypeError.
Proof.
  intros Hin. unfold findPathLimitedTurns. rewrite Hin. cbn [negb].
  by destruct (bfs _ _ _ _ _ _).
Qed.

Lemma tiles_match v1 v2 :
  looseNull v1 || looseNull v2 || negb (bool_decide (v1 = v2)) = false ↔
  ∃ v, v1 = Tile v ∧ v2 = Tile v.
Proof.
  split.
  - intros H. apply orb_false_iff in H as [H Heq]. apply orb_false_iff in H as [H1 H2].
    apply negb_false_iff, bool_decide_eq_true in Heq. subst v2.
    destruct v1 as [|v|]; try done. by exists v.
  - intros (v & -> & ->). simpl. by rewrite bool_decide_eq_true_2.
Qed.

Lemma gameMove_rejections draw sv clientId roomId a b :
  rooms_ok sv →
  gameMove draw sv clientId roomId a b ≠ Throws ∧
  (rooms sv !! roomId = None →
     gameMove draw sv clientId roomId a b = Done sv (AckFail "Room not found") []) ∧
  (∀ rm, rooms sv !! roomId = Some rm → r_state rm ≠ InProgress →
     gameMove draw sv clientId roomId a b = Done sv (AckFail "Game not in progress") []) ∧
  (∀ rm, rooms sv !! roomId = Some rm → r_state rm = InProgress →
     a = None ∨ b = None →
     gameMove draw sv clientId roomId a b = Done sv (AckFail "Invalid coords") []) ∧
  (∀ rm bd pa pb,
     rooms sv !! roomId = Some rm → r_state rm = InProgress → r_board rm = Some bd →
     a = Some pa → b = Some pb →
     (boardCleared bd = true →
        gameMove draw sv clientId roomId a b =
          Done sv (AckFail "Board already cleared") []) ∧
     (boardCleared bd = false →
        (¬ ∃ v, getCell bd (p_r pa) (p_c pa) = Tile v ∧
                getCell bd (p_r pb) (p_c pb) = Tile v) →
        gameMove draw sv clientId roomId a b = Done sv (AckFail "Not matchable") []) ∧
     (boardCleared bd = false →
        (∃ v, getCell bd (p_r pa) (p_c pa) = Tile v ∧
              getCell bd (p_r pb) (p_c pb) = Tile v) →
        findPathLimitedTurns bd pa pb 2 = NoPath →
        gameMove draw sv clientId roomId a b = Done sv (AckFail "No path") [])).
Proof.
  intros Hok. unfold gameMove. split; [|split; [|split; [|split]]].
  - destruct (rooms sv !! roomId) as [rm|] eqn:Hrm; [|done].
    destruct (decide (r_state rm ≠ InProgress)) as [|Hst]; [done|].
    apply dec_stable in Hst.
    destruct a as [pa|], b as [pb|]; try done.
    destruct (Hok _ _ Hrm Hst) as (bd & -> & Hwf).
    destruct (boardCleared bd); [done|]. cbn [negb].
    destruct (looseNull _ || looseNull _ || negb _) eqn:Hm; [done|].
    apply tiles_match in Hm as (v & Hv1 & Hv2).
    pose proof (findPath_no_TypeError bd pa pb 2) as Hne.
    destruct (findPathLimitedTurns bd pa pb 2) as [| |path] eqn:Hp; [|done|].
    + exfalso. apply Hne; [|done]. apply (getCell_inBounds bd); [done|]. by rewrite Hv1.
    + destruct (award _ _ _). by repeat case_match.
  - by intros ->.
  - intros rm -> Hst. by rewrite decide_True.
  - intros rm -> Hst Hab. rewrite decide_False by (by intros ?).
    by destruct Hab as [-> | ->]; [|destruct a].
  - intros rm bd pa pb -> Hst -> -> ->. rewrite decide_False by (by intros ?).
    split; [by intros ->|]. split.
    + intros -> Hno. cbn [negb].
      destruct (looseNull _ || looseNull _ || negb _) eqn:Hm; [done|].
      by apply tiles_match in Hm.
    + intros -> Hv ->. cbn [negb]. by apply tiles_match in Hv as ->.
Qed.


(** A room in progress on [pathBoard], with its host in it. *)
Definition demoRoom : room :=
  Room "alice" {[ "alice" := Player "Alice" 30 true "s1" ]} ∅ InProgress (Some pathBoard) 1.

Definition demoServer : server :=
  Server {[ "ROOM" := demoRoom ]} {[ "alice" := "ROOM" ]} ∅ ∅ 0.



Lemma onGameMove_done draw sv clientId p sv' reply evs :
  moveBody draw sv clientId p = Done sv' reply evs →
  onGameMove draw sv clientId (Some p) AckFun = Returned sv' (Some reply) evs ∧
  onGameMove draw sv clientId (Some p) NoAck = Returned sv' None evs ∧
  onGameMove draw sv clientId (Some p) AckNotFun = Uncaught sv' evs.
Proof. intros Hb. unfold onGameMove. by rewrite Hb. Qed.

Lemma moveBody_returns draw sv clientId p :
  rooms_ok sv → ∃ sv' reply evs, moveBody draw sv clientId p = Done sv' reply evs.
Proof.
  intros Hok. unfold moveBody. destruct (mp_roomId p) as [roomId|]; [|by eexists _, _, _].
  destruct (gameMove_rejections draw sv clientId roomId (mp_a p) (mp_b p) Hok) as [Hno _].
  destruct (gameMove draw sv clientId roomId (mp_a p) (mp_b p)) as [|sv' reply evs]; [done|].
  by exists sv', reply, evs.
Qed.





(** ** The handlers keep [rooms_ok] *)

Lemma rerandomRemaining_dims draw b : wf_dims b → wf_dims (rerandomRemaining draw b).
Proof.
  intros Hwf. unfold rerandomRemaining.
  destruct (collect _ _ _ _) as [[b1 counts1] positions1] eqn:Hc.
  apply (collect_spec b) in Hc as (_ & _ & Hwf1 & _);
    [|apply interiorCells_NoDup|done|apply interiorCells_inBounds|done].
  by apply place_dims.
Qed.

Lemma makeInitialBoard_dims draw : wf_dims (makeInitialBoard draw).
Proof. unfold makeInitialBoard. apply place_dims. apply emptyBoard_dims. Qed.

Lemma rooms_ok_insert (sv sv' : server) (k : string) (rm : room) :
  rooms_ok sv → room_ok rm → rooms sv' = <[k := rm]> (rooms sv) → rooms_ok sv'.
Proof.
  intros Hrs Hrm Heq roomId r. rewrite Heq. destruct (decide (k = roomId)) as [->|Hne].
  - rewrite lookup_insert_eq. by intros [= <-].
  - rewrite lookup_insert_ne by done. apply Hrs.
Qed.

Lemma room_ok_same rm rm' :
  r_state rm' = r_state rm → r_board rm' = r_board rm → room_ok rm → room_ok rm'.
Proof. unfold room_ok. intros -> ->. done. Qed.

Lemma startGame_ok draw sv clientId roomId :
  rooms_ok sv → rooms_ok (startGame draw sv clientId roomId).1.1.
Proof.
  intros Hok. unfold startGame. repeat case_match; try done. simpl.
  eapply rooms_ok_insert; [exact Hok| |reflexivity].
  intros _. eexists. split; [done|]. apply makeInitialBoard_dims.
Qed.

Lemma restartGame_ok draw sv clientId roomId :
  rooms_ok sv → rooms_ok (restartGame draw sv clientId roomId).1.1.
Proof.
  intros Hok. unfold restartGame. repeat case_match; try done. simpl.
  eapply rooms_ok_insert; [exact Hok| |reflexivity].
  intros _. eexists. split; [done|]. apply makeInitialBoard_dims.
Qed.

Lemma endGame_ok sv clientId roomId :
  rooms_ok sv → rooms_ok (endGame sv clientId roomId).1.1.
Proof.
  intros Hok. unfold endGame. repeat case_match; try done. simpl.
  eapply rooms_ok_insert; [exact Hok| |reflexivity]. by intros ?.
Qed.

Lemma setLevel_ok sv clientId roomId level :
  rooms_ok sv → rooms_ok (setLevel sv clientId roomId level).1.1.
Proof.
  intros Hok. unfold setLevel. repeat case_match; try done. simpl.
  eapply rooms_ok_insert; [exact Hok| |reflexivity].
  eapply room_ok_same; [..|by eapply Hok]; done.
Qed.

Lemma gameMove_ok draw sv clientId roomId a b sv' ak evs :
  rooms_ok sv → gameMove draw sv clientId roomId a b = Done sv' ak evs →
  rooms_ok sv'.
Proof.
  intros Hok. unfold gameMove.
  destruct (rooms sv !! roomId) as [rm|] eqn:Hrm; [|by intros [= <- _ _]].
  destruct (decide (r_state rm ≠ InProgress)) as [|Hst]; [by intros [= <- _ _]|].
  apply dec_stable in Hst.
  destruct a as [pa|], b as [pb|]; try by intros [= <- _ _].
  destruct (Hok _ _ Hrm Hst) as (bd & -> & Hwf).
  destruct (boardCleared bd); [by intros [= <- _ _]|]. cbn [negb].
  destruct (looseNull _ || looseNull _ || negb _); [by intros [= <- _ _]|].
  destruct (findPathLimitedTurns bd pa pb 2) as [| |path]; [done|by intros [= <- _ _]|].
  destruct (award _ _ _) as [ps lb].
  destruct (boardCleared _); [|destruct (negb _)]; intros [= <- _ _]; simpl;
    (eapply rooms_ok_insert; [exact Hok| |reflexivity]).
  - by intros ?.
  - intros _. eexists. split; [done|]. by apply rerandomRemaining_dims, applyLevel_dims.
  - intros _. eexists. split; [done|]. by apply applyLevel_dims.
Qed.

Lemma leavePrevious_ok sv clientId roomId :
  rooms_ok sv → rooms_ok (leavePrevious sv clientId roomId).1.
Proof.
  intros Hok. unfold leavePrevious.
  destruct (clientToRoom sv !! clientId) as [prevId|]; [|done].
  destruct (truthy prevId && bool_decide _); [|done].
  destruct (rooms sv !! prevId) as [prev|] eqn:Hprev; [|done].
  destruct (decide (is_Some _)); [|done]. cbn [fst].
  eapply rooms_ok_insert; [exact Hok| |reflexivity].
  eapply room_ok_same; [..|by eapply Hok]; done.
Qed.

Lemma joinRoom_ok sv clientId socketId roomId name :
  rooms_ok sv → rooms_ok (joinRoom sv clientId socketId roomId name).1.1.
Proof.
  intros Hok. unfold joinRoom.
  destruct (rooms sv !! roomId) as [rm|] eqn:Hrm; [|done].
  pose proof (leavePrevious_ok sv clientId roomId Hok) as Hok1.
  destruct (leavePrevious sv clientId roomId) as [sv1 evs1]. cbn [fst] in Hok1.
  destruct (r_players rm !! clientId) as [p|].
  - unfold cancelTimer. cbn [setPlayers r_disconnectTimers].
    destruct (r_disconnectTimers rm !! clientId); cbn [fst];
      (eapply (rooms_ok_insert sv1); [exact Hok1| |reflexivity]);
      (eapply room_ok_same; [..|by eapply Hok]; done).
  - cbn [fst]. eapply (rooms_ok_insert sv1); [exact Hok1| |reflexivity].
    eapply room_ok_same; [..|by eapply Hok]; done.
Qed.

Lemma resume_ok sv clientId socketId :
  rooms_ok sv → rooms_ok (resume sv clientId socketId).1.
Proof.
  intros Hok. unfold resume.
  destruct (clientToRoom sv !! clientId) as [roomId|]; [|done].
  destruct (truthy roomId); [|done].
  destruct (rooms sv !! roomId) as [rm|] eqn:Hrm; [|done].
  destruct (r_players rm !! clientId) as [p|]; [|done].
  unfold cancelTimer. destruct (r_disconnectTimers rm !! clientId); cbn [fst];
    (eapply (rooms_ok_insert sv); [exact Hok| |reflexivity]);
    (eapply room_ok_same; [..|by eapply Hok]; done).
Qed.

Lemma disconnect_ok sv clientId :
  rooms_ok sv → rooms_ok (disconnect sv clientId).1.
Proof.
  intros Hok. unfold disconnect.
  destruct (clientToRoom sv !! clientId) as [roomId|]; [|done].
  destruct (truthy roomId); [|done]. cbn [negb].
  destruct (rooms sv !! roomId) as [rm|] eqn:Hrm; [|done].
  destruct (r_players rm !! clientId) as [p|]; [|done]. cbn [fst].
  eapply (rooms_ok_insert sv); [exact Hok| |reflexivity].
  eapply room_ok_same; [..|by eapply Hok]; done.
Qed.

Lemma timerFire_ok sv h :
  rooms_ok sv → rooms_ok (timerFire sv h).1.
Proof.
  intros Hok. unfold timerFire.
  destruct (timers sv !! h) as [tm|]; [|done]. cbn [rooms setTimers].
  destruct (rooms sv !! tm_roomId tm) as [still|] eqn:Hrm; [|done].
  destruct (r_players still !! tm_clientId tm) as [p|]; [|done].
  destruct (pl_connected p); [done|]. destruct (tm_wasHost tm); cbn [fst].
  - intros roomId rm Hin. cbn [rooms] in Hin.
    apply lookup_delete_Some in Hin as [_ Hin]. by eapply Hok.
  - eapply (rooms_ok_insert sv); [exact Hok| |reflexivity].
    eapply room_ok_same; [..|by eapply Hok]; done.
Qed.

(** ** Accepted moves and the reshuffle *)

(** The deadlock property of the design document, on the state a move
    leaves: after an accepted move that does not clear the board, the board
    of the room has a move, or only two tiles are left on it. *)
Definition noDeadlockAfterMove : Prop :=
  ∀ draw sv clientId roomId a b sv' evs rm' bd',
    rooms_ok sv →
    gameMove draw sv clientId roomId a b = Done sv' AckOk evs →
    rooms sv' !! roomId = Some rm' → r_board rm' = Some bd' →
    boardCleared bd' = false →
    hasAnyMove bd' = true ∨ length (tileValues bd') = 2.

(** Four tiles in a square, equal ones on the diagonals: no two equal tiles
    can be joined. *)
Definition checkerBoard : board :=
  boardOf [(3%Z, 3%Z, 0); (3%Z, 4%Z, 1); (4%Z, 3%Z, 1); (4%Z, 4%Z, 0)].

(** The same with a pair of tiles 2 side by side, the only move. *)
Definition deadlockBoard : board :=
  boardOf [(3%Z, 3%Z, 0); (3%Z, 4%Z, 1); (4%Z, 3%Z, 1); (4%Z, 4%Z, 0);
           (8%Z, 8%Z, 2); (8%Z, 9%Z, 2)].

Definition deadlockRoom : room :=
  Room "alice" {[ "alice" := Player "Alice" 0 true "s1" ]} ∅ InProgress (Some deadlockBoard) 1.

Definition deadlockServer : server :=
  Server {[ "ROOM" := deadlockRoom ]} {[ "alice" := "ROOM" ]} ∅ ∅ 0.

(** The draws [Math.floor(Math.random() * (i + 1))] that put the bag
    [0; 0; 1; 1] back in the order the four tiles had: 1 at index 3, and the
    index itself below. *)
Definition stuckDraw (i : nat) : nat :=
  match i with 3 => 1 | _ => i end.

Definition stuckRoom : room :=
  Room "alice" {[ "alice" := Player "Alice" 10 true "s1" ]} ∅ InProgress (Some checkerBoard) 1.

Definition stuckServer : server :=
  Server {[ "ROOM" := stuckRoom ]} {[ "alice" := "ROOM" ]} {[ "Alice" := 10 ]} ∅ 0.

Definition stuckEvents : list event :=
  [EvMatched "ROOM" (Pos 8 8) (Pos 8 9) [Pos 8 8; Pos 8 8; Pos 8 9] checkerBoard;
   EvShuffled "ROOM" checkerBoard].

Lemma deadlockServer_ok : rooms_ok deadlockServer.
Proof.
  intros roomId rm Hrm. simpl in Hrm. apply lookup_singleton_Some in Hrm as [_ <-].
  intros _. exists deadlockBoard. split; [done|]. by apply wf_dimsb_spec.
Qed.

Lemma deadlock_move :
  gameMove stuckDraw deadlockServer "alice" "ROOM" (Some (Pos 8 8)) (Some (Pos 8 9))
  = Done stuckServer AckOk stuckEvents.
Proof. by vm_compute. Qed.

(** What an accepted move does. *)
Lemma gameMove_accepted draw sv clientId roomId a b sv' evs :
  gameMove draw sv clientId roomId a b = Done sv' AckOk evs →
  ∃ rm bd pa pb path,
    rooms sv !! roomId = Some rm ∧ r_state rm = InProgress ∧ r_board rm = Some bd ∧
    a = Some pa ∧ b = Some pb ∧ findPathLimitedTurns bd pa pb 2 = Path path ∧
    let bd1 := applyLevel bd (if decide (r_level rm = 0) then 1 else r_level rm) pa pb in
    let matched := EvMatched roomId pa pb path bd1 in
    let '(ps, lb) := award rm (globalLeaderboard sv) clientId in
    let put rm' := setLeaderboard (setRooms sv (<[roomId := rm']> (rooms sv))) lb in
    if boardCleared bd1 then
      sv' = put (Room (r_hostId rm) ps (r_disconnectTimers rm) Ended (Some bd1)
                   (r_level rm `mod` 7 + 1)) ∧
      evs = [matched; EvEnded roomId (Some bd1) (r_level rm `mod` 7 + 1)]
    else if hasAnyMove bd1 then
      sv' = put (Room (r_hostId rm) ps (r_disconnectTimers rm) InProgress (Some bd1)
                   (r_level rm)) ∧
      evs = [matched]
    else
      sv' = put (Room (r_hostId rm) ps (r_disconnectTimers rm) InProgress
                   (Some (rerandomRemaining draw bd1)) (r_level rm)) ∧
      evs = [matched; EvShuffled roomId (rerandomRemaining draw bd1)].
Proof.
  unfold gameMove.
  destruct (rooms sv !! roomId) as [rm|] eqn:Hrm; [|done].
  destruct (decide (r_state rm ≠ InProgress)) as [|Hst]; [done|].
  apply dec_stable in Hst.
  destruct a as [pa|], b as [pb|]; try done.
  destruct (r_board rm) as [bd|] eqn:Hbd; [|done].
  destruct (boardCleared bd); [done|]. cbn [negb].
  destruct (looseNull _ || looseNull _ || negb _); [done|].
  destruct (findPathLimitedTurns bd pa pb 2) as [| |path] eqn:Hp; [done|done|].
  intros H. exists rm, bd, pa, pb, path. repeat (split; [done|]). cbv zeta.
  destruct (award _ _ _) as [ps lb].
  destruct (boardCleared _); [|destruct (hasAnyMove _); cbn [negb] in H];
    injection H as <- <-; by rewrite ?Hst.
Qed.

(** C5 as stated fails: the handler reshuffles once and does not look at the
    result.  Removing the pair of tiles 2 from [deadlockBoard] leaves the
    four tiles of [checkerBoard] without a move; with the draws [stuckDraw]
    the reshuffle puts every tile back where it was, and the room is left
    with four tiles and no move. *)
Lemma reshuffle_stays_stuck : ¬ noDeadlockAfterMove.
Proof.
  intros H.
  destruct (H stuckDraw deadlockServer "alice" "ROOM" (Some (Pos 8 8)) (Some (Pos 8 9))
              stuckServer stuckEvents stuckRoom checkerBoard) as [Hm | Hl].
  - apply deadlockServer_ok.
  - apply deadlock_move.
  - done.
  - done.
  - by vm_compute.
  - by vm_compute in Hm.
  - by vm_compute in Hl.
Qed.

(** C5, amended: after an accepted move that does not clear the board the
    room stays in progress at its level; if the board the collapse leaves
    has a move, the room holds that board and only the match is broadcast;
    if it has none, the room holds the board [rerandomRemaining] makes of
    it, reshuffled once and not checked again, and the reshuffle
    notification, broadcast after the match, carries that reshuffled
    board. *)
Theorem gameMove_reshuffles_once draw sv clientId roomId a b sv' evs :
  gameMove draw sv clientId roomId a b = Done sv' AckOk evs →
  ∃ rm bd pa pb path rm',
    rooms sv !! roomId = Some rm ∧ r_board rm = Some bd ∧
    a = Some pa ∧ b = Some pb ∧ findPathLimitedTurns bd pa pb 2 = Path path ∧
    rooms sv' !! roomId = Some rm' ∧
    let bd1 := applyLevel bd (if decide (r_level rm = 0) then 1 else r_level rm) pa pb in
    boardCleared bd1 = false →
    r_state rm' = InProgress ∧ r_level rm' = r_level rm ∧
    if hasAnyMove bd1
    then r_board rm' = Some bd1 ∧ evs = [EvMatched roomId pa pb path bd1]
    else r_board rm' = Some (rerandomRemaining draw bd1) ∧
         evs = [EvMatched roomId pa pb path bd1;
                EvShuffled roomId (rerandomRemaining draw bd1)].
Proof.
  intros (rm & bd & pa & pb & path & Hrm & Hst & Hbd & -> & -> & Hp & H)%gameMove_accepted.
  cbv zeta in H. destruct (award _ _ _) as [ps lb].
  destruct (boardCleared _) eqn:Hc; [|destruct (hasAnyMove _) eqn:Hm];
    destruct H as [-> ->]; eexists rm, bd, pa, pb, path, _;
    (repeat (split; [done|])); (split; [apply lookup_insert_eq|]);
    cbv zeta; rewrite Hc; [done|..]; intros _; by rewrite ?Hm.
Qed.

Lemma gameMove_reshuffles_once_witness :
  ∃ rm', rooms stuckServer !! "ROOM" = Some rm' ∧ r_state rm' = InProgress ∧
    r_board rm' = Some (rerandomRemaining stuckDraw checkerBoard).
Proof.
  destruct (gameMove_reshuffles_once stuckDraw deadlockServer "alice" "ROOM"
              (Some (Pos 8 8)) (Some (Pos 8 9)) stuckServer stuckEvents deadlock_move)
    as (rm & bd & pa & pb & path & rm' & Hrm & Hbd & [= <-] & [= <-] & _ & Hrm' & H).
  unfold deadlockServer in Hrm. cbn [rooms] in Hrm.
  apply lookup_singleton_Some in Hrm as [_ <-]. injection Hbd as <-.
  cbv zeta in H.
  replace (applyLevel deadlockBoard _ _ _) with checkerBoard in H by (by vm_compute).
  replace (hasAnyMove checkerBoard) with false in H by (by vm_compute).
  destruct H as (Hst & _ & Hb & _); [by vm_compute|]. by exists rm'.
Defined.

(** ** Reconnecting *)

(** Leaving the previous room touches neither the room joined nor the
    pending timers, and does nothing for a client the registry already files
    under the room joined. *)
Lemma leavePrevious_rooms sv clientId roomId :
  rooms (leavePrevious sv clientId roomId).1 !! roomId = rooms sv !! roomId.
Proof.
  unfold leavePrevious. destruct (clientToRoom sv !! clientId) as [prevId|]; [|done].
  destruct (truthy prevId); [|done]. cbn [andb]. case_bool_decide as Hne; [|done].
  destruct (rooms sv !! prevId) as [prev|]; [|done].
  destruct (decide (is_Some _)); [|done]. simpl. by rewrite lookup_insert_ne.
Qed.

Lemma leavePrevious_timers sv clientId roomId :
  timers (leavePrevious sv clientId roomId).1 = timers sv.
Proof.
  unfold leavePrevious. destruct (clientToRoom sv !! clientId) as [prevId|]; [|done].
  destruct (truthy prevId && bool_decide _); [|done].
  destruct (rooms sv !! prevId) as [prev|]; [|done]. by destruct (decide (is_Some _)).
Qed.

Lemma leavePrevious_same sv clientId roomId :
  clientToRoom sv !! clientId = Some roomId →
  leavePrevious sv clientId roomId = (sv, []).
Proof.
  intros H. unfold leavePrevious. rewrite H.
  rewrite (bool_decide_eq_false_2 (roomId ≠ roomId)) by (by intros ?).
  by rewrite andb_false_r.
Qed.

(** The room a known identity finds after joining again. *)
Definition rejoined (rm : room) (p : player) (clientId socketId name : string) : room :=
  Room (r_hostId rm) (<[clientId := reconnectPlayer p socketId name]> (r_players rm))
    (delete clientId (r_disconnectTimers rm)) (r_state rm) (r_board rm) (r_level rm).

Lemma joinRoom_known sv clientId socketId roomId name rm p :
  rooms sv !! roomId = Some rm → r_players rm !! clientId = Some p →
  let left := leavePrevious sv clientId roomId in
  joinRoom sv clientId socketId roomId name =
    (Server (<[roomId := rejoined rm p clientId socketId name]> (rooms left.1))
       (<[clientId := roomId]> (clientToRoom left.1))
       (globalLeaderboard left.1)
       (match r_disconnectTimers rm !! clientId with
        | Some h => delete h (timers left.1)
        | None => timers left.1
        end)
       (nextTimer left.1),
     AckRoom roomId (r_hostId rm) (r_state rm) (r_level rm) (payloadBoard rm),
     left.2 ++ [EvPlayerRejoined roomId clientId]).
Proof.
  intros Hrm Hp. cbv zeta. unfold joinRoom. rewrite Hrm, Hp.
  destruct (leavePrevious sv clientId roomId) as [sv1 evs1]. cbn [fst snd].
  unfold cancelTimer, rejoined. cbn [r_disconnectTimers setPlayers].
  destruct (r_disconnectTimers rm !! clientId) as [h|] eqn:Hh; [done|].
  by rewrite (delete_id _ _ Hh).
Qed.

Lemma reconnectPlayer_twice p socketId name :
  reconnectPlayer (reconnectPlayer p socketId name) socketId name
  = reconnectPlayer p socketId name.
Proof. unfold reconnectPlayer. simpl. by destruct (truthy name). Qed.

Lemma rejoined_twice rm p clientId socketId name :
  rejoined (rejoined rm p clientId socketId name) (reconnectPlayer p socketId name)
    clientId socketId name
  = rejoined rm p clientId socketId name.
Proof.
  unfold rejoined. simpl.
  by rewrite reconnectPlayer_twice, insert_insert_eq, delete_delete_eq.
Qed.

(** A second join of a client the room knows, filed under the room, with no
    timer to cancel. *)
Lemma joinRoom_again sv clientId roomId rm p socketId' name' :
  rooms sv !! roomId = Some rm → r_players rm !! clientId = Some p →
  clientToRoom sv !! clientId = Some roomId →
  r_disconnectTimers rm !! clientId = None →
  joinRoom sv clientId socketId' roomId name' =
    (Server (<[roomId := rejoined rm p clientId socketId' name']> (rooms sv))
       (clientToRoom sv) (globalLeaderboard sv) (timers sv) (nextTimer sv),
     AckRoom roomId (r_hostId rm) (r_state rm) (r_level rm) (payloadBoard rm),
     [EvPlayerRejoined roomId clientId]).
Proof.
  intros Hrm Hp Hc Ht. rewrite (joinRoom_known _ _ _ _ _ _ _ Hrm Hp).
  rewrite (leavePrevious_same _ _ _ Hc), Ht. cbn [fst snd app].
  by rewrite (insert_id _ _ _ Hc).
Qed.

(** A room with its host and a player whose socket went away: the player
    is marked disconnected and the grace timer 0 is pending. *)
Definition awayRoom : room :=
  Room "alice"
    {[ "alice" := Player "Alice" 30 true "s1"; "bob" := Player "Bob" 20 false "s2" ]}
    {[ "bob" := 0 ]} InProgress (Some pathBoard) 1.

Definition awayServer : server :=
  Server {[ "ROOM" := awayRoom ]} {[ "alice" := "ROOM"; "bob" := "ROOM" ]} ∅
    {[ 0 := Timer "ROOM" "bob" false ]} 1.

(** C8: when a client the room's player map knows joins the room again,
    the handler answers with the room and broadcasts the rejoin; the timer
    the room had registered for the client is taken off the room and off the
    event loop; the player's entry is marked connected with its score kept,
    the other entries and the number of entries are as before, and the
    registry files the client under the room.  Joining once more with the
    same socket and name returns the same state and acknowledgment, and
    joining once more with any socket and name leaves the score, the
    connection flag, the other entries, the number of entries and the
    pending timers as the first reconnect left them. *)
Theorem joinRoom_reconnect_idempotent sv clientId socketId roomId name rm p :
  rooms sv !! roomId = Some rm → r_players rm !! clientId = Some p →
  ∃ sv1 ak evs rm1 p1,
    joinRoom sv clientId socketId roomId name
      = (sv1, ak, evs ++ [EvPlayerRejoined roomId clientId]) ∧
    rooms sv1 !! roomId = Some rm1 ∧ clientToRoom sv1 !! clientId = Some roomId ∧
    r_disconnectTimers rm1 !! clientId = None ∧
    (∀ h, r_disconnectTimers rm !! clientId = Some h → timers sv1 !! h = None) ∧
    r_players rm1 !! clientId = Some p1 ∧
    pl_connected p1 = true ∧ pl_score p1 = pl_score p ∧
    (∀ other, other ≠ clientId → r_players rm1 !! other = r_players rm !! other) ∧
    size (r_players rm1) = size (r_players rm) ∧
    joinRoom sv1 clientId socketId roomId name
      = (sv1, ak, [EvPlayerRejoined roomId clientId]) ∧
    (∀ socketId' name', ∃ sv2 ak' rm2 p2,
       joinRoom sv1 clientId socketId' roomId name'
         = (sv2, ak', [EvPlayerRejoined roomId clientId]) ∧
       rooms sv2 !! roomId = Some rm2 ∧ clientToRoom sv2 !! clientId = Some roomId ∧
       r_players rm2 !! clientId = Some p2 ∧
       pl_connected p2 = true ∧ pl_score p2 = pl_score p ∧
       (∀ other, other ≠ clientId → r_players rm2 !! other = r_players rm !! other) ∧
       size (r_players rm2) = size (r_players rm) ∧
       timers sv2 = timers sv1).
Proof.
  intros Hrm Hp.
  pose proof (joinRoom_known sv clientId socketId roomId name rm p Hrm Hp) as Hj.
  cbv zeta in Hj.
  destruct (leavePrevious sv clientId roomId) as [sv0 evs0] eqn:Hleft. cbn [fst snd] in Hj.
  set (rm1 := rejoined rm p clientId socketId name) in *.
  set (p1 := reconnectPlayer p socketId name).
  match type of Hj with _ = (?s, _, _) => set (sv1 := s) in * end.
  assert (rooms sv1 !! roomId = Some rm1) as Hrm1 by apply lookup_insert_eq.
  assert (clientToRoom sv1 !! clientId = Some roomId) as Hc1 by apply lookup_insert_eq.
  assert (r_players rm1 !! clientId = Some p1) as Hp1 by apply lookup_insert_eq.
  assert (r_disconnectTimers rm1 !! clientId = None) as Ht1 by apply lookup_delete_eq.
  assert (size (r_players rm1) = size (r_players rm)) as Hsize.
  { apply map_size_insert_Some. eauto. }
  exists sv1, (AckRoom roomId (r_hostId rm) (r_state rm) (r_level rm) (payloadBoard rm)),
    evs0, rm1, p1.
  split; [done|]. split; [done|]. split; [done|]. split; [done|]. split.
  { intros h Hh. subst sv1. cbn [timers]. rewrite Hh. apply lookup_delete_eq. }
  split; [done|]. split; [done|]. split; [done|]. split.
  { intros other Hne. apply lookup_insert_ne. done. }
  split; [done|]. split.
  - rewrite (joinRoom_again sv1 clientId roomId rm1 p1 socketId name Hrm1 Hp1 Hc1 Ht1).
    subst rm1 p1. rewrite rejoined_twice. rewrite (insert_id _ _ _ Hrm1). done.
  - intros socketId' name'.
    rewrite (joinRoom_again sv1 clientId roomId rm1 p1 socketId' name' Hrm1 Hp1 Hc1 Ht1).
    eexists _, _, _, _. split; [done|]. split; [apply lookup_insert_eq|].
    split; [done|]. split; [apply lookup_insert_eq|]. split; [done|]. split; [done|].
    split.
    + intros other Hne. cbn [rejoined r_players]. rewrite lookup_insert_ne by done.
      by apply lookup_insert_ne.
    + split; [|done]. cbn [rejoined r_players].
      rewrite map_size_insert_Some by eauto. done.
Qed.

Lemma joinRoom_reconnect_idempotent_witness :
  ∃ sv1 ak,
    joinRoom sv1 "bob" "s3" "ROOM" "" = (sv1, ak, [EvPlayerRejoined "ROOM" "bob"]) ∧
    timers sv1 !! 0 = None.
Proof.
  destruct (joinRoom_reconnect_idempotent awayServer "bob" "s3" "ROOM" "" awayRoom
              (Player "Bob" 20 false "s2") eq_refl eq_refl)
    as (sv1 & ak & evs & rm1 & p1 & _ & _ & _ & _ & Ht & _ & _ & _ & _ & _ & Hi & _).
  exists sv1, ak. split; [done|]. by apply Ht.
Defined.

(** ** The grace timer *)

(** The check the callback makes when the timer fires: the room is there,
    the player is in it, and is marked disconnected. *)
Definition stillDisconnected (sv : server) (tm : timer) : Prop :=
  ∃ rm p, rooms sv !! tm_roomId tm = Some rm ∧
          r_players rm !! tm_clientId tm = Some p ∧ pl_connected p = false.

Lemma timerFire_skips sv h tm :
  timers sv !! h = Some tm → ¬ stillDisconnected sv tm →
  timerFire sv h = (setTimers sv (delete h (timers sv)), []).
Proof.
  intros Hh Hno. unfold timerFire. rewrite Hh. cbn [rooms setTimers].
  destruct (rooms sv !! tm_roomId tm) as [still|] eqn:Hrm; [|done].
  destruct (r_players still !! tm_clientId tm) as [p|] eqn:Hp; [|done].
  destruct (pl_connected p) eqn:Hc; [done|]. exfalso. apply Hno. by exists still, p.
Qed.

Lemma timerFire_connected sv h tm rm p :
  timers sv !! h = Some tm → rooms sv !! tm_roomId tm = Some rm →
  r_players rm !! tm_clientId tm = Some p → pl_connected p = true →
  timerFire sv h = (setTimers sv (delete h (timers sv)), []).
Proof.
  intros Hh Hrm Hp Hc. apply (timerFire_skips sv h tm); [done|].
  intros (rm' & p' & Hrm' & Hp' & Hc'). congruence.
Qed.

Lemma forgetMembers_member (m : gmap string string) (ps : gmap string player) k :
  is_Some (ps !! k) → forgetMembers m ps !! k = None.
Proof.
  intros [p Hp]. unfold forgetMembers. apply map_lookup_filter_None. right.
  intros x _. simpl. by rewrite Hp.
Qed.

Lemma forgetMembers_other (m : gmap string string) (ps : gmap string player) k :
  ps !! k = None → forgetMembers m ps !! k = m !! k.
Proof.
  intros Hp. unfold forgetMembers. destruct (m !! k) as [x|] eqn:Hk.
  - by apply map_lookup_filter_Some.
  - apply map_lookup_filter_None. by left.
Qed.

Lemma timerFire_finalizes sv h tm rm p :
  timers sv !! h = Some tm → rooms sv !! tm_roomId tm = Some rm →
  r_players rm !! tm_clientId tm = Some p → pl_connected p = false →
  ∃ sv' evs,
    timerFire sv h = (sv', evs) ∧ clientToRoom sv' !! tm_clientId tm = None ∧
    if tm_wasHost tm then
      evs = [EvRoomClosed (tm_roomId tm)] ∧
      rooms sv' = delete (tm_roomId tm) (rooms sv) ∧
      (∀ member, is_Some (r_players rm !! member) → clientToRoom sv' !! member = None) ∧
      (∀ other, r_players rm !! other = None →
         clientToRoom sv' !! other = clientToRoom sv !! other)
    else
      evs = [EvPlayerLeft (tm_roomId tm) (tm_clientId tm)] ∧
      rooms sv' = <[tm_roomId tm := setPlayers rm (delete (tm_clientId tm) (r_players rm))]>
                    (rooms sv) ∧
      clientToRoom sv' = delete (tm_clientId tm) (clientToRoom sv).
Proof.
  intros Hh Hrm Hp Hc. unfold timerFire. rewrite Hh. cbn [rooms setTimers].
  rewrite Hrm, Hp, Hc. destruct (tm_wasHost tm).
  - eexists _, _. split; [done|]. cbn [clientToRoom rooms setPlayers r_players].
    assert (∀ member, is_Some (r_players rm !! member) →
              forgetMembers (delete (tm_clientId tm) (clientToRoom sv))
                (delete (tm_clientId tm) (r_players rm)) !! member = None) as Hall.
    { intros member Hm. destruct (decide (member = tm_clientId tm)) as [->|Hne].
      - rewrite forgetMembers_other by apply lookup_delete_eq. apply lookup_delete_eq.
      - apply forgetMembers_member. by rewrite lookup_delete_ne. }
    split; [apply Hall; eauto|]. split; [done|]. split; [done|]. split; [done|].
    intros other Hother. rewrite forgetMembers_other.
    + apply lookup_delete_ne. intros <-. congruence.
    + destruct (decide (tm_clientId tm = other)) as [<-|Hne];
        [apply lookup_delete_eq|by rewrite lookup_delete_ne].
  - eexists _, _. split; [done|]. cbn [clientToRoom rooms].
    split; [apply lookup_delete_eq|done].
Qed.

(** The timer [disconnect] arms. *)
Lemma disconnect_arms sv clientId roomId rm p :
  clientToRoom sv !! clientId = Some roomId → truthy roomId = true →
  rooms sv !! roomId = Some rm → r_players rm !! clientId = Some p →
  ∃ sv' rm',
    disconnect sv clientId = (sv', [EvPlayerDisconnected roomId clientId]) ∧
    timers sv' = <[nextTimer sv := Timer roomId clientId (bool_decide (r_hostId rm = clientId))]>
                   (timers sv) ∧
    rooms sv' !! roomId = Some rm' ∧
    r_disconnectTimers rm' !! clientId = Some (nextTimer sv) ∧
    r_players rm' !! clientId
      = Some (Player (pl_name p) (pl_score p) false (pl_socketId p)).
Proof.
  intros Hc Ht Hrm Hp. unfold disconnect. rewrite Hc, Ht, Hrm, Hp. cbn [negb].
  eexists _, _. split; [done|]. cbn [timers rooms]. split; [done|].
  split; [apply lookup_insert_eq|]. cbn [setDisconnectTimers setPlayers r_disconnectTimers r_players].
  split; apply lookup_insert_eq.
Qed.

(** The automatic resume of a known identity. *)
Lemma resume_known sv clientId socketId roomId rm p :
  clientToRoom sv !! clientId = Some roomId → truthy roomId = true →
  rooms sv !! roomId = Some rm → r_players rm !! clientId = Some p →
  resume sv clientId socketId =
    (Server (<[roomId := rejoined rm p clientId socketId EmptyString]> (rooms sv))
       (clientToRoom sv) (globalLeaderboard sv)
       (match r_disconnectTimers rm !! clientId with
        | Some h => delete h (timers sv)
        | None => timers sv
        end)
       (nextTimer sv),
     [EvPlayerRejoined roomId clientId]).
Proof.
  intros Hc Ht Hrm Hp. unfold resume. rewrite Hc, Ht, Hrm, Hp.
  unfold cancelTimer, rejoined.
  destruct (r_disconnectTimers rm !! clientId) as [h|] eqn:Hh; [done|].
  by rewrite (delete_id _ _ Hh).
Qed.

(** After a known identity joined again, the timer its room had registered
    is off the event loop, and a timer for the player that is still pending
    finds the player connected. *)
Lemma joinRoom_then_fire sv clientId socketId roomId name rm p sv1 ak evs :
  rooms sv !! roomId = Some rm → r_players rm !! clientId = Some p →
  joinRoom sv clientId socketId roomId name = (sv1, ak, evs) →
  (∀ h, r_disconnectTimers rm !! clientId = Some h → timers sv1 !! h = None) ∧
  (∀ h tm, timers sv1 !! h = Some tm → tm_roomId tm = roomId → tm_clientId tm = clientId →
     timerFire sv1 h = (setTimers sv1 (delete h (timers sv1)), [])).
Proof.
  intros Hrm Hp. rewrite (joinRoom_known _ _ _ _ _ _ _ Hrm Hp). cbv zeta.
  intros [= <- _ _]. split.
  - intros h Hh. cbn [timers]. rewrite Hh. apply lookup_delete_eq.
  - intros h tm Hh Hr Hc.
    apply (timerFire_connected _ h tm (rejoined rm p clientId socketId name)
             (reconnectPlayer p socketId name)); [done|..|done].
    + rewrite Hr. apply lookup_insert_eq.
    + rewrite Hc. apply lookup_insert_eq.
Qed.

Lemma resume_then_fire sv clientId socketId roomId rm p sv1 evs :
  clientToRoom sv !! clientId = Some roomId → truthy roomId = true →
  rooms sv !! roomId = Some rm → r_players rm !! clientId = Some p →
  resume sv clientId socketId = (sv1, evs) →
  (∀ h, r_disconnectTimers rm !! clientId = Some h → timers sv1 !! h = None) ∧
  (∀ h tm, timers sv1 !! h = Some tm → tm_roomId tm = roomId → tm_clientId tm = clientId →
     timerFire sv1 h = (setTimers sv1 (delete h (timers sv1)), [])).
Proof.
  intros Hc Ht Hrm Hp. rewrite (resume_known _ _ _ _ _ _ Hc Ht Hrm Hp).
  intros [= <- _]. split.
  - intros h Hh. cbn [timers]. rewrite Hh. apply lookup_delete_eq.
  - intros h tm Hh Hr Hcl.
    apply (timerFire_connected _ h tm (rejoined rm p clientId socketId EmptyString)
             (reconnectPlayer p socketId EmptyString)); [done|..|done].
    + rewrite Hr. apply lookup_insert_eq.
    + rewrite Hcl. apply lookup_insert_eq.
Qed.

(** A second timer for the same player, which the room does not know. *)
Definition staleServer : server :=
  Server {[ "ROOM" := awayRoom ]} {[ "alice" := "ROOM"; "bob" := "ROOM" ]} ∅
    {[ 0 := Timer "ROOM" "bob" false; 5 := Timer "ROOM" "bob" false ]} 6.

Example timer_removes_absent :
  timerFire awayServer 0
  = (Server {[ "ROOM" := setPlayers awayRoom {[ "alice" := Player "Alice" 30 true "s1" ]} ]}
       {[ "alice" := "ROOM" ]} ∅ ∅ 1,
     [EvPlayerLeft "ROOM" "bob"]).
Proof. by vm_compute. Qed.

Example timer_after_resume :
  let sv1 := (resume staleServer "bob" "s3").1 in
  timers sv1 !! 0 = None ∧
  timerFire sv1 5 = (setTimers sv1 ∅, []).
Proof. by vm_compute. Qed.

(** X28: when a grace timer fires, the callback changes nothing but the
    list of pending timers and broadcasts nothing unless the room is still
    there, the player still in it and still marked disconnected; in
    particular right after the player joined again or was resumed, the timer
    the room had registered is cancelled, and any timer for the player that
    still fires finds the player connected and does nothing.  When the three
    conditions hold the player is removed and no longer filed under the
    room; if the timer was armed for the host ([disconnect] records whether
    the player is the host), the room is broadcast as closed and deleted,
    and no member of the room is filed under any room; otherwise the
    leaving is broadcast and the room stays. *)
Theorem timerFire_guard :
  (∀ sv h tm, timers sv !! h = Some tm → ¬ stillDisconnected sv tm →
     timerFire sv h = (setTimers sv (delete h (timers sv)), [])) ∧
  (∀ sv clientId socketId roomId name rm p sv1 ak evs,
     rooms sv !! roomId = Some rm → r_players rm !! clientId = Some p →
     joinRoom sv clientId socketId roomId name = (sv1, ak, evs) →
     (∀ h, r_disconnectTimers rm !! clientId = Some h → timers sv1 !! h = None) ∧
     (∀ h tm, timers sv1 !! h = Some tm →
        tm_roomId tm = roomId → tm_clientId tm = clientId →
        timerFire sv1 h = (setTimers sv1 (delete h (timers sv1)), []))) ∧
  (∀ sv clientId socketId roomId rm p sv1 evs,
     clientToRoom sv !! clientId = Some roomId → truthy roomId = true →
     rooms sv !! roomId = Some rm → r_players rm !! clientId = Some p →
     resume sv clientId socketId = (sv1, evs) →
     (∀ h, r_disconnectTimers rm !! clientId = Some h → timers sv1 !! h = None) ∧
     (∀ h tm, timers sv1 !! h = Some tm →
        tm_roomId tm = roomId → tm_clientId tm = clientId →
        timerFire sv1 h = (setTimers sv1 (delete h (timers sv1)), []))) ∧
  (∀ sv h tm rm p,
     timers sv !! h = Some tm → rooms sv !! tm_roomId tm = Some rm →
     r_players rm !! tm_clientId tm = Some p → pl_connected p = false →
     ∃ sv' evs,
       timerFire sv h = (sv', evs) ∧ clientToRoom sv' !! tm_clientId tm = None ∧
       if tm_wasHost tm then
         evs = [EvRoomClosed (tm_roomId tm)] ∧
         rooms sv' = delete (tm_roomId tm) (rooms sv) ∧
         (∀ member, is_Some (r_players rm !! member) →
            clientToRoom sv' !! member = None) ∧
         (∀ other, r_players rm !! other = None →
            clientToRoom sv' !! other = clientToRoom sv !! other)
       else
         evs = [EvPlayerLeft (tm_roomId tm) (tm_clientId tm)] ∧
         rooms sv' = <[tm_roomId tm :=
                         setPlayers rm (delete (tm_clientId tm) (r_players rm))]>
                       (rooms sv) ∧
         clientToRoom sv' = delete (tm_clientId tm) (clientToRoom sv)) ∧
  (∀ sv clientId roomId rm p,
     clientToRoom sv !! clientId = Some roomId → truthy roomId = true →
     rooms sv !! roomId = Some rm → r_players rm !! clientId = Some p →
     ∃ sv' rm',
       disconnect sv clientId = (sv', [EvPlayerDisconnected roomId clientId]) ∧
       timers sv' = <[nextTimer sv :=
                        Timer roomId clientId (bool_decide (r_hostId rm = clientId))]>
                      (timers sv) ∧
       rooms sv' !! roomId = Some rm' ∧
       r_disconnectTimers rm' !! clientId = Some (nextTimer sv) ∧
       r_players rm' !! clientId
         = Some (Player (pl_name p) (pl_score p) false (pl_socketId p))).
Proof.
  split; [exact timerFire_skips|]. split; [exact joinRoom_then_fire|].
  split; [exact resume_then_fire|]. split; [exact timerFire_finalizes|].
  exact disconnect_arms.
Qed.

(** * Further properties of the board logic

    The rest of this file goes beyond the sentences of the design document:
    what the functions of [game-logic.js] and the handlers of [server-io.js]
    do on their edge cases, and what they keep. *)

(** ** The path finder: results, allowance, direction *)

Lemma routeOk_last_inBounds b goal p ds :
  ds ≠ [] → routeOk b goal p ds = true →
  inBounds (p_r (routeEnd p ds)) (p_c (routeEnd p ds)) = true.
Proof.
  revert p. induction ds as [|d ds IH]; intros p Hne Hok; [done|].
  simpl in Hok. apply andb_true_iff in Hok as [Hok Hrest].
  apply andb_true_iff in Hok as [_ Hpass].
  destruct ds as [|d' ds]; [by apply canPass_inBounds in Hpass|].
  by apply (IH (pstep p d)).
Qed.

Lemma legalRoute_goal_inBounds b start goal ds :
  legalRoute b start goal ds → inBounds (p_r goal) (p_c goal) = true.
Proof.
  intros (Hne & _ & Hok & Hend). rewrite <-Hend. by eapply routeOk_last_inBounds.
Qed.

(** X2: the corner list a call returns goes from [start] to [goal], both on the
    grid, and has at least two points. *)
Theorem findPath_endpoints b start goal maxTurns pts :
  findPathLimitedTurns b start goal maxTurns = Path pts →
  head pts = Some start ∧ last pts = Some goal ∧ 2 ≤ length pts ∧
  inBounds (p_r start) (p_c start) = true ∧ inBounds (p_r goal) (p_c goal) = true.
Proof.
  intros Hpts.
  pose proof (findPath_path _ _ _ _ _ Hpts) as (_ & _ & (ds0 & Hds0 & _) & _).
  apply findPath_endNode in Hpts as (Hin & e & (Hwf & Hpar & Hgoal & _) & ->).
  destruct Hwf as [ds He].
  destruct (corners_spec _ _ _ _ _ _ He Hpar) as (Hlast & _).
  rewrite reverse_revPoints. split; [done|]. rewrite Hlast, Hgoal. split; [done|].
  split; [|split; [done|by eapply legalRoute_goal_inBounds]].
  unfold cornersBack. rewrite reverse_cons. simpl. rewrite length_app. simpl. lia.
Qed.

Lemma findPath_endpoints_witness :
  head [Pos 1 1; Pos 0 1; Pos 0 3; Pos 1 3] = Some (Pos 1 1) ∧
  last [Pos 1 1; Pos 0 1; Pos 0 3; Pos 1 3] = Some (Pos 1 3).
Proof.
  destruct (findPath_endpoints pathBoard (Pos 1 1) (Pos 1 3) 2 _ findPath_around)
    as (Hh & Hl & _).
  by split.
Defined.

(** X4: when a call gives no path, on a board of [ROWS] rows of [COLS] cells
    (every row the search reads exists): it throws exactly when [start] is
    off the grid (the seeds index [visited[start.r][start.c]]); with [start]
    on the grid it returns [null] for a goal off the grid and for
    [goal = start]. *)
Theorem findPath_no_result b start goal maxTurns :
  wf_dims b →
  (findPathLimitedTurns b start goal maxTurns = TypeError ↔
   inBounds (p_r start) (p_c start) = false) ∧
  (inBounds (p_r start) (p_c start) = true →
   inBounds (p_r goal) (p_c goal) = false ∨ goal = start →
   findPathLimitedTurns b start goal maxTurns = NoPath).
Proof.
  intros _. split.
  - split.
    + intros H. destruct (inBounds _ _) eqn:Hin; [|done].
      by apply (findPath_no_TypeError b start goal maxTurns) in Hin.
    + intros Hin. unfold findPathLimitedTurns. by rewrite Hin.
  - intros Hin Hbad.
    pose proof (findPath_no_TypeError b start goal maxTurns Hin) as Hne.
    destruct (findPathLimitedTurns b start goal maxTurns) as [| |pts] eqn:Hp; [done|done|].
    exfalso. destruct Hbad as [Hg | ->].
    + apply findPath_path in Hp as (_ & _ & (ds & Hds & _) & _).
      apply legalRoute_goal_inBounds in Hds. congruence.
    + by apply findPath_path in Hp as [Hsg _].
Qed.

Lemma findPath_no_result_witness :
  findPathLimitedTurns pathBoard (Pos 11 1) (Pos 1 1) 2 = TypeError ∧
  findPathLimitedTurns pathBoard (Pos 1 1) (Pos 1 18) 2 = NoPath.
Proof.
  destruct (findPath_no_result pathBoard (Pos 11 1) (Pos 1 1) 2) as [Hthrow _];
    [by apply wf_dimsb_spec|].
  destruct (findPath_no_result pathBoard (Pos 1 1) (Pos 1 18) 2) as [_ Hnull];
    [by apply wf_dimsb_spec|].
  split; [by apply Hthrow|apply Hnull; [done|by left]].
Defined.

(** The equivalence of the first claim at every allowance. *)
Lemma findPath_iff_route b start goal k :
  start ≠ goal →
  findsPath b start goal k ↔ connectable b start goal k.
Proof.
  intros Hsg. split.
  - intros [pts Hpts]. apply findPath_path in Hpts as (_ & _ & (ds & Hds & Ht) & _ & Hle & _).
    exists ds. split; [done|lia].
  - intros (ds & Hds & Ht). by eapply findPath_finds.
Qed.

(** X1: when a call returns a path, at any allowance: exactly when [goal] is
    another cell than [start] and a legal connection with at most
    [maxTurns] turns exists; and the number of turns of the path returned
    does not depend on the allowance. *)
Theorem findPath_characterised b start goal maxTurns :
  (findsPath b start goal maxTurns ↔
   start ≠ goal ∧ connectable b start goal maxTurns) ∧
  (∀ k pts pts', findPathLimitedTurns b start goal maxTurns = Path pts →
                 findPathLimitedTurns b start goal k = Path pts' →
                 pathTurns pts = pathTurns pts').
Proof.
  split.
  - split.
    + intros Hf. assert (start ≠ goal) as Hsg.
      { destruct Hf as [pts Hpts]. by apply findPath_path in Hpts as [? _]. }
      split; [done|]. by apply findPath_iff_route.
    + intros [Hsg Hc]. by apply findPath_iff_route.
  - intros k pts pts' Hp Hp'.
    apply findPath_path in Hp as (_ & _ & (ds & Hds & Ht) & Hmin & _).
    apply findPath_path in Hp' as (_ & _ & (ds' & Hds' & Ht') & Hmin' & _).
    specialize (Hmin ds' Hds'). specialize (Hmin' ds Hds). lia.
Qed.

Lemma canPass_mono b b' goal r c :
  (∀ r c, inBounds r c = true → getCell b r c = Null → getCell b' r c = Null) →
  canPass b goal r c = true → canPass b' goal r c = true.
Proof.
  intros Hsub. unfold canPass. destruct (inBounds r c) eqn:Hin; [|done]. cbn [negb].
  destruct ((r =? p_r goal)%Z && (c =? p_c goal)%Z); [done|].
  unfold isNull. destruct (getCell b r c) eqn:Hget; try done. intros _.
  by rewrite (Hsub _ _ Hin Hget).
Qed.

Lemma routeOk_mono b b' goal p ds :
  (∀ r c, inBounds r c = true → getCell b r c = Null → getCell b' r c = Null) →
  routeOk b goal p ds = true → routeOk b' goal p ds = true.
Proof.
  intros Hsub. revert p. induction ds as [|d ds IH]; intros p; [done|]. simpl.
  rewrite !andb_true_iff. intros [[Hd Hpass] Hrest].
  split; [split; [done|by eapply canPass_mono]|by apply IH].
Qed.

(** X5: a path found is still found with more turns allowed and with more
    cells empty. *)
Theorem findPath_monotone b b' start goal k k' :
  findsPath b start goal k → k ≤ k' →
  (∀ r c, inBounds r c = true → getCell b r c = Null → getCell b' r c = Null) →
  findsPath b' start goal k'.
Proof.
  intros [pts Hpts] Hk Hsub.
  apply findPath_path in Hpts as (Hsg & _ & (ds & Hds & Ht) & _ & Hle & _).
  apply findPath_iff_route; [done|]. exists ds. split; [|lia].
  destruct Hds as (Hne & Hin & Hok & Hend).
  split; [done|]. split; [done|]. split; [by eapply routeOk_mono|done].
Qed.

Lemma findPath_monotone_witness : findsPath loneBoard (Pos 1 1) (Pos 1 3) 3.
Proof.
  apply (findPath_monotone pathBoard loneBoard (Pos 1 1) (Pos 1 3) 2 3).
  - eexists. apply findPath_around.
  - lia.
  - intros r c Hin Hnull.
    destruct (decide (Pos r c = Pos 1 1)) as [[= -> ->]|Hne]; [by vm_compute in Hnull|].
    unfold loneBoard, boardOf. simpl. rewrite getCell_setCell_ne.
    + by apply emptyBoard_get.
    + destruct (decide (r = 1%Z)) as [->|]; [|by left].
      destruct (decide (c = 1%Z)) as [->|]; [done|by right].
Defined.

(** *** A connection walked backwards *)

(** The opposite of a direction of [dirs]. *)
Definition opp (d : nat) : nat :=
  match d with 0 => 1 | 1 => 0 | 2 => 3 | 3 => 2 | _ => d end.

Definition revRoute (ds : list nat) : list nat := opp <$> reverse ds.

(** A connection cut at its first visit of the goal. *)
Fixpoint cutAt (goal p : pos) (ds : list nat) : list nat :=
  match ds with
  | [] => []
  | d :: rest =>
      if decide (pstep p d = goal) then [d] else d :: cutAt goal (pstep p d) rest
  end.

(** Every cell entered before the last step is on the grid and empty. *)
Fixpoint clearRoute (b : board) (p : pos) (ds : list nat) : Prop :=
  match ds with
  | [] => True
  | d :: rest =>
      d < 4 ∧
      match rest with
      | [] => True
      | _ => inBounds (p_r (pstep p d)) (p_c (pstep p d)) = true ∧
             getCell b (p_r (pstep p d)) (p_c (pstep p d)) = Null ∧
             clearRoute b (pstep p d) rest
      end
  end.

Lemma opp_opp d : opp (opp d) = d.
Proof. by destruct d as [|[|[|[|d]]]]. Qed.

Lemma opp_lt d : d < 4 → opp d < 4.
Proof. destruct d as [|[|[|[|d]]]]; simpl; lia. Qed.

Lemma pstep_opp p d : d < 4 → pstep (pstep p d) (opp d) = p.
Proof.
  intros Hd. destruct p as [r c]. unfold pstep. simpl.
  destruct d as [|[|[|[|d]]]]; [..|lia]; unfold dr, dc; simpl; f_equal; lia.
Qed.

Lemma routeTurns_cons_le d ds : routeTurns ds ≤ routeTurns (d :: ds).
Proof. destruct ds; simpl; lia. Qed.

Lemma routeTurns_opp ds : routeTurns (opp <$> ds) = routeTurns ds.
Proof.
  induction ds as [|d1 [|d2 ds] IH]; [done..|].
  change (routeTurns (opp <$> d1 :: d2 :: ds)) with
    ((if decide (opp d1 = opp d2) then 0 else 1) + routeTurns (opp <$> d2 :: ds)).
  rewrite IH. change (routeTurns (d1 :: d2 :: ds)) with
    ((if decide (d1 = d2) then 0 else 1) + routeTurns (d2 :: ds)).
  destruct (decide (d1 = d2)) as [->|Hne]; [by rewrite decide_True|].
  rewrite decide_False; [done|]. intros Heq. apply Hne.
  by rewrite <-(opp_opp d1), <-(opp_opp d2), Heq.
Qed.

Lemma routeTurns_reverse ds : routeTurns (reverse ds) = routeTurns ds.
Proof.
  induction ds as [|d1 [|d2 ds] IH]; [done..|].
  rewrite reverse_cons.
  assert (last (reverse (d2 :: ds)) = Some d2) as Hlast.
  { rewrite reverse_cons. apply last_snoc. }
  rewrite (routeTurns_snoc _ _ _ Hlast), IH.
  change (routeTurns (d1 :: d2 :: ds)) with
    ((if decide (d1 = d2) then 0 else 1) + routeTurns (d2 :: ds)).
  destruct (decide (d2 = d1)) as [->|Hne]; [rewrite decide_True by done; lia|].
  rewrite decide_False by done. lia.
Qed.

Lemma revRoute_turns ds : routeTurns (revRoute ds) = routeTurns ds.
Proof. unfold revRoute. by rewrite routeTurns_opp, routeTurns_reverse. Qed.

Lemma cutAt_head goal p d ds : head (cutAt goal p (d :: ds)) = Some d.
Proof. simpl. by destruct (decide _). Qed.

Lemma cutAt_spec b goal p ds :
  ds ≠ [] → routeOk b goal p ds = true → routeEnd p ds = goal →
  cutAt goal p ds ≠ [] ∧ clearRoute b p (cutAt goal p ds) ∧
  routeEnd p (cutAt goal p ds) = goal ∧
  routeTurns (cutAt goal p ds) ≤ routeTurns ds.
Proof.
  revert p. induction ds as [|d ds IH]; intros p Hne Hok Hend; [done|].
  simpl in Hok. apply andb_true_iff in Hok as [Hok Hrest].
  apply andb_true_iff in Hok as [Hd%bool_decide_eq_true Hpass].
  destruct ds as [|d' ds].
  { simpl in *. rewrite decide_True by done. split; [done|]. split; [done|]. split; [done|]. simpl. lia. }
  pose proof (cutAt_head goal (pstep p d) d' ds) as Hhead.
  change (routeTurns (d :: d' :: ds)) with
    ((if decide (d = d') then 0 else 1) + routeTurns (d' :: ds)).
  remember (d' :: ds) as rest eqn:Hr.
  change (cutAt goal p (d :: rest)) with
    (if decide (pstep p d = goal) then [d] else d :: cutAt goal (pstep p d) rest).
  destruct (decide (pstep p d = goal)) as [Hg|Hg].
  { split; [done|]. split; [done|]. split; [done|]. simpl. lia. }
  destruct (IH (pstep p d)) as (Hne' & Hclear & Hend' & Hturns); [by subst rest|done..|].
  destruct (cutAt goal (pstep p d) rest) as [|x l] eqn:Hcut; [done|].
  injection Hhead as ->.
  split; [done|]. split; [|split; [done|]].
  - split; [done|]. split; [by eapply canPass_inBounds|]. split; [|done].
    unfold canPass in Hpass. destruct (inBounds _ _); [|done]. cbn [negb] in Hpass.
    destruct ((_ =? _)%Z && (_ =? _)%Z) eqn:Heq.
    + exfalso. apply Hg. apply andb_true_iff in Heq as [H1%Z.eqb_eq H2%Z.eqb_eq].
      destruct goal. simpl in *. unfold pstep. by f_equal.
    + unfold isNull in Hpass. by destruct (getCell b _ _).
  - change (routeTurns (d :: d' :: l)) with
      ((if decide (d = d') then 0 else 1) + routeTurns (d' :: l)).
    lia.
Qed.

Lemma routeOk_one b t p d :
  routeOk b t p [d] = bool_decide (d < 4) && canPass b t (p_r (pstep p d)) (p_c (pstep p d)).
Proof. simpl. by rewrite andb_true_r. Qed.

Lemma revRoute_ok b target p q ds :
  clearRoute b p ds → routeEnd p ds = q →
  inBounds (p_r p) (p_c p) = true →
  p = target ∨ getCell b (p_r p) (p_c p) = Null →
  routeOk b target q (revRoute ds) = true ∧ routeEnd q (revRoute ds) = p.
Proof.
  revert p. induction ds as [|d ds IH]; intros p Hclear Hend Hin Hp.
  - simpl in Hend. by subst q.
  - destruct Hclear as [Hd Hclear].
    assert (canPass b target (p_r p) (p_c p) = true) as Hpass.
    { unfold canPass. rewrite Hin. cbn [negb]. destruct Hp as [<- | Hnull].
      - by rewrite !Z.eqb_refl.
      - rewrite Hnull. by destruct (_ && _). }
    assert (revRoute (d :: ds) = revRoute ds ++ [opp d]) as ->.
    { unfold revRoute. by rewrite reverse_cons, fmap_app. }
    rewrite routeOk_app, routeEnd_app, routeOk_one.
    change (routeEnd ?x [opp d]) with (pstep x (opp d)).
    rewrite (bool_decide_eq_true_2 _ (opp_lt _ Hd)). cbn [andb].
    destruct ds as [|d' ds].
    + simpl in Hend. subst q. change (revRoute []) with (@nil nat).
      change (routeEnd (pstep p d) []) with (pstep p d).
      by rewrite (pstep_opp _ _ Hd), Hpass.
    + destruct Hclear as (Hin' & Hnull' & Hclear').
      destruct (IH (pstep p d)) as [Hok Hend']; [done|done|done|by right|].
      by rewrite Hok, Hend', (pstep_opp _ _ Hd), Hpass.
Qed.

Lemma connectable_sym b start goal k :
  start ≠ goal → connectable b start goal k → connectable b goal start k.
Proof.
  intros Hsg (ds & Hds & Ht).
  pose proof (legalRoute_goal_inBounds _ _ _ _ Hds) as Hgin.
  destruct Hds as (Hne & Hin & Hok & Hend).
  destruct (cutAt_spec b goal start ds Hne Hok Hend) as (Hne' & Hclear & Hend' & Hturns).
  destruct (revRoute_ok b start start goal _ Hclear Hend' Hin) as [Hrok Hrend]; [by left|].
  exists (revRoute (cutAt goal start ds)). split; [|rewrite revRoute_turns; lia].
  split; [|done]. unfold revRoute. intros Hnil%fmap_nil_inv.
  apply (f_equal reverse) in Hnil. rewrite reverse_involutive in Hnil. done.
Qed.

Lemma findsPath_sym b s g k : findsPath b s g k → findsPath b g s k.
Proof.
  intros [pts Hpts]. pose proof (findPath_path _ _ _ _ _ Hpts) as [Hsg _].
  apply findPath_iff_route; [done|]. apply connectable_sym; [done|].
  apply findPath_iff_route; [done|]. by exists pts.
Qed.

(** X6: the search finds a path from [start] to [goal] exactly when it finds
    one from [goal] to [start], and the two have the same number of turns. *)
Theorem findPath_symmetric b start goal k :
  (findsPath b start goal k ↔ findsPath b goal start k) ∧
  (∀ pts pts', findPathLimitedTurns b start goal k = Path pts →
               findPathLimitedTurns b goal start k = Path pts' →
               pathTurns pts = pathTurns pts').
Proof.
  split; [split; apply findsPath_sym|].
  assert (∀ s g pts pts', findPathLimitedTurns b s g k = Path pts →
            findPathLimitedTurns b g s k = Path pts' →
            pathTurns pts' ≤ pathTurns pts) as Hle.
  { intros s g pts pts' Hp Hp'.
    apply findPath_path in Hp as (Hsg & _ & (ds & Hds & Ht) & _).
    apply findPath_path in Hp' as (_ & _ & _ & Hmin & _).
    destruct (connectable_sym b s g (routeTurns ds) Hsg) as (ds' & Hds' & Ht').
    { by exists ds. }
    specialize (Hmin ds' Hds'). lia. }
  intros pts pts' Hp Hp'.
  pose proof (Hle _ _ _ _ Hp Hp'). pose proof (Hle _ _ _ _ Hp' Hp). lia.
Qed.

(** ** The deadlock test and the cleared board *)

Lemma anyPair_true (f : pos → pos → bool) (pts : list pos) :
  anyPair f pts = true →
  ∃ p q, p ∈ pts ∧ q ∈ pts ∧ f p q = true.
Proof.
  induction pts as [|p rest IH]; [done|]. simpl.
  intros [Hp | Hrest]%orb_true_iff.
  - apply existsb_exists in Hp as (q & Hq%list_elem_of_In & Hf).
    exists p, q. split; [by left|]. split; [by right|done].
  - destruct (IH Hrest) as (p' & q & Hp' & Hq & Hf).
    exists p', q. split; [by right|]. split; [by right|done].
Qed.

Lemma anyPair_sym (f : pos → pos → bool) (pts : list pos) p q :
  (∀ x y, f x y = f y x) → p ∈ pts → q ∈ pts → p ≠ q → f p q = true →
  anyPair f pts = true.
Proof.
  intros Hsym. induction pts as [|x rest IH]; intros Hp Hq Hne Hf; [by apply elem_of_nil in Hp|].
  simpl. apply orb_true_iff.
  apply elem_of_cons in Hp as [-> | Hp]; apply elem_of_cons in Hq as [-> | Hq].
  - done.
  - left. apply existsb_exists. exists q. split; [by apply list_elem_of_In|done].
  - left. apply existsb_exists. exists p. split; [by apply list_elem_of_In|by rewrite Hsym].
  - right. by apply IH.
Qed.

Lemma isPath_sym b p q k :
  isPath (findPathLimitedTurns b p q k) = isPath (findPathLimitedTurns b q p k).
Proof.
  pose proof (findsPath_sym b p q k) as H1. pose proof (findsPath_sym b q p k) as H2.
  unfold findsPath in *.
  destruct (findPathLimitedTurns b p q k) as [| |pts] eqn:Hp;
    destruct (findPathLimitedTurns b q p k) as [| |pts'] eqn:Hq; try done.
  - by destruct H2; eauto.
  - by destruct H2; eauto.
  - by destruct H1; eauto.
  - by destruct H1; eauto.
Qed.

Lemma tile_interior b r c v :
  wf_dims b → border_null b → getCell b r c = Tile v → interior r c = true.
Proof.
  intros Hwf Hb Hget.
  assert (inBounds r c = true) as Hin.
  { apply (getCell_inBounds b); [done|]. by rewrite Hget. }
  destruct (interior r c) eqn:Hint; [done|].
  rewrite Hb in Hget; [done|]. unfold onBorder. by rewrite Hin, Hint.
Qed.

Lemma emptyBoard_border : border_null emptyBoard.
Proof.
  intros r c Hrc. apply emptyBoard_get. unfold onBorder in Hrc.
  by apply andb_true_iff in Hrc as [? _].
Qed.

Lemma setCell_border b r c x :
  border_null b → interior r c = true → border_null (setCell b r c x).
Proof.
  intros Hb Hint r' c' Hrc. rewrite getCell_setCell_ne; [by apply Hb|].
  destruct (decide (r' = r)) as [->|]; [|by left].
  destruct (decide (c' = c)) as [->|]; [|by right].
  unfold onBorder in Hrc. rewrite Hint in Hrc. by rewrite andb_false_r in Hrc.
Qed.

Lemma boardOf_border tiles :
  Forall (λ t, interior t.1.1 t.1.2 = true) tiles → border_null (boardOf tiles).
Proof.
  unfold boardOf. generalize emptyBoard_border. generalize emptyBoard.
  induction tiles as [|t tiles IH]; intros b0 Hb0 Hall; [done|].
  apply Forall_cons in Hall as [Ht Hall]. simpl. apply IH; [|done].
  by apply setCell_border.
Qed.

(** X7: on a board of the game with its empty border, [hasAnyMove] is true
    exactly when two cells hold the same tile and the path finder joins
    them: the two checks a move has to pass. *)
Theorem hasAnyMove_iff b :
  board_ok b → border_null b →
  hasAnyMove b = true ↔
  ∃ p q v, getCell b (p_r p) (p_c p) = Tile v ∧ getCell b (p_r q) (p_c q) = Tile v ∧
           findsPath b p q 2.
Proof.
  intros [Hwf Hcells] Hborder. unfold hasAnyMove. rewrite existsb_exists. split.
  - intros (t & _ & Hany). apply anyPair_true in Hany as (p & q & Hp & Hq & Hf).
    unfold positionsByType in Hp, Hq.
    apply list_elem_of_filter in Hp as [Hp _]. apply list_elem_of_filter in Hq as [Hq _].
    exists p, q, t. split; [done|]. split; [done|].
    unfold findsPath. destruct (findPathLimitedTurns b p q 2); try done. by eexists.
  - intros (p & q & v & Hp & Hq & [pts Hpts]).
    pose proof (tile_interior _ _ _ _ Hwf Hborder Hp) as Hpi.
    pose proof (tile_interior _ _ _ _ Hwf Hborder Hq) as Hqi.
    exists v. split.
    + apply list_elem_of_In, elem_of_seq. split; [lia|]. simpl.
      specialize (Hcells _ _ (interior_inBounds _ _ Hpi)). rewrite Hp in Hcells.
      by apply bool_decide_eq_true in Hcells.
    + apply (anyPair_sym _ _ p q).
      * intros x y. apply isPath_sym.
      * apply list_elem_of_filter. split; [done|]. by apply interiorCells_elem.
      * apply list_elem_of_filter. split; [done|]. by apply interiorCells_elem.
      * by apply findPath_path in Hpts as [Hne _].
      * by rewrite Hpts.
Qed.

Lemma hasAnyMove_iff_witness : hasAnyMove pairBoard = true.
Proof.
  assert (board_ok pairBoard) as Hok by (apply board_okb_spec; by vm_compute).
  assert (border_null pairBoard) as Hb by (by apply boardOf_border; repeat constructor).
  apply (hasAnyMove_iff pairBoard Hok Hb).
  exists (Pos 5 3), (Pos 6 3), 5. split; [by vm_compute|]. split; [by vm_compute|].
  eexists. apply findPath_adjacent.
Defined.

Lemma board_ext (b b' : board) :
  wf_dims b → wf_dims b' →
  (∀ r c, inBounds r c = true → getCell b r c = getCell b' r c) → b = b'.
Proof.
  intros [Hl Hrows] [Hl' Hrows'] Hget. apply list_eq_same_length with (Z.to_nat ROWS); [done..|].
  intros i row row' Hi Hrow Hrow'.
  rewrite Forall_forall in Hrows, Hrows'.
  assert (length row = Z.to_nat COLS) as Hlen by (apply Hrows, list_elem_of_lookup; eauto).
  assert (length row' = Z.to_nat COLS) as Hlen' by (apply Hrows', list_elem_of_lookup; eauto).
  apply list_eq_same_length with (Z.to_nat COLS); [done..|].
  intros j x x' Hj Hx Hx'.
  specialize (Hget (Z.of_nat i) (Z.of_nat j)). unfold getCell in Hget.
  rewrite !decide_True in Hget by lia. rewrite !Nat2Z.id, Hrow, Hrow', Hx, Hx' in Hget.
  apply Hget, inBounds_spec. lia.
Qed.

Lemma boardCleared_spec b :
  boardCleared b = true ↔ ∀ r c, interior r c = true → getCell b r c = Null.
Proof.
  unfold boardCleared. rewrite forallb_forall. split.
  - intros H r c Hrc.
    assert (In (Pos r c) interiorCells) as Hin by (by apply list_elem_of_In, interiorCells_elem).
    apply H in Hin. cbn [p_r p_c] in Hin. unfold isNull in Hin.
    by destruct (getCell b r c).
  - intros H p Hp%list_elem_of_In%interiorCells_elem. by rewrite H.
Qed.

(** X8: with the right shape and an empty border, a board counts as cleared
    exactly when it is the all-[null] board; a cleared board has no move
    left and no tile. *)
Theorem boardCleared_empty b :
  wf_dims b → border_null b →
  (boardCleared b = true ↔ b = emptyBoard) ∧
  (boardCleared b = true → hasAnyMove b = false ∧ tileValues b = []).
Proof.
  intros Hwf Hborder.
  assert (boardCleared b = true → b = emptyBoard) as Hempty.
  { intros Hc. apply board_ext; [done|apply emptyBoard_dims|].
    intros r c Hin. rewrite emptyBoard_get by done.
    destruct (interior r c) eqn:Hint; [by apply boardCleared_spec|].
    apply Hborder. unfold onBorder. by rewrite Hin, Hint. }
  split; [split; [done|by intros ->; vm_compute]|].
  intros ->%Hempty. by vm_compute.
Qed.

Lemma boardCleared_empty_witness : boardCleared emptyBoard = true.
Proof.
  by apply (boardCleared_empty emptyBoard emptyBoard_dims emptyBoard_border).
Defined.

(** ** The initial board *)

Lemma omap_lookup {A B} (f : A → option B) (l : list A) (k : list B) :
  length l = length k →
  (∀ i x, l !! i = Some x → f x = k !! i) →
  omap f l = k.
Proof.
  revert k. induction l as [|x l IH]; intros [|y k] Hlen Hf; try done.
  simpl. rewrite (Hf 0 x eq_refl). simpl. f_equal.
  apply IH; [by injection Hlen|]. intros i x' Hi. by apply (Hf (S i)).
Qed.

Lemma initialBag_types : Forall (λ v, v < TYPE_COUNT) initialBag.
Proof. apply (bool_decide_unpack _). by vm_compute. Qed.

Lemma initialBag_counts :
  Forall (λ t, length (filter (λ v, v = t) initialBag) = if t <? 6 then 6 else 4)
         (seq 0 TYPE_COUNT).
Proof. apply (bool_decide_unpack _). by vm_compute. Qed.

Lemma makeInitialBoard_values draw :
  tileValues (makeInitialBoard draw) = shuffle draw initialBag.
Proof.
  unfold tileValues, makeInitialBoard. apply omap_lookup.
  - rewrite (Permutation_length (shuffle_perm draw initialBag)). by vm_compute.
  - intros i p Hi. unfold tileAt.
    rewrite (place_lookup emptyBoard interiorCells _ 0 i p);
      [|apply interiorCells_NoDup|apply emptyBoard_dims|apply interiorCells_inBounds|done].
    unfold bagAt. change (0 + i) with i.
    destruct (shuffle draw initialBag !! i) eqn:Hb; [done|].
    apply lookup_ge_None in Hb. apply lookup_lt_Some in Hi.
    rewrite (Permutation_length (shuffle_perm draw initialBag)) in Hb.
    assert (length interiorCells = length initialBag) as Hlen by (by vm_compute). lia.
Qed.

Lemma makeInitialBoard_filled draw r c :
  interior r c = true →
  ∃ v, getCell (makeInitialBoard draw) r c = Tile v ∧ v < TYPE_COUNT.
Proof.
  intros Hrc. pose proof (shuffle_perm draw initialBag) as Hperm.
  assert (Pos r c ∈ interiorCells) as Hin by (by apply interiorCells_elem).
  apply list_elem_of_lookup in Hin as [i Hi].
  pose proof (place_lookup emptyBoard interiorCells (shuffle draw initialBag) 0 i (Pos r c)
                interiorCells_NoDup emptyBoard_dims interiorCells_inBounds Hi) as Hget.
  fold (makeInitialBoard draw) in Hget. cbn [p_r p_c] in Hget. rewrite Hget.
  unfold bagAt. change (0 + i) with i.
  destruct (shuffle draw initialBag !! i) as [v|] eqn:Hb.
  - exists v. split; [done|].
    assert (v ∈ initialBag) as Hv by (rewrite <-Hperm; by eapply list_elem_of_lookup_2).
    pose proof initialBag_types as Hty. rewrite Forall_forall in Hty. by apply Hty.
  - apply lookup_ge_None in Hb. apply lookup_lt_Some in Hi.
    rewrite (Permutation_length Hperm) in Hb.
    assert (length interiorCells = length initialBag) as Hlen by (by vm_compute). lia.
Qed.

Lemma makeInitialBoard_ok draw : board_ok (makeInitialBoard draw).
Proof.
  split; [apply makeInitialBoard_dims|]. intros r c Hin.
  destruct (interior r c) eqn:Hint.
  - destruct (makeInitialBoard_filled draw r c Hint) as (v & -> & Hv). simpl.
    by apply bool_decide_eq_true.
  - rewrite makeInitialBoard_border; [done|]. unfold onBorder. by rewrite Hin, Hint.
Qed.

Lemma makeInitialBoard_count draw : length (tileValues (makeInitialBoard draw)) = 144.
Proof.
  rewrite makeInitialBoard_values, (Permutation_length (shuffle_perm draw initialBag)).
  by vm_compute.
Qed.

(** X9: whatever the draws, [makeInitialBoard] returns a board of the game
    whose interior is full: 144 tiles, each of the types 0..5 six times and
    each of the types 6..32 four times. *)
Theorem makeInitialBoard_tiles draw :
  board_ok (makeInitialBoard draw) ∧
  tileValues (makeInitialBoard draw) ≡ₚ initialBag ∧
  length (tileValues (makeInitialBoard draw)) = 144 ∧
  (∀ t, t < TYPE_COUNT →
     length (filter (λ v, v = t) (tileValues (makeInitialBoard draw)))
     = if t <? 6 then 6 else 4) ∧
  (∀ r c, interior r c = true →
     ∃ v, getCell (makeInitialBoard draw) r c = Tile v ∧ v < TYPE_COUNT) ∧
  boardCleared (makeInitialBoard draw) = false.
Proof.
  pose proof (makeInitialBoard_values draw) as Hvals.
  pose proof (shuffle_perm draw initialBag) as Hperm.
  split; [apply makeInitialBoard_ok|]. split; [by rewrite Hvals|].
  split; [apply makeInitialBoard_count|]. split; [|split; [apply makeInitialBoard_filled|]].
  - intros t Ht. rewrite Hvals, Hperm.
    pose proof initialBag_counts as Hc. rewrite Forall_forall in Hc.
    apply Hc, elem_of_seq. lia.
  - destruct (boardCleared (makeInitialBoard draw)) eqn:Hc; [|done].
    rewrite boardCleared_spec in Hc.
    destruct (makeInitialBoard_filled draw 1%Z 1%Z eq_refl) as (v & Hv & _).
    rewrite Hc in Hv; done.
Qed.

(** ** The collapse: what it keeps and how many tiles it takes *)

(** The tile a cell holds, as a list of none or one. *)
Definition cellTiles (x : cell) : list nat :=
  match x with Tile v => [v] | _ => [] end.

Lemma tileValues_setCell b r c :
  wf_dims b → interior r c = true →
  ∃ rest, tileValues b ≡ₚ cellTiles (getCell b r c) ++ rest ∧
          ∀ x, tileValues (setCell b r c x) ≡ₚ cellTiles x ++ rest.
Proof.
  intros Hwf Hint.
  assert (Pos r c ∈ interiorCells) as Hin by (by apply interiorCells_elem).
  apply elem_of_Permutation in Hin as [k Hk].
  assert (Pos r c ∉ k) as Hnk.
  { pose proof interiorCells_NoDup as Hnd. rewrite Hk in Hnd. by apply NoDup_cons in Hnd as [? _]. }
  exists (omap (tileAt b) k).
  assert (∀ b0, tileValues b0 ≡ₚ cellTiles (getCell b0 r c) ++ omap (tileAt b0) k) as Hsplit.
  { intros b0. unfold tileValues. rewrite Hk. unfold tileAt at 1. csimpl.
    by destruct (getCell b0 r c). }
  split; [apply Hsplit|]. intros x. rewrite Hsplit.
  rewrite getCell_setCell_eq by (done || by apply interior_inBounds).
  apply Permutation_app_head. erewrite list_omap_ext; [done|].
  apply Forall2_same_length_lookup. split; [done|].
  intros i p q Hp Hq. rewrite Hp in Hq. injection Hq as <-. unfold tileAt.
  rewrite getCell_setCell_ne; [done|].
  destruct (decide (p_r p = r)) as [Hr|]; [|by left].
  destruct (decide (p_c p = c)) as [Hc|]; [|by right].
  exfalso. apply Hnk. apply list_elem_of_lookup. exists i. rewrite Hp.
  destruct p. simpl in *. by subst.
Qed.

Lemma setCell_ok b r c x :
  board_ok b → cell_ok x = true → board_ok (setCell b r c x).
Proof.
  intros [Hwf Hcells] Hx. split; [by apply setCell_dims|].
  intros r' c' Hin. destruct (decide (r' = r ∧ c' = c)) as [[-> ->]|Hne].
  - by rewrite getCell_setCell_eq.
  - rewrite getCell_setCell_ne; [by apply Hcells|].
    destruct (decide (r' = r)) as [->|]; [|by left].
    destruct (decide (c' = c)) as [->|]; [|by right]. by destruct Hne.
Qed.

(** What one call of a collapse function keeps. *)
Definition keepsBoard (b b' : board) (r c : Z) : Prop :=
  board_ok b' ∧ border_null b' ∧
  tileValues b ≡ₚ cellTiles (getCell b r c) ++ tileValues b'.

Lemma setCell_null_keeps b r c :
  board_ok b → border_null b → interior r c = true →
  keepsBoard b (setCell b r c Null) r c.
Proof.
  intros Hok Hb Hint. split; [by apply setCell_ok|]. split; [by apply setCell_border|].
  destruct (tileValues_setCell b r c (proj1 Hok) Hint) as (rest & H1 & H2).
  by rewrite H1, (H2 Null).
Qed.

Section shift_keeps.
Variables (guard inner : Z → Z → bool) (sr sc : Z → Z).
Variables (Q : Z → Z → Prop) (mu : Z → Z → nat).
Hypothesis scan_int : ∀ r c, Q r c → guard r c = true → interior r c = true.
Hypothesis scan_next :
  ∀ r c, Q r c → guard r c = true → inner r c = true →
         inBounds (sr r) (sc c) = true ∧
         (interior (sr r) (sc c) = true → Q (sr r) (sc c) ∧ guard (sr r) (sc c) = true).
Hypothesis mu_decr : ∀ r c, guard r c = true → mu (sr r) (sc c) < mu r c.

Lemma shift_loop_keeps n b r c :
  board_ok b → border_null b → Q r c → guard r c = true → mu r c ≤ n →
  keepsBoard b (shift_loop guard inner sr sc n b r c) r c.
Proof using scan_int scan_next mu_decr.
  revert b r c. induction n as [|n IH]; intros b r c Hok Hb HQ Hg Hmu.
  { specialize (mu_decr r c Hg). lia. }
  pose proof (scan_int r c HQ Hg) as Hint.
  simpl. rewrite Hg.
  destruct (inner r c) eqn:Hi; cbn [andb]; [|by apply setCell_null_keeps].
  destruct (notNull (getCell b (sr r) (sc c))) eqn:Hnn; [|by apply setCell_null_keeps].
  destruct (scan_next r c HQ Hg Hi) as [Hin Hnext].
  assert (interior (sr r) (sc c) = true) as Hint'.
  { destruct (interior (sr r) (sc c)) eqn:Hint'; [done|].
    rewrite Hb in Hnn; [done|]. unfold onBorder. by rewrite Hin, Hint'. }
  destruct (Hnext Hint') as [HQ' Hg'].
  assert ((sr r, sc c) ≠ (r, c)) as Hne.
  { intros [= Hr Hc]. specialize (mu_decr r c Hg). rewrite Hr, Hc in mu_decr. lia. }
  set (x := getCell b (sr r) (sc c)) in *.
  assert (board_ok (setCell b r c x)) as Hok1.
  { apply setCell_ok; [done|]. by apply Hok. }
  assert (border_null (setCell b r c x)) as Hb1 by (by apply setCell_border).
  destruct (IH (setCell b r c x) (sr r) (sc c) Hok1 Hb1 HQ' Hg') as (Hok2 & Hb2 & Hperm).
  { specialize (mu_decr r c Hg). lia. }
  split; [done|]. split; [done|].
  destruct (tileValues_setCell b r c (proj1 Hok) Hint) as (rest & H1 & H2).
  rewrite H1. apply Permutation_app_head.
  rewrite (H2 x) in Hperm.
  rewrite getCell_setCell_ne in Hperm.
  - fold x in Hperm. by apply Permutation_app_inv_l in Hperm.
  - destruct (decide (sr r = r)) as [Hr|]; [|by left].
    destruct (decide (sc c = c)) as [Hc|]; [|by right]. destruct Hne. by rewrite Hr, Hc.
Qed.
End shift_keeps.

Ltac scan_facts :=
  unfold ROWS, COLS, id in *; cbv beta in *;
  repeat match goal with
         | H : (_ <? _)%Z = true |- _ => apply Z.ltb_lt in H
         | H : (_ <=? _)%Z = true |- _ => apply Z.leb_le in H
         | H : interior _ _ = true |- _ => apply interior_spec in H
         | |- (_ <? _)%Z = true => apply Z.ltb_lt
         | |- (_ <=? _)%Z = true => apply Z.leb_le
         | |- interior _ _ = true => apply interior_spec
         | |- inBounds _ _ = true => apply inBounds_spec
         | |- _ → _ => intro
         | |- _ ∧ _ => split
         end;
  unfold ROWS, COLS in *; try lia.

Lemma level1_keeps b p :
  board_ok b → border_null b → interior_pos p →
  keepsBoard b (level1 b p) (p_r p) (p_c p).
Proof. intros. by apply setCell_null_keeps. Qed.

Lemma level2_keeps b p :
  board_ok b → border_null b → interior_pos p →
  keepsBoard b (level2 b p) (p_r p) (p_c p).
Proof.
  intros Hok Hb Hp. apply interior_spec in Hp. unfold level2. rewrite level2_loop_shift.
  apply (shift_loop_keeps _ _ _ _ (λ r c, 1 ≤ r ∧ 1 ≤ c < COLS - 1)%Z
           (λ r _, Z.to_nat (ROWS - 1 - r))); try done; scan_facts.
Qed.

Lemma level3_keeps b p :
  board_ok b → border_null b → interior_pos p →
  keepsBoard b (level3 b p) (p_r p) (p_c p).
Proof.
  intros Hok Hb Hp. apply interior_spec in Hp. unfold level3. rewrite level3_loop_shift.
  apply (shift_loop_keeps _ _ _ _ (λ r c, r < ROWS - 1 ∧ 1 ≤ c < COLS - 1)%Z
           (λ r _, Z.to_nat r)); try done; scan_facts.
Qed.

Lemma level4_keeps b p :
  board_ok b → border_null b → interior_pos p →
  keepsBoard b (level4 b p) (p_r p) (p_c p).
Proof.
  intros Hok Hb Hp. apply interior_spec in Hp. unfold level4. rewrite level4_loop_shift.
  apply (shift_loop_keeps _ _ _ _ (λ r c, 1 ≤ r < ROWS - 1 ∧ c < COLS - 1)%Z
           (λ _ c, Z.to_nat c)); try done; scan_facts.
Qed.

Lemma level5_keeps b p :
  board_ok b → border_null b → interior_pos p →
  keepsBoard b (level5 b p) (p_r p) (p_c p).
Proof.
  intros Hok Hb Hp. apply interior_spec in Hp. unfold level5. rewrite level5_loop_shift.
  apply (shift_loop_keeps _ _ _ _ (λ r c, 1 ≤ r < ROWS - 1 ∧ 1 ≤ c)%Z
           (λ _ c, Z.to_nat (COLS - 1 - c))); try done; scan_facts.
Qed.

Lemma level6_keeps b p :
  board_ok b → border_null b → interior_pos p →
  keepsBoard b (level6 b p) (p_r p) (p_c p).
Proof.
  intros Hok Hb Hp. pose proof Hp as Hp'. apply interior_spec in Hp'. unfold level6.
  rewrite level6_above_shift, level6_below_shift.
  destruct (p_r p <? 5)%Z eqn:H1; [|destruct (5 <? p_r p)%Z eqn:H2].
  - apply (shift_loop_keeps _ _ _ _ (λ r c, 1 ≤ r ∧ 1 ≤ c < COLS - 1)%Z
             (λ r _, Z.to_nat (6 - r))); try done; scan_facts.
  - apply (shift_loop_keeps _ _ _ _ (λ r c, r < ROWS - 1 ∧ 1 ≤ c < COLS - 1)%Z
             (λ r _, Z.to_nat (r - 4))); try done; scan_facts.
  - by apply setCell_null_keeps.
Qed.

Lemma level7_keeps b p :
  board_ok b → border_null b → interior_pos p →
  keepsBoard b (level7 b p) (p_r p) (p_c p).
Proof.
  intros Hok Hb Hp. apply interior_spec in Hp. unfold level7.
  rewrite level7_left_shift, level7_right_shift.
  destruct (p_c p <=? 8)%Z eqn:H1.
  - apply (shift_loop_keeps _ _ _ _ (λ r c, 1 ≤ r < ROWS - 1 ∧ 1 ≤ c)%Z
             (λ _ c, Z.to_nat (9 - c))); try done; scan_facts.
  - apply Z.leb_gt in H1.
    apply (shift_loop_keeps _ _ _ _ (λ r c, 1 ≤ r < ROWS - 1 ∧ c < COLS - 1)%Z
             (λ _ c, Z.to_nat (c - 8))); try done; scan_facts.
Qed.

Lemma collapse_keeps level b p :
  board_ok b → border_null b → interior_pos p →
  keepsBoard b (collapse level b p) (p_r p) (p_c p).
Proof.
  intros. destruct level as [|[|[|[|[|[|[|[|]]]]]]]]; cbn [collapse];
    auto using level1_keeps, level2_keeps, level3_keeps, level4_keeps,
      level5_keeps, level6_keeps, level7_keeps.
Qed.

Lemma applyLevel_collapses b level a b' :
  ∃ first second,
    ((first = a ∧ second = b') ∨ (first = b' ∧ second = a)) ∧
    applyLevel b level a b' = collapse level (collapse level b first) second.
Proof.
  unfold applyLevel, collapse. destruct level as [|[|[|[|[|[|[|[|]]]]]]]]; cbv zeta;
    repeat case_match;
    first [ by exists a, b'; split; [left|] | by exists b', a; split; [right|] ].
Qed.

Lemma applyLevel_board_ok b level a b' :
  board_ok b → border_null b → interior_pos a → interior_pos b' →
  board_ok (applyLevel b level a b') ∧ border_null (applyLevel b level a b').
Proof.
  intros Hok Hb Ha Hb'.
  destruct (applyLevel_collapses b level a b') as (first & second & Hfs & ->).
  assert (interior_pos first ∧ interior_pos second) as [Hf Hs].
  { by destruct Hfs as [[-> ->] | [-> ->]]. }
  destruct (collapse_keeps level b first Hok Hb Hf) as (Hok1 & Hb1 & _).
  by destruct (collapse_keeps level _ second Hok1 Hb1 Hs) as (Hok2 & Hb2 & _).
Qed.

(** X10: every application of [applyLevel] at two interior positions keeps the
    board a board of the game with an empty border, and never adds a tile:
    it takes the tile of the position collapsed first and what the second
    position holds after that. *)
Theorem applyLevel_keeps b level a b' :
  board_ok b → border_null b → interior_pos a → interior_pos b' →
  board_ok (applyLevel b level a b') ∧ border_null (applyLevel b level a b') ∧
  ∃ taken, tileValues b ≡ₚ taken ++ tileValues (applyLevel b level a b') ∧
           length taken ≤ 2.
Proof.
  intros Hok Hb Ha Hb'.
  destruct (applyLevel_collapses b level a b') as (first & second & Hfs & ->).
  assert (interior_pos first ∧ interior_pos second) as [Hf Hs].
  { by destruct Hfs as [[-> ->] | [-> ->]]. }
  destruct (collapse_keeps level b first Hok Hb Hf) as (Hok1 & Hb1 & Hperm1).
  destruct (collapse_keeps level _ second Hok1 Hb1 Hs) as (Hok2 & Hb2 & Hperm2).
  split; [done|]. split; [done|].
  exists (cellTiles (getCell b (p_r first) (p_c first)) ++
          cellTiles (getCell (collapse level b first) (p_r second) (p_c second))).
  split.
  - rewrite Hperm1 at 1. rewrite Hperm2 at 1. by rewrite app_assoc.
  - rewrite length_app.
    destruct (getCell b (p_r first) (p_c first)),
      (getCell (collapse level b first) (p_r second) (p_c second)); simpl; lia.
Qed.

Lemma applyLevel_keeps_witness :
  board_ok (applyLevel orderBoard 3 (Pos 2 1) (Pos 3 1)) ∧
  border_null (applyLevel orderBoard 3 (Pos 2 1) (Pos 3 1)).
Proof.
  destruct (applyLevel_keeps orderBoard 3 (Pos 2 1) (Pos 3 1)) as (H1 & H2 & _).
  - apply board_okb_spec. by vm_compute.
  - by apply boardOf_border; repeat constructor.
  - done.
  - done.
  - by split.
Defined.

(** The cells a collapse function leaves alone: those off the line of [p]
    and those behind [p] on it. *)
Ltac line_frame Q :=
  apply (shift_loop_unchanged _ _ _ _ Q Q);
  [ intros ? ? ? ?; scan_facts | scan_facts | scan_facts ].

Lemma level2_untouched b p r c :
  (c ≠ p_c p ∨ r < p_r p)%Z → getCell (level2 b p) r c = getCell b r c.
Proof.
  intros H. unfold level2. rewrite level2_loop_shift.
  line_frame (λ r0 c0, c0 = p_c p ∧ p_r p ≤ r0)%Z.
Qed.

Lemma level3_untouched b p r c :
  (c ≠ p_c p ∨ p_r p < r)%Z → getCell (level3 b p) r c = getCell b r c.
Proof.
  intros H. unfold level3. rewrite level3_loop_shift.
  line_frame (λ r0 c0, c0 = p_c p ∧ r0 ≤ p_r p)%Z.
Qed.

Lemma level4_untouched b p r c :
  (r ≠ p_r p ∨ p_c p < c)%Z → getCell (level4 b p) r c = getCell b r c.
Proof.
  intros H. unfold level4. rewrite level4_loop_shift.
  line_frame (λ r0 c0, r0 = p_r p ∧ c0 ≤ p_c p)%Z.
Qed.

Lemma level5_untouched b p r c :
  (r ≠ p_r p ∨ c < p_c p)%Z → getCell (level5 b p) r c = getCell b r c.
Proof.
  intros H. unfold level5. rewrite level5_loop_shift.
  line_frame (λ r0 c0, r0 = p_r p ∧ p_c p ≤ c0)%Z.
Qed.

Lemma level6_untouched b p r c :
  (c ≠ p_c p ∨ r < 5 ∧ r < p_r p ∨ 5 < r ∧ p_r p < r ∨
   p_r p < 5 ∧ 5 < r ∨ 5 < p_r p ∧ r < 5 ∨ p_r p = 5 ∧ r ≠ 5)%Z →
  getCell (level6 b p) r c = getCell b r c.
Proof.
  intros H. unfold level6. rewrite level6_above_shift, level6_below_shift.
  destruct (p_r p <? 5)%Z eqn:H1; [|destruct (5 <? p_r p)%Z eqn:H2].
  - apply (shift_loop_unchanged _ _ _ _ (λ r0 c0, c0 = p_c p ∧ p_r p ≤ r0)%Z
             (λ r0 c0, c0 = p_c p ∧ p_r p ≤ r0 ≤ 5)%Z);
      [ intros ? ? ? ?; scan_facts | scan_facts | scan_facts ].
  - apply (shift_loop_unchanged _ _ _ _ (λ r0 c0, c0 = p_c p ∧ r0 ≤ p_r p)%Z
             (λ r0 c0, c0 = p_c p ∧ 5 ≤ r0 ≤ p_r p)%Z);
      [ intros ? ? ? ?; scan_facts | scan_facts | scan_facts ].
  - apply getCell_setCell_ne. scan_facts.
Qed.

Lemma level7_untouched b p r c :
  (r ≠ p_r p ∨ c < p_c p ∧ c ≤ 8 ∨ p_c p < c ∧ 8 < c ∨
   p_c p ≤ 8 ∧ 8 < c ∨ 8 < p_c p ∧ c ≤ 8)%Z →
  getCell (level7 b p) r c = getCell b r c.
Proof.
  intros H. unfold level7. rewrite level7_left_shift, level7_right_shift.
  destruct (p_c p <=? 8)%Z eqn:H1.
  - apply (shift_loop_unchanged _ _ _ _ (λ r0 c0, r0 = p_r p ∧ p_c p ≤ c0)%Z
             (λ r0 c0, r0 = p_r p ∧ p_c p ≤ c0 ≤ 8)%Z);
      [ intros ? ? ? ?; scan_facts | scan_facts | scan_facts ].
  - apply Z.leb_gt in H1.
    apply (shift_loop_unchanged _ _ _ _ (λ r0 c0, r0 = p_r p ∧ c0 ≤ p_c p)%Z
             (λ r0 c0, r0 = p_r p ∧ 8 < c0 ≤ p_c p)%Z);
      [ intros ? ? ? ?; scan_facts | scan_facts | scan_facts ].
Qed.

Lemma twice_keeps (f : board → pos → board) b first second :
  (∀ b p, board_ok b → border_null b → interior_pos p →
          keepsBoard b (f b p) (p_r p) (p_c p)) →
  board_ok b → border_null b → interior_pos first → interior_pos second →
  getCell (f b first) (p_r second) (p_c second) = getCell b (p_r second) (p_c second) →
  tileValues b ≡ₚ
    cellTiles (getCell b (p_r first) (p_c first)) ++
    cellTiles (getCell b (p_r second) (p_c second)) ++
    tileValues (f (f b first) second).
Proof.
  intros Hf Hok Hb H1 H2 Hsame.
  destruct (Hf b first Hok Hb H1) as (Hok1 & Hb1 & Hperm1).
  destruct (Hf _ second Hok1 Hb1 H2) as (_ & _ & Hperm2).
  rewrite Hperm1 at 1. rewrite Hperm2 at 1. by rewrite Hsame.
Qed.

(** The one configuration in which the second position is rewritten by the
    first collapse: level 6, both positions in one column, one on the
    centre row 5 and the other below it. *)
Definition centreClash (level : nat) (a b' : pos) : Prop :=
  level = 6 ∧ p_c a = p_c b' ∧
  ((p_r a = 5 ∧ 5 < p_r b') ∨ (p_r b' = 5 ∧ 5 < p_r a))%Z.

Ltac order_facts :=
  repeat match goal with
         | H : (_ <? _)%Z = true |- _ => apply Z.ltb_lt in H
         | H : (_ <? _)%Z = false |- _ => apply Z.ltb_ge in H
         | H : _ && _ = true |- _ => apply andb_true_iff in H as [? ?]
         | H : _ && _ = false |- _ => apply andb_false_iff in H
         end.

Ltac takes_two_with f keeps untouched :=
  lazymatch goal with
  | |- _ ≡ₚ cellTiles (getCell _ (p_r ?a) (p_c ?a)) ++ _ ++ tileValues (f (f ?b ?x) ?y) =>
      first
        [ constr_eq x a; apply (twice_keeps f b x y keeps); [done..|]
        | etrans; [apply (twice_keeps f b x y keeps); [done..|]
                  |apply Permutation_app_swap_app] ];
      untouched
  end.

Ltac takes_two :=
  lazymatch goal with
  | |- _ ≡ₚ _ ++ _ ++ tileValues (level1 _ _) =>
      takes_two_with level1 level1_keeps ltac:(unfold level1; apply getCell_setCell_ne; lia)
  | |- _ ≡ₚ _ ++ _ ++ tileValues (level2 _ _) =>
      takes_two_with level2 level2_keeps ltac:(apply level2_untouched; lia)
  | |- _ ≡ₚ _ ++ _ ++ tileValues (level3 _ _) =>
      takes_two_with level3 level3_keeps ltac:(apply level3_untouched; lia)
  | |- _ ≡ₚ _ ++ _ ++ tileValues (level4 _ _) =>
      takes_two_with level4 level4_keeps ltac:(apply level4_untouched; lia)
  | |- _ ≡ₚ _ ++ _ ++ tileValues (level5 _ _) =>
      takes_two_with level5 level5_keeps ltac:(apply level5_untouched; lia)
  | |- _ ≡ₚ _ ++ _ ++ tileValues (level6 _ _) =>
      takes_two_with level6 level6_keeps ltac:(apply level6_untouched; lia)
  | |- _ ≡ₚ _ ++ _ ++ tileValues (level7 _ _) =>
      takes_two_with level7 level7_keeps ltac:(apply level7_untouched; lia)
  end.

(** X11: apart from the configuration [centreClash] (level 6, both positions
    in one column, one on row 5 and the other below it), [applyLevel] at two
    distinct interior positions of a board of the game takes exactly what
    the two positions hold and keeps every other tile, at every level. *)
Theorem applyLevel_takes_two b level a b' :
  board_ok b → border_null b → interior_pos a → interior_pos b' → a ≠ b' →
  ¬ centreClash level a b' →
  tileValues b ≡ₚ
    cellTiles (getCell b (p_r a) (p_c a)) ++ cellTiles (getCell b (p_r b') (p_c b')) ++
    tileValues (applyLevel b level a b').
Proof.
  intros Hok Hb Ha Hb' Hne Hclash.
  assert (p_r a ≠ p_r b' ∨ p_c a ≠ p_c b')%Z as Hcoord.
  { destruct (decide (p_r a = p_r b')) as [Hr|]; [|by left].
    destruct (decide (p_c a = p_c b')) as [Hc|]; [|by right].
    destruct Hne. destruct a, b'. simpl in *. by subst. }
  assert (level = 6 → p_c a = p_c b' →
          ¬ ((p_r a = 5 ∧ 5 < p_r b') ∨ (p_r b' = 5 ∧ 5 < p_r a))%Z) as H6.
  { intros ? ? ?. by apply Hclash. }
  clear Hclash Hne.
  unfold applyLevel. destruct level as [|[|[|[|[|[|[|[|]]]]]]]]; cbv zeta;
    repeat case_match; order_facts; try specialize (H6 eq_refl); takes_two.
Qed.

Lemma applyLevel_takes_two_witness :
  tileValues orderBoard ≡ₚ
    5 :: 5 :: tileValues (applyLevel orderBoard 3 (Pos 2 1) (Pos 3 1)).
Proof.
  apply (applyLevel_takes_two orderBoard 3 (Pos 2 1) (Pos 3 1)).
  - apply board_okb_spec. by vm_compute.
  - by apply boardOf_border; repeat constructor.
  - done.
  - done.
  - done.
  - by intros [? _].
Defined.

Lemma level6_row5 b c : level6 b (Pos 5 c) = setCell b 5 c Null.
Proof. done. Qed.

Lemma level6_row6 b c v :
  getCell b 5 c = Tile v →
  level6 b (Pos 6 c) = setCell (setCell b 6 c (Tile v)) 5 c Null.
Proof.
  intros H. unfold level6. cbn [p_r p_c].
  change (6 <? 5)%Z with false. change (5 <? 6)%Z with true. cbv iota.
  change (Z.to_nat (6 - 4)) with 2. cbn [level6_below].
  change (5 <=? 6)%Z with true. change (6 - 1)%Z with 5%Z.
  change (5 <=? 5)%Z with true. rewrite H. cbn [andb notNull].
  change (5 <=? 5 - 1)%Z with false. done.
Qed.

(** X12: at level 6 with the two positions on the rows 5 and 6 of one
    column: when the two cells hold the same tile, as in an accepted move,
    [applyLevel] empties the cell on row 5 only; the tile on row 6 is still
    there, and one tile has left the board instead of two. *)
Theorem applyLevel_centre_clash b c v a b' :
  board_ok b → border_null b →
  getCell b 5 c = Tile v → getCell b 6 c = Tile v →
  (a = Pos 5 c ∧ b' = Pos 6 c) ∨ (a = Pos 6 c ∧ b' = Pos 5 c) →
  applyLevel b 6 a b' = setCell b 5 c Null ∧
  getCell (applyLevel b 6 a b') 6 c = Tile v ∧
  tileValues b ≡ₚ v :: tileValues (applyLevel b 6 a b').
Proof.
  intros Hok Hb H5 H6 Hab. pose proof Hok as [Hwf _].
  assert (inBounds 5 c = true) as Hin5.
  { apply (getCell_inBounds b); [done|]. by rewrite H5. }
  assert (inBounds 6 c = true) as Hin6.
  { apply (getCell_inBounds b); [done|]. by rewrite H6. }
  assert (applyLevel b 6 a b' = level6 (level6 b (Pos 6 c)) (Pos 5 c)) as ->.
  { by destruct Hab as [[-> ->] | [-> ->]]. }
  rewrite level6_row5, (level6_row6 _ _ _ H5).
  assert (setCell (setCell (setCell b 6 c (Tile v)) 5 c Null) 5 c Null = setCell b 5 c Null)
    as ->.
  { apply board_ext; [by repeat apply setCell_dims..|].
    intros r' c' Hin. rewrite !getCell_setCell by (done || by repeat apply setCell_dims).
    repeat case_decide; try done. by destruct_and!; subst. }
  split; [done|]. split.
  - rewrite getCell_setCell_ne; [done|by left].
  - pose proof (tile_interior _ _ _ _ Hwf Hb H5) as Hint.
    destruct (setCell_null_keeps b 5 c Hok Hb Hint) as (_ & _ & Hperm).
    by rewrite H5 in Hperm.
Qed.

Lemma applyLevel_centre_clash_witness :
  applyLevel pairBoard 6 (Pos 5 3) (Pos 6 3) = setCell pairBoard 5 3 Null ∧
  getCell (applyLevel pairBoard 6 (Pos 5 3) (Pos 6 3)) 6 3 = Tile 5.
Proof.
  destruct (applyLevel_centre_clash pairBoard 3 5 (Pos 5 3) (Pos 6 3)) as (H1 & H2 & _).
  - apply board_okb_spec. by vm_compute.
  - by apply boardOf_border; repeat constructor.
  - by vm_compute.
  - by vm_compute.
  - by left.
  - by split.
Defined.

(** ** The reshuffle keeps the board a board of the game *)

Lemma rerandomRemaining_ok draw b :
  board_ok b → board_ok (rerandomRemaining draw b).
Proof.
  intros Hok. pose proof Hok as [Hwf Hcells].
  split; [by apply rerandomRemaining_dims|]. intros r c Hin.
  destruct (decide (Pos r c ∈ filter (occupied b) interiorCells)) as [Hocc|Hnocc].
  - unfold rerandomRemaining.
    destruct (collect _ _ _ _) as [[b1 counts1] positions1] eqn:Hc.
    apply (collect_spec b) in Hc as (-> & -> & Hwf1 & Hnull & Hframe);
      [|apply interiorCells_NoDup|done|apply interiorCells_inBounds|done].
    destruct (occupied_values b Hok interiorCells) as [Hvals Hlt].
    { intros p Hp. by apply interior_inBounds, interiorCells_elem. }
    rewrite Hvals. fold (tileValues b) in *. rewrite app_nil_l.
    set (bag := shuffle draw _).
    assert (bag ≡ₚ tileValues b) as Hbag.
    { unfold bag. rewrite shuffle_perm, bagOf_foldl by (done || by rewrite length_replicate).
      replace (bagOf (replicate TYPE_COUNT 0)) with (@nil nat) by (by vm_compute).
      by rewrite app_nil_r. }
    assert (length bag = length (filter (occupied b) interiorCells)) as Hlen.
    { rewrite Hbag. apply (f_equal length) in Hvals. by rewrite !length_fmap in Hvals. }
    apply list_elem_of_lookup in Hocc as [i Hi].
    pose proof (place_lookup b1 _ bag 0 i (Pos r c)
      (NoDup_filter (occupied b) _ interiorCells_NoDup) Hwf1) as Hget.
    cbn [p_r p_c] in Hget. change (0 + i) with i in Hget. rewrite Hget; [| |done].
    + unfold bagAt. destruct (lookup_lt_is_Some_2 bag i) as [v Hv].
      { rewrite Hlen. by eapply lookup_lt_Some. }
      rewrite Hv. simpl. apply bool_decide_eq_true.
      rewrite Forall_forall in Hlt. apply Hlt. rewrite <-Hbag.
      by eapply list_elem_of_lookup_2.
    + apply Forall_forall. intros p [_ Hp]%list_elem_of_filter.
      by apply interior_inBounds, interiorCells_elem.
  - destruct (rerandomRemaining_spec draw b Hok) as (_ & _ & Hnull).
    specialize (Hnull r c). specialize (Hcells r c Hin).
    destruct (interior r c) eqn:Hint.
    + assert (getCell b r c = Null) as Hb.
      { destruct (getCell b r c) as [|v|] eqn:Hget; [done| |done].
        destruct Hnocc. apply list_elem_of_filter. split; [|by apply interiorCells_elem].
        unfold occupied. simpl. by rewrite Hget. }
      rewrite Hb in Hnull. unfold isNull in Hnull.
      by destruct (getCell (rerandomRemaining draw b) r c).
    + by rewrite rerandomRemaining_frame.
Qed.

Lemma rerandomRemaining_border draw b :
  wf_dims b → border_null b → border_null (rerandomRemaining draw b).
Proof.
  intros Hwf Hb r c Hrc. rewrite rerandomRemaining_frame; [by apply Hb|done|].
  unfold onBorder in Hrc. apply andb_true_iff in Hrc as [_ Hrc]. by apply negb_true_iff.
Qed.

(** X13: on a board of the game, [rerandomRemaining] returns a board of the
    game: no cell is left [undefined], every tile type is below 33; the
    border stays empty, and the board is cleared exactly when it was. *)
Theorem rerandomRemaining_keeps_board draw b :
  board_ok b → border_null b →
  board_ok (rerandomRemaining draw b) ∧ border_null (rerandomRemaining draw b) ∧
  boardCleared (rerandomRemaining draw b) = boardCleared b.
Proof.
  intros Hok Hb. split; [by apply rerandomRemaining_ok|].
  split; [by apply rerandomRemaining_border; [apply Hok|]|].
  destruct (rerandomRemaining_spec draw b Hok) as (_ & _ & Hnull).
  unfold boardCleared. induction interiorCells as [|p l IH]; [done|].
  cbn [forallb]. by rewrite Hnull, IH.
Qed.

Lemma rerandomRemaining_keeps_board_witness :
  board_ok (rerandomRemaining (λ i, i) pathBoard).
Proof.
  apply (rerandomRemaining_keeps_board (λ i, i) pathBoard).
  - apply board_okb_spec. by vm_compute.
  - by apply boardOf_border; repeat constructor.
Defined.

(** * The other handlers of the room manager *)

(** [leaveExistingRooms].  [rooms.values()] yields the rooms in the order
    they were inserted, which the [gmap] does not record: [order] is that
    list of room ids.  The two [for] loops work on the room objects the
    first one collected. *)
Definition isMember (sv : server) (clientId k : string) : bool :=
  match rooms sv !! k with
  | Some rm => bool_decide (is_Some (r_players rm !! clientId))
  | None => false
  end.

Definition isHostOf (sv : server) (clientId k : string) : bool :=
  match rooms sv !! k with
  | Some rm => bool_decide (r_hostId rm = clientId)
  | None => false
  end.

Definition leaveOne (clientId : string) (sv : server) (k : string) : server :=
  match rooms sv !! k with
  | Some rm =>
      Server (<[k := setPlayers rm (delete clientId (r_players rm))]> (rooms sv))
        (delete clientId (clientToRoom sv))
        (globalLeaderboard sv) (timers sv) (nextTimer sv)
  | None => sv
  end.

Definition closeOne (sv : server) (k : string) : server :=
  match rooms sv !! k with
  | Some rm =>
      Server (delete k (rooms sv)) (forgetMembers (clientToRoom sv) (r_players rm))
        (globalLeaderboard sv) (timers sv) (nextTimer sv)
  | None => sv
  end.

Definition leaveExistingRooms (sv : server) (order : list string) (clientId : string)
    : server * list event :=
  let member := filter (λ k, isMember sv clientId k = true) order in
  let toClose := filter (λ k, isHostOf sv clientId k = true) member in
  let toLeave := filter (λ k, isHostOf sv clientId k = false) member in
  (foldl closeOne (foldl (leaveOne clientId) sv toLeave) toClose,
   ((λ k, EvPlayerLeft k clientId) <$> toLeave) ++ (EvRoomClosed <$> toClose)).

(** [/^[A-Z0-9]{3,12}$/] *)
Definition codeChar (a : Ascii.ascii) : bool :=
  let n := Ascii.nat_of_ascii a in
  (65 <=? n) && (n <=? 90) || (48 <=? n) && (n <=? 57).

Definition validCode (s : string) : bool :=
  (3 <=? String.length s) && (String.length s <=? 12) &&
  forallb codeChar (String.list_ascii_of_string s).

(** [socket.on('host:createRoom', ...)].  [code] is the wanted room code
    after [String(wantedId).trim().toUpperCase()], the empty string when the
    request has none; [gen] is what [genRoomId()] returns when it is
    called. *)
Definition createRoom (sv : server) (order : list string)
    (clientId socketId name code gen : string) : server * ack * list event :=
  let '(sv1, evs) := leaveExistingRooms sv order clientId in
  let create (roomId : string) :=
    let host := Player (if truthy name then name else "Host") 0 true socketId in
    let rm := Room clientId {[ clientId := host ]} ∅ Lobby None 1 in
    (Server (<[roomId := rm]> (rooms sv1)) (<[clientId := roomId]> (clientToRoom sv1))
       (globalLeaderboard sv1) (timers sv1) (nextTimer sv1),
     AckRoom roomId clientId Lobby 1 None, evs) in
  if truthy code then
    if negb (validCode code) then (sv1, AckFail "Invalid room code", evs)
    else if bool_decide (is_Some (rooms sv1 !! code))
         then (sv1, AckFail "Room already exists", evs)
         else create code
  else create gen.

(** [socket.on('user:leaveRoom', ...)] *)
Definition leaveRoom (sv : server) (clientId roomId : string)
    : server * ack * list event :=
  match rooms sv !! roomId with
  | None => (sv, AckFail "Room not found", [])
  | Some rm =>
      match r_players rm !! clientId with
      | None => (sv, AckFail "Not in room", [])
      | Some _ =>
          let c2r := delete clientId (clientToRoom sv) in
          if bool_decide (r_hostId rm = clientId) then
            (Server (delete roomId (rooms sv)) c2r
               (globalLeaderboard sv) (timers sv) (nextTimer sv),
             AckOk, [EvRoomClosed roomId])
          else
            (Server (<[roomId := setPlayers rm (delete clientId (r_players rm))]> (rooms sv))
               c2r (globalLeaderboard sv) (timers sv) (nextTimer sv),
             AckOk, [EvPlayerLeft roomId clientId])
      end
  end.

(** [socket.on('host:closeRoom', ...)] *)
Definition closeRoom (sv : server) (clientId roomId : string)
    : server * ack * list event :=
  match rooms sv !! roomId with
  | None => (sv, AckFail "Room not found", [])
  | Some rm =>
      if decide (r_hostId rm ≠ clientId) then (sv, AckFail "Only host can close", [])
      else
        (Server (delete roomId (rooms sv)) (forgetMembers (clientToRoom sv) (r_players rm))
           (globalLeaderboard sv) (timers sv) (nextTimer sv),
         AckOk, [EvRoomClosed roomId])
  end.

(** ** Runs of the server *)

(** What reaches the server: a socket connecting (the automatic resume), the
    events a socket sends, a socket going away, a grace timer firing. *)
Inductive request : Type :=
| ReqConnect (clientId socketId : string)
| ReqCreateRoom (order : list string) (clientId socketId name code gen : string)
| ReqJoinRoom (clientId socketId roomId name : string)
| ReqLeaveRoom (clientId roomId : string)
| ReqStartGame (draw : nat → nat) (clientId roomId : string)
| ReqEndGame (clientId roomId : string)
| ReqRestartGame (draw : nat → nat) (clientId roomId : string)
| ReqCloseRoom (clientId roomId : string)
| ReqMove (draw : nat → nat) (clientId roomId : string) (a b : option pos)
| ReqSetLevel (clientId roomId : string) (level : Z)
| ReqDisconnect (clientId : string)
| ReqTimer (h : nat).

(** The state a request leaves.  A move that throws does so before the
    handler has written anything. *)
Definition handle (sv : server) (req : request) : server :=
  match req with
  | ReqConnect clientId socketId => (resume sv clientId socketId).1
  | ReqCreateRoom order clientId socketId name code gen =>
      (createRoom sv order clientId socketId name code gen).1.1
  | ReqJoinRoom clientId socketId roomId name =>
      (joinRoom sv clientId socketId roomId name).1.1
  | ReqLeaveRoom clientId roomId => (leaveRoom sv clientId roomId).1.1
  | ReqStartGame draw clientId roomId => (startGame draw sv clientId roomId).1.1
  | ReqEndGame clientId roomId => (endGame sv clientId roomId).1.1
  | ReqRestartGame draw clientId roomId => (restartGame draw sv clientId roomId).1.1
  | ReqCloseRoom clientId roomId => (closeRoom sv clientId roomId).1.1
  | ReqMove draw clientId roomId a b =>
      match gameMove draw sv clientId roomId a b with
      | Done sv' _ _ => sv'
      | Throws => sv
      end
  | ReqSetLevel clientId roomId level => (setLevel sv clientId roomId level).1.1
  | ReqDisconnect clientId => (disconnect sv clientId).1
  | ReqTimer h => (timerFire sv h).1
  end.

Definition emptyServer : server := Server ∅ ∅ ∅ ∅ 0.

Definition run (reqs : list request) : server := foldl handle emptyServer reqs.

(** ** What every run keeps *)

(** A room keeps its level between 1 and 7; when it is in progress it has a
    board; a board it holds is a board of the game with an empty border. *)
Definition room_inv (rm : room) : Prop :=
  1 ≤ r_level rm ≤ 7 ∧
  (r_state rm = InProgress → is_Some (r_board rm)) ∧
  (∀ bd, r_board rm = Some bd → board_ok bd ∧ border_null bd).

Definition rooms_inv (sv : server) : Prop :=
  ∀ k rm, rooms sv !! k = Some rm → room_inv rm.

(** No pending timer has a handle the server has not given out yet. *)
Definition timers_inv (sv : server) : Prop :=
  ∀ h, nextTimer sv ≤ h → timers sv !! h = None.

Lemma rooms_inv_insert (sv sv' : server) (k : string) (rm : room) :
  rooms_inv sv → room_inv rm → rooms sv' = <[k := rm]> (rooms sv) → rooms_inv sv'.
Proof.
  intros Hrs Hrm Heq k' r. rewrite Heq. destruct (decide (k = k')) as [->|Hne].
  - rewrite lookup_insert_eq. by intros [= <-].
  - rewrite lookup_insert_ne by done. apply Hrs.
Qed.

Lemma rooms_inv_delete (sv sv' : server) (k : string) :
  rooms_inv sv → rooms sv' = delete k (rooms sv) → rooms_inv sv'.
Proof.
  intros Hrs Heq k' r. rewrite Heq. intros [_ Hin]%lookup_delete_Some. by eapply Hrs.
Qed.

Lemma room_inv_same rm rm' :
  r_level rm' = r_level rm → r_state rm' = r_state rm → r_board rm' = r_board rm →
  room_inv rm → room_inv rm'.
Proof. unfold room_inv. intros -> -> ->. done. Qed.

Lemma room_inv_fresh draw rm :
  room_inv rm →
  room_inv (Room (r_hostId rm) (resetScores (r_players rm)) (r_disconnectTimers rm)
              InProgress (Some (makeInitialBoard draw)) (r_level rm)).
Proof.
  intros (Hl & _ & _). split; [done|]. split; [by eauto|].
  intros bd Hbd. cbn [r_board] in Hbd.
  assert (bd = makeInitialBoard draw) as -> by congruence.
  split; [apply makeInitialBoard_ok|apply makeInitialBoard_border].
Qed.

(** Keeps the three fields [room_inv] is about. *)
Ltac same_room Hinv Hrm :=
  eapply room_inv_same; [..|by eapply Hinv, Hrm]; done.

Lemma leaveOne_inv clientId sv k : rooms_inv sv → rooms_inv (leaveOne clientId sv k).
Proof.
  intros Hinv. unfold leaveOne. destruct (rooms sv !! k) as [rm|] eqn:Hrm; [|done].
  eapply rooms_inv_insert; [exact Hinv| |reflexivity]. same_room Hinv Hrm.
Qed.

Lemma closeOne_inv sv k : rooms_inv sv → rooms_inv (closeOne sv k).
Proof.
  intros Hinv. unfold closeOne. destruct (rooms sv !! k) as [rm|] eqn:Hrm; [|done].
  by eapply rooms_inv_delete.
Qed.

Lemma foldl_leaveOne_inv clientId l sv :
  rooms_inv sv → rooms_inv (foldl (leaveOne clientId) sv l).
Proof.
  revert sv. induction l as [|k l IH]; intros sv Hinv; [done|].
  simpl. by apply IH, leaveOne_inv.
Qed.

Lemma foldl_closeOne_inv l sv : rooms_inv sv → rooms_inv (foldl closeOne sv l).
Proof.
  revert sv. induction l as [|k l IH]; intros sv Hinv; [done|].
  simpl. by apply IH, closeOne_inv.
Qed.

Lemma leaveExistingRooms_inv sv order clientId :
  rooms_inv sv → rooms_inv (leaveExistingRooms sv order clientId).1.
Proof.
  intros Hinv. unfold leaveExistingRooms. cbn [fst].
  by apply foldl_closeOne_inv, foldl_leaveOne_inv.
Qed.

Lemma createRoom_inv sv order clientId socketId name code gen :
  rooms_inv sv → rooms_inv (createRoom sv order clientId socketId name code gen).1.1.
Proof.
  intros Hinv. unfold createRoom.
  pose proof (leaveExistingRooms_inv sv order clientId Hinv) as H1.
  destruct (leaveExistingRooms sv order clientId) as [sv1 evs]. cbn [fst] in H1.
  assert (room_inv (Room clientId
            {[ clientId := Player (if truthy name then name else "Host") 0 true socketId ]}
            ∅ Lobby None 1)) as Hnew.
  { split; [simpl; lia|]. split; [done|done]. }
  destruct (truthy code); [destruct (negb (validCode code)); [done|];
                           destruct (bool_decide _); [done|]|];
    cbn [fst]; by eapply rooms_inv_insert.
Qed.

Lemma leavePrevious_inv sv clientId roomId :
  rooms_inv sv → rooms_inv (leavePrevious sv clientId roomId).1.
Proof.
  intros Hinv. unfold leavePrevious.
  destruct (clientToRoom sv !! clientId) as [prevId|]; [|done].
  destruct (truthy prevId && bool_decide _); [|done].
  destruct (rooms sv !! prevId) as [prev|] eqn:Hprev; [|done].
  destruct (decide (is_Some _)); [|done]. cbn [fst].
  eapply rooms_inv_insert; [exact Hinv| |reflexivity]. same_room Hinv Hprev.
Qed.

Lemma joinRoom_inv sv clientId socketId roomId name :
  rooms_inv sv → rooms_inv (joinRoom sv clientId socketId roomId name).1.1.
Proof.
  intros Hinv. unfold joinRoom.
  destruct (rooms sv !! roomId) as [rm|] eqn:Hrm; [|done].
  pose proof (leavePrevious_inv sv clientId roomId Hinv) as H1.
  destruct (leavePrevious sv clientId roomId) as [sv1 evs1]. cbn [fst] in H1.
  destruct (r_players rm !! clientId) as [p|].
  - unfold cancelTimer. cbn [setPlayers r_disconnectTimers].
    destruct (r_disconnectTimers rm !! clientId); cbn [fst];
      (eapply (rooms_inv_insert sv1); [exact H1| |reflexivity]); same_room Hinv Hrm.
  - cbn [fst]. eapply (rooms_inv_insert sv1); [exact H1| |reflexivity]. same_room Hinv Hrm.
Qed.

Lemma resume_inv sv clientId socketId :
  rooms_inv sv → rooms_inv (resume sv clientId socketId).1.
Proof.
  intros Hinv. unfold resume.
  destruct (clientToRoom sv !! clientId) as [roomId|]; [|done].
  destruct (truthy roomId); [|done].
  destruct (rooms sv !! roomId) as [rm|] eqn:Hrm; [|done].
  destruct (r_players rm !! clientId) as [p|]; [|done].
  unfold cancelTimer. destruct (r_disconnectTimers rm !! clientId); cbn [fst];
    (eapply (rooms_inv_insert sv); [exact Hinv| |reflexivity]); same_room Hinv Hrm.
Qed.

Lemma leaveRoom_inv sv clientId roomId :
  rooms_inv sv → rooms_inv (leaveRoom sv clientId roomId).1.1.
Proof.
  intros Hinv. unfold leaveRoom.
  destruct (rooms sv !! roomId) as [rm|] eqn:Hrm; [|done].
  destruct (r_players rm !! clientId) as [p|]; [|done].
  destruct (bool_decide _); cbn [fst].
  - by eapply rooms_inv_delete.
  - eapply (rooms_inv_insert sv); [exact Hinv| |reflexivity]. same_room Hinv Hrm.
Qed.

Lemma closeRoom_inv sv clientId roomId :
  rooms_inv sv → rooms_inv (closeRoom sv clientId roomId).1.1.
Proof.
  intros Hinv. unfold closeRoom.
  destruct (rooms sv !! roomId) as [rm|] eqn:Hrm; [|done].
  destruct (decide _); [done|]. cbn [fst]. by eapply rooms_inv_delete.
Qed.

Lemma startGame_inv draw sv clientId roomId :
  rooms_inv sv → rooms_inv (startGame draw sv clientId roomId).1.1.
Proof.
  intros Hinv. unfold startGame.
  destruct (rooms sv !! roomId) as [rm|] eqn:Hrm; [|done].
  destruct (decide _); [done|]. cbn [fst].
  eapply (rooms_inv_insert sv); [exact Hinv| |reflexivity].
  by eapply room_inv_fresh, Hinv.
Qed.

Lemma restartGame_inv draw sv clientId roomId :
  rooms_inv sv → rooms_inv (restartGame draw sv clientId roomId).1.1.
Proof.
  intros Hinv. unfold restartGame.
  destruct (rooms sv !! roomId) as [rm|] eqn:Hrm; [|done].
  destruct (decide _); [done|]. cbn [fst].
  eapply (rooms_inv_insert sv); [exact Hinv| |reflexivity].
  by eapply room_inv_fresh, Hinv.
Qed.

Lemma endGame_inv sv clientId roomId :
  rooms_inv sv → rooms_inv (endGame sv clientId roomId).1.1.
Proof.
  intros Hinv. unfold endGame.
  destruct (rooms sv !! roomId) as [rm|] eqn:Hrm; [|done].
  destruct (decide _); [done|]. cbn [fst].
  eapply (rooms_inv_insert sv); [exact Hinv| |reflexivity].
  destruct (Hinv _ _ Hrm) as (Hl & _ & Hb). split; [done|]. split; [done|done].
Qed.

Lemma setLevel_inv sv clientId roomId level :
  rooms_inv sv → rooms_inv (setLevel sv clientId roomId level).1.1.
Proof.
  intros Hinv. unfold setLevel.
  destruct (rooms sv !! roomId) as [rm|] eqn:Hrm; [|done].
  destruct (decide _); [done|].
  destruct ((level <? 1)%Z || (7 <? level)%Z) eqn:Hlv; [done|]. cbn [fst].
  apply orb_false_iff in Hlv as [H1%Z.ltb_ge H7%Z.ltb_ge].
  eapply (rooms_inv_insert sv); [exact Hinv| |reflexivity].
  destruct (Hinv _ _ Hrm) as (Hl & Hs & Hb). split; [simpl; lia|]. split; [done|done].
Qed.

Lemma disconnect_inv sv clientId :
  rooms_inv sv → rooms_inv (disconnect sv clientId).1.
Proof.
  intros Hinv. unfold disconnect.
  destruct (clientToRoom sv !! clientId) as [roomId|]; [|done].
  destruct (truthy roomId); [|done]. cbn [negb].
  destruct (rooms sv !! roomId) as [rm|] eqn:Hrm; [|done].
  destruct (r_players rm !! clientId) as [p|]; [|done]. cbn [fst].
  eapply (rooms_inv_insert sv); [exact Hinv| |reflexivity]. same_room Hinv Hrm.
Qed.

Lemma timerFire_inv sv h :
  rooms_inv sv → rooms_inv (timerFire sv h).1.
Proof.
  intros Hinv. unfold timerFire.
  destruct (timers sv !! h) as [tm|]; [|done]. cbn [rooms setTimers].
  destruct (rooms sv !! tm_roomId tm) as [still|] eqn:Hrm; [|done].
  destruct (r_players still !! tm_clientId tm) as [p|]; [|done].
  destruct (pl_connected p); [done|]. destruct (tm_wasHost tm); cbn [fst].
  - by eapply rooms_inv_delete.
  - eapply (rooms_inv_insert sv); [exact Hinv| |reflexivity]. same_room Hinv Hrm.
Qed.

Lemma gameMove_inv draw sv clientId roomId a b sv' ak evs :
  rooms_inv sv → gameMove draw sv clientId roomId a b = Done sv' ak evs →
  rooms_inv sv'.
Proof.
  intros Hinv. unfold gameMove.
  destruct (rooms sv !! roomId) as [rm|] eqn:Hrm; [|by intros [= <- _ _]].
  destruct (decide (r_state rm ≠ InProgress)) as [|Hst]; [by intros [= <- _ _]|].
  apply dec_stable in Hst.
  destruct a as [pa|], b as [pb|]; try by intros [= <- _ _].
  destruct (Hinv _ _ Hrm) as (Hl & _ & Hboard).
  destruct (r_board rm) as [bd|] eqn:Hbd; [|done].
  destruct (Hboard bd eq_refl) as [Hok Hborder].
  destruct (boardCleared bd); [by intros [= <- _ _]|]. cbn [negb].
  destruct (looseNull _ || looseNull _ || negb _) eqn:Hm; [by intros [= <- _ _]|].
  apply tiles_match in Hm as (v & Hv1 & Hv2).
  destruct (findPathLimitedTurns bd pa pb 2) as [| |path]; [done|by intros [= <- _ _]|].
  destruct (award _ _ _) as [ps lb].
  set (level := if decide (r_level rm = 0) then 1 else r_level rm).
  destruct (applyLevel_board_ok bd level pa pb Hok Hborder) as (Hok1 & Hb1).
  { by eapply tile_interior; [apply Hok|..]. }
  { by eapply tile_interior; [apply Hok|..]. }
  destruct (boardCleared _); [|destruct (negb _)]; intros [= <- _ _];
    (eapply (rooms_inv_insert sv); [exact Hinv| |reflexivity]).
  - split; [simpl; pose proof (Nat.mod_upper_bound (r_level rm) 7); lia|].
    split; [done|]. by intros ? [= <-].
  - split; [done|]. split; [by eauto|]. intros ? [= <-].
    split; [by apply rerandomRemaining_ok|by apply rerandomRemaining_border; [apply Hok1|]].
  - split; [done|]. split; [by eauto|]. by intros ? [= <-].
Qed.

Lemma handle_rooms_inv sv req : rooms_inv sv → rooms_inv (handle sv req).
Proof.
  intros Hinv. destruct req; cbn [handle];
    auto using resume_inv, createRoom_inv, joinRoom_inv, leaveRoom_inv, startGame_inv,
      endGame_inv, restartGame_inv, closeRoom_inv, setLevel_inv, disconnect_inv,
      timerFire_inv.
  destruct (gameMove draw sv clientId roomId a b) eqn:Hmove; [done|].
  by eapply gameMove_inv.
Qed.

(** *** Timer handles *)

Lemma foldl_leaveOne_timers clientId l sv :
  timers (foldl (leaveOne clientId) sv l) = timers sv ∧
  nextTimer (foldl (leaveOne clientId) sv l) = nextTimer sv.
Proof.
  revert sv. induction l as [|k l IH]; intros sv; [done|]. simpl.
  destruct (IH (leaveOne clientId sv k)) as [-> ->].
  unfold leaveOne. by destruct (rooms sv !! k).
Qed.

Lemma foldl_closeOne_timers l sv :
  timers (foldl closeOne sv l) = timers sv ∧
  nextTimer (foldl closeOne sv l) = nextTimer sv.
Proof.
  revert sv. induction l as [|k l IH]; intros sv; [done|]. simpl.
  destruct (IH (closeOne sv k)) as [-> ->].
  unfold closeOne. by destruct (rooms sv !! k).
Qed.

Lemma leaveExistingRooms_timers sv order clientId :
  timers (leaveExistingRooms sv order clientId).1 = timers sv ∧
  nextTimer (leaveExistingRooms sv order clientId).1 = nextTimer sv.
Proof.
  unfold leaveExistingRooms. cbn [fst].
  destruct (foldl_closeOne_timers
    (filter (λ k, isHostOf sv clientId k = true) (filter (λ k, isMember sv clientId k = true) order))
    (foldl (leaveOne clientId) sv
       (filter (λ k, isHostOf sv clientId k = false)
          (filter (λ k, isMember sv clientId k = true) order)))) as [-> ->].
  apply foldl_leaveOne_timers.
Qed.

Lemma timers_inv_delete (sv sv' : server) h :
  timers_inv sv → timers sv' = delete h (timers sv) → nextTimer sv' = nextTimer sv →
  timers_inv sv'.
Proof.
  intros Hinv Ht Hn h' Hh. rewrite Ht. apply lookup_delete_None. right. apply Hinv. lia.
Qed.

Lemma timers_inv_same (sv sv' : server) :
  timers_inv sv → timers sv' = timers sv → nextTimer sv' = nextTimer sv → timers_inv sv'.
Proof. intros Hinv Ht Hn h' Hh. rewrite Ht. apply Hinv. lia. Qed.

Lemma leavePrevious_next sv clientId roomId :
  nextTimer (leavePrevious sv clientId roomId).1 = nextTimer sv.
Proof.
  unfold leavePrevious. destruct (clientToRoom sv !! clientId) as [prevId|]; [|done].
  destruct (truthy prevId && bool_decide _); [|done].
  destruct (rooms sv !! prevId) as [prev|]; [|done]. by destruct (decide (is_Some _)).
Qed.

Lemma handle_timers_inv sv req : timers_inv sv → timers_inv (handle sv req).
Proof.
  intros Hinv. destruct req; cbn [handle].
  - unfold resume. repeat case_match; try done; simplify_eq; cbn [fst].
    all: unfold cancelTimer in *; repeat case_match; simplify_eq;
      first [ by eapply timers_inv_delete | by eapply timers_inv_same ].
  - unfold createRoom.
    destruct (leaveExistingRooms_timers sv order clientId) as [Ht Hn].
    destruct (leaveExistingRooms sv order clientId) as [sv1 evs]. cbn [fst] in Ht, Hn.
    repeat case_match; cbn [fst]; by eapply timers_inv_same.
  - unfold joinRoom. destruct (rooms sv !! roomId) as [rm|]; [|done].
    pose proof (leavePrevious_timers sv clientId roomId) as Ht.
    pose proof (leavePrevious_next sv clientId roomId) as Hn.
    destruct (leavePrevious sv clientId roomId) as [sv1 evs1]. cbn [fst] in Ht, Hn.
    destruct (r_players rm !! clientId) as [p|]; [|by eapply timers_inv_same].
    unfold cancelTimer. cbn [setPlayers r_disconnectTimers].
    destruct (r_disconnectTimers rm !! clientId); cbn [fst].
    + eapply (timers_inv_delete sv); [done| |done]. cbn [timers setTimers]. by rewrite Ht.
    + by eapply timers_inv_same.
  - unfold leaveRoom. repeat case_match; by eapply timers_inv_same.
  - unfold startGame. repeat case_match; by eapply timers_inv_same.
  - unfold endGame. repeat case_match; by eapply timers_inv_same.
  - unfold restartGame. repeat case_match; by eapply timers_inv_same.
  - unfold closeRoom. repeat case_match; by eapply timers_inv_same.
  - destruct (gameMove draw sv clientId roomId a b) as [|sv' ak evs] eqn:Hmove; [done|].
    revert Hmove. unfold gameMove.
    repeat case_match; intros [= <- _ _]; by eapply timers_inv_same.
  - unfold setLevel. repeat case_match; by eapply timers_inv_same.
  - unfold disconnect. repeat case_match; try done. cbn [fst].
    intros h Hh. cbn [timers nextTimer] in *. rewrite lookup_insert_ne by lia.
    apply Hinv. lia.
  - unfold timerFire. repeat case_match; try done; cbn [fst];
      by eapply timers_inv_delete.
Qed.

(** Every state a run reaches keeps the invariants. *)
Definition server_inv (sv : server) : Prop := rooms_inv sv ∧ timers_inv sv.

Lemma run_snoc reqs req : run (reqs ++ [req]) = handle (run reqs) req.
Proof. unfold run. by rewrite foldl_app. Qed.

Lemma run_inv reqs : server_inv (run reqs).
Proof.
  induction reqs as [|req reqs IH] using rev_ind; [done|].
  rewrite run_snoc. destruct IH. split; [by apply handle_rooms_inv|by apply handle_timers_inv].
Qed.

(** The run that creates one room. *)
Definition demoRun : list request :=
  [ReqCreateRoom [] "alice-0001" "s1" "Alice" "ROOM" "GEN1"].

(** X14: in every state a run of the server reaches, every room has its level
    between 1 and 7, a room in progress has a board, and every board a room
    holds has 11 x 18 cells, each [null] or a tile type below 33, with an
    empty border: what [rerandomRemaining], [applyLevel] and the path
    finder are proved under. *)
Theorem run_keeps reqs k rm :
  rooms (run reqs) !! k = Some rm →
  1 ≤ r_level rm ≤ 7 ∧
  (r_state rm = InProgress → ∃ bd, r_board rm = Some bd) ∧
  (∀ bd, r_board rm = Some bd → board_ok bd ∧ border_null bd).
Proof.
  intros Hrm. destruct (run_inv reqs) as [Hinv _].
  destruct (Hinv k rm Hrm) as (Hl & Hs & Hb). split; [done|]. split; [|done].
  intros Hst. destruct (Hs Hst) as [bd Hbd]. by exists bd.
Qed.

Lemma run_keeps_witness :
  ∃ rm, rooms (run demoRun) !! "ROOM" = Some rm ∧ 1 ≤ r_level rm ≤ 7.
Proof.
  eexists. split; [by vm_compute|].
  eapply (run_keeps demoRun "ROOM"). by vm_compute.
Defined.

Lemma rooms_inv_ok sv : rooms_inv sv → rooms_ok sv.
Proof.
  intros Hinv k rm Hrm Hst. destruct (Hinv k rm Hrm) as (_ & Hs & Hb).
  destruct (Hs Hst) as [bd Hbd]. exists bd. split; [done|]. by apply Hb.
Qed.

(** X15: in every state a run reaches, the [game:move] listener throws
    exactly when the request carries no payload object or its acknowledgment
    argument is truthy and no function; every other request, whatever the
    client, the room id and the (integer) coordinates sent, returns. *)
Theorem run_move_throws_iff reqs draw clientId payload ack :
  (∃ sv evs, onGameMove draw (run reqs) clientId payload ack = Uncaught sv evs) ↔
  payload = None ∨ ack = AckNotFun.
Proof.
  destruct (run_inv reqs) as [Hinv _]. apply rooms_inv_ok in Hinv.
  destruct payload as [p|]; [|split; [by left|by eexists _, _]].
  destruct (moveBody_returns draw (run reqs) clientId p Hinv) as (sv' & reply & evs & Hb).
  destruct (onGameMove_done _ _ _ _ _ _ _ Hb) as (Hfun & Hnone & Hbad).
  split.
  - intros (sv & evs' & Hu). right. destruct ack; [congruence|congruence|done].
  - intros [Hp | ->]; [done|]. by eexists _, _.
Qed.

(** The state a call of the listener leaves, thrown or returned. *)
Definition stateOf (h : handled) : server :=
  match h with Uncaught sv _ | Returned sv _ _ => sv end.

(** Runs list moves that carry their payload: the listener's other calls
    leave the state as it was, or the state such a move leaves. *)
Lemma onGameMove_handle draw sv clientId payload ack :
  stateOf (onGameMove draw sv clientId payload ack) = sv ∨
  ∃ roomId a b,
    stateOf (onGameMove draw sv clientId payload ack)
    = handle sv (ReqMove draw clientId roomId a b).
Proof.
  destruct payload as [[[roomId|] a b]|]; [|left; by destruct ack|by left].
  right. exists roomId, a, b. unfold onGameMove, moveBody. cbn [mp_roomId mp_a mp_b handle].
  destruct (gameMove draw sv clientId roomId a b) as [|sv' reply evs]; [done|].
  by destruct ack.
Qed.

(** ** The leaderboard *)

Lemma foldl_leaveOne_leaderboard clientId l sv :
  globalLeaderboard (foldl (leaveOne clientId) sv l) = globalLeaderboard sv.
Proof.
  revert sv. induction l as [|k l IH]; intros sv; [done|]. simpl. rewrite IH.
  unfold leaveOne. by destruct (rooms sv !! k).
Qed.

Lemma foldl_closeOne_leaderboard l sv :
  globalLeaderboard (foldl closeOne sv l) = globalLeaderboard sv.
Proof.
  revert sv. induction l as [|k l IH]; intros sv; [done|]. simpl. rewrite IH.
  unfold closeOne. by destruct (rooms sv !! k).
Qed.

Lemma leavePrevious_leaderboard sv clientId roomId :
  globalLeaderboard (leavePrevious sv clientId roomId).1 = globalLeaderboard sv.
Proof.
  unfold leavePrevious. destruct (clientToRoom sv !! clientId) as [prevId|]; [|done].
  destruct (truthy prevId && bool_decide _); [|done].
  destruct (rooms sv !! prevId) as [prev|]; [|done]. by destruct (decide (is_Some _)).
Qed.

Lemma handle_leaderboard sv req :
  globalLeaderboard (handle sv req) = globalLeaderboard sv ∨
  ∃ draw clientId roomId a b rm p evs,
    req = ReqMove draw clientId roomId a b ∧
    gameMove draw sv clientId roomId a b = Done (handle sv req) AckOk evs ∧
    rooms sv !! roomId = Some rm ∧ r_players rm !! clientId = Some p ∧
    globalLeaderboard (handle sv req)
      = <[pl_name p := default 0 (globalLeaderboard sv !! pl_name p) + 10]>
          (globalLeaderboard sv).
Proof.
  destruct req; cbn [handle].
  - left. unfold resume.
    destruct (clientToRoom sv !! clientId) as [roomId|]; [|done].
    destruct (truthy roomId); [|done].
    destruct (rooms sv !! roomId) as [rm|]; [|done].
    destruct (r_players rm !! clientId) as [p|]; [|done].
    unfold cancelTimer. by destruct (r_disconnectTimers rm !! clientId).
  - left. unfold createRoom, leaveExistingRooms.
    assert (∀ l1 l2, globalLeaderboard (foldl closeOne (foldl (leaveOne clientId) sv l1) l2)
                     = globalLeaderboard sv) as H.
    { intros. by rewrite foldl_closeOne_leaderboard, foldl_leaveOne_leaderboard. }
    repeat case_match; cbn [fst globalLeaderboard]; apply H.
  - left. unfold joinRoom. destruct (rooms sv !! roomId) as [rm|]; [|done].
    pose proof (leavePrevious_leaderboard sv clientId roomId) as Hl.
    destruct (leavePrevious sv clientId roomId) as [sv1 evs1]. cbn [fst] in Hl.
    destruct (r_players rm !! clientId) as [p|]; [|done].
    unfold cancelTimer. cbn [setPlayers r_disconnectTimers].
    by destruct (r_disconnectTimers rm !! clientId).
  - left. unfold leaveRoom. by repeat case_match.
  - left. unfold startGame. by repeat case_match.
  - left. unfold endGame. by repeat case_match.
  - left. unfold restartGame. by repeat case_match.
  - left. unfold closeRoom. by repeat case_match.
  - destruct (gameMove draw sv clientId roomId a b) as [|sv' ak evs] eqn:Hmove; [by left|].
    destruct ak as [err| |].
    + left. revert Hmove. unfold gameMove. by repeat case_match; intros [= <- _ _].
    + pose proof Hmove as Hacc. apply gameMove_accepted in Hacc
        as (rm & bd & pa & pb & path & Hrm & Hst & Hbd & -> & -> & Hp & H).
      cbv zeta in H. unfold award in H.
      destruct (r_players rm !! clientId) as [p|] eqn:Hpl.
      * right. exists draw, clientId, roomId, (Some pa), (Some pb), rm, p, evs.
        split; [done|]. split; [done|]. split; [done|]. split; [done|].
        by repeat case_match; destruct H as [-> _].
      * left. by repeat case_match; destruct H as [-> _].
    + exfalso. revert Hmove. unfold gameMove. by repeat case_match.
  - left. unfold setLevel. by repeat case_match.
  - left. unfold disconnect. by repeat case_match.
  - left. unfold timerFire. by repeat case_match.
Qed.

(** X16: no request lowers or removes an entry of the leaderboard; the only
    change a request makes is the award of an accepted move: 10 points more
    under the name of the mover, when the mover is a player of the room. *)
Theorem leaderboard_grows sv req name :
  default 0 (globalLeaderboard sv !! name)
    ≤ default 0 (globalLeaderboard (handle sv req) !! name) ∧
  (is_Some (globalLeaderboard sv !! name) →
   is_Some (globalLeaderboard (handle sv req) !! name)) ∧
  (globalLeaderboard (handle sv req) ≠ globalLeaderboard sv →
   ∃ draw clientId roomId a b rm p evs,
     req = ReqMove draw clientId roomId a b ∧
     gameMove draw sv clientId roomId a b = Done (handle sv req) AckOk evs ∧
     rooms sv !! roomId = Some rm ∧ r_players rm !! clientId = Some p ∧
     globalLeaderboard (handle sv req)
       = <[pl_name p := default 0 (globalLeaderboard sv !! pl_name p) + 10]>
           (globalLeaderboard sv)).
Proof.
  destruct (handle_leaderboard sv req) as [Heq | Hmove].
  - rewrite Heq. done.
  - split; [|split; [|done]];
      destruct Hmove as (draw & clientId & roomId & a & b & rm & p & evs & _ & _ & _ & _ & ->).
    + destruct (decide (pl_name p = name)) as [->|Hne].
      * rewrite lookup_insert_eq. simpl. lia.
      * by rewrite lookup_insert_ne.
    + intros Hsome. destruct (decide (pl_name p = name)) as [->|Hne].
      * rewrite lookup_insert_eq. by eauto.
      * by rewrite lookup_insert_ne.
Qed.

(** ** Creating a room *)

Lemma foldl_leaveOne_rooms clientId l sv k :
  rooms (foldl (leaveOne clientId) sv l) !! k =
    if decide (k ∈ l)
    then (λ rm, setPlayers rm (delete clientId (r_players rm))) <$> rooms sv !! k
    else rooms sv !! k.
Proof.
  revert sv. induction l as [|x l IH]; intros sv; [done|]. simpl. rewrite IH.
  assert (rooms (leaveOne clientId sv x) !! k =
          if decide (k = x)
          then (λ rm, setPlayers rm (delete clientId (r_players rm))) <$> rooms sv !! k
          else rooms sv !! k) as Hone.
  { unfold leaveOne. destruct (decide (k = x)) as [->|Hne].
    - destruct (rooms sv !! x) as [rm|] eqn:Hx; [|by rewrite Hx].
      cbn [rooms]. by rewrite lookup_insert_eq.
    - destruct (rooms sv !! x) as [rm|] eqn:Hx; [|done].
      cbn [rooms]. by rewrite lookup_insert_ne. }
  rewrite Hone.
  destruct (decide (k = x)) as [->|Hne].
  - rewrite (decide_True (P := x ∈ x :: l)) by (by left).
    destruct (decide (x ∈ l)); [|done].
    destruct (rooms sv !! x) as [rm|]; [|done]. simpl. unfold setPlayers. simpl.
    by rewrite delete_delete_eq.
  - destruct (decide (k ∈ l)) as [Hin|Hnin].
    + by rewrite decide_True by (by right).
    + rewrite decide_False; [done|]. by intros [?|?]%elem_of_cons.
Qed.

Lemma foldl_closeOne_rooms l sv k :
  rooms (foldl closeOne sv l) !! k = if decide (k ∈ l) then None else rooms sv !! k.
Proof.
  revert sv. induction l as [|x l IH]; intros sv; [done|]. simpl. rewrite IH.
  assert (rooms (closeOne sv x) !! k = if decide (k = x) then None else rooms sv !! k)
    as Hone.
  { unfold closeOne. destruct (decide (k = x)) as [->|Hne].
    - destruct (rooms sv !! x) as [rm|] eqn:Hx; [|done].
      cbn [rooms]. by rewrite lookup_delete_eq.
    - destruct (rooms sv !! x) as [rm|] eqn:Hx; [|done].
      cbn [rooms]. by rewrite lookup_delete_ne. }
  rewrite Hone.
  destruct (decide (k = x)) as [->|Hne].
  - rewrite (decide_True (P := x ∈ x :: l)) by (by left). by destruct (decide (x ∈ l)).
  - destruct (decide (k ∈ l)) as [Hin|Hnin].
    + by rewrite decide_True by (by right).
    + rewrite decide_False; [done|]. by intros [?|?]%elem_of_cons.
Qed.

(** After [leaveExistingRooms] the client is a player of no room. *)
Lemma leaveExistingRooms_none sv order clientId k rm :
  (∀ k, is_Some (rooms sv !! k) → k ∈ order) →
  rooms (leaveExistingRooms sv order clientId).1 !! k = Some rm →
  r_players rm !! clientId = None.
Proof.
  intros Hcover. unfold leaveExistingRooms. cbn [fst].
  rewrite foldl_closeOne_rooms, foldl_leaveOne_rooms.
  destruct (decide (k ∈ filter _ (filter _ order))) as [|Hnclose]; [done|].
  destruct (decide (k ∈ filter _ (filter _ order))) as [Hleave|Hnleave].
  - destruct (rooms sv !! k) as [rm0|]; [|done]. intros [= <-]. simpl.
    apply lookup_delete_eq.
  - intros Hk. destruct (r_players rm !! clientId) as [p|] eqn:Hp; [|done]. exfalso.
    assert (k ∈ order) as Hin by (apply Hcover; by rewrite Hk).
    assert (isMember sv clientId k = true) as Hmem.
    { unfold isMember. rewrite Hk. apply bool_decide_eq_true. by rewrite Hp. }
    destruct (isHostOf sv clientId k) eqn:Hhost.
    + apply Hnclose. apply list_elem_of_filter. split; [done|].
      by apply list_elem_of_filter.
    + apply Hnleave. apply list_elem_of_filter. split; [done|].
      by apply list_elem_of_filter.
Qed.

(** X17: [host:createRoom]: the client first leaves every room it is a player
    of and closes those it hosts, also when the request is then refused
    (for a code that is not 3 to 12 capitals and digits, or is taken).  An
    accepted request files the client under a new room in the lobby at
    level 1, of which it is the host and the only player; a code that is
    drawn replaces a room that has it.  Afterwards the client is a player of
    no room but the new one. *)
Theorem createRoom_outcome sv order clientId socketId name code gen sv' ak evs :
  (∀ k, is_Some (rooms sv !! k) → k ∈ order) →
  createRoom sv order clientId socketId name code gen = (sv', ak, evs) →
  let left := leaveExistingRooms sv order clientId in
  let roomId := if truthy code then code else gen in
  let new := Room clientId
               {[ clientId := Player (if truthy name then name else "Host") 0 true socketId ]}
               ∅ Lobby None 1 in
  evs = left.2 ∧
  (if truthy code && (negb (validCode code) || bool_decide (is_Some (rooms left.1 !! code)))
   then sv' = left.1 ∧
        ak = AckFail (if validCode code then "Room already exists" else "Invalid room code")
   else ak = AckRoom roomId clientId Lobby 1 None ∧
        rooms sv' = <[roomId := new]> (rooms left.1) ∧
        clientToRoom sv' !! clientId = Some roomId) ∧
  (∀ k rm, rooms sv' !! k = Some rm → is_Some (r_players rm !! clientId) →
           k = roomId ∧ rm = new).
Proof.
  intros Hcover. cbv zeta. unfold createRoom.
  pose proof (leaveExistingRooms_none sv order clientId) as Hnone.
  destruct (leaveExistingRooms sv order clientId) as [sv1 evs1]. cbn [fst snd] in *.
  assert (∀ k rm, rooms sv1 !! k = Some rm → ¬ is_Some (r_players rm !! clientId)) as Hno.
  { intros k rm Hk [p Hp]. by rewrite (Hnone k rm Hcover Hk) in Hp. }
  assert (∀ roomId new k rm,
            <[roomId := new]> (rooms sv1) !! k = Some rm →
            is_Some (r_players rm !! clientId) → k = roomId ∧ rm = new) as Hsole.
  { intros roomId new k rm Hk Hp. destruct (decide (roomId = k)) as [->|Hne].
    - rewrite lookup_insert_eq in Hk. by injection Hk as <-.
    - rewrite lookup_insert_ne in Hk by done. by destruct (Hno k rm Hk). }
  destruct (truthy code); cbn [andb].
  - destruct (validCode code); cbn [negb orb].
    + destruct (bool_decide (is_Some (rooms sv1 !! code))).
      * intros [= <- <- <-]. split; [done|]. split; [done|].
        intros k rm Hk Hp. by destruct (Hno k rm Hk).
      * intros [= <- <- <-]. split; [done|]. split; [|by apply Hsole].
        split; [done|]. split; [done|]. apply lookup_insert_eq.
    + intros [= <- <- <-]. split; [done|]. split; [done|].
      intros k rm Hk Hp. by destruct (Hno k rm Hk).
  - intros [= <- <- <-]. split; [done|]. split; [|by apply Hsole].
    split; [done|]. split; [done|]. apply lookup_insert_eq.
Qed.

Lemma createRoom_outcome_witness :
  clientToRoom (run demoRun) !! "alice-0001" = Some "ROOM".
Proof.
  destruct (createRoom_outcome emptyServer [] "alice-0001" "s1" "Alice" "ROOM" "GEN1"
              (run demoRun) (AckRoom "ROOM" "alice-0001" Lobby 1 None) [])
    as (_ & H & _).
  - intros k [x Hx]. cbn [rooms emptyServer] in Hx. by rewrite lookup_empty in Hx.
  - by vm_compute.
  - cbv zeta in H. destruct (truthy "ROOM" && _) eqn:E; [by vm_compute in E|].
    by destruct H as (_ & _ & H).
Defined.

(** ** Going away and coming back *)

(** X25: a player who is filed under a room, has no timer registered there, and
    whose socket goes away and comes back before the timer fires, is back as
    before: same name, score and room, no timer left pending or registered;
    only the socket id is the new one (and one timer handle is used up). *)
Theorem disconnect_resume sv clientId socketId roomId rm p :
  clientToRoom sv !! clientId = Some roomId → truthy roomId = true →
  rooms sv !! roomId = Some rm → r_players rm !! clientId = Some p →
  r_disconnectTimers rm !! clientId = None → timers sv !! nextTimer sv = None →
  resume (disconnect sv clientId).1 clientId socketId =
    (Server
       (<[roomId := setPlayers rm
                      (<[clientId := Player (pl_name p) (pl_score p) true socketId]>
                         (r_players rm))]> (rooms sv))
       (clientToRoom sv) (globalLeaderboard sv) (timers sv) (S (nextTimer sv)),
     [EvPlayerRejoined roomId clientId]).
Proof.
  intros Hc Ht Hrm Hp Hdt Hfresh.
  set (p' := Player (pl_name p) (pl_score p) false (pl_socketId p)).
  set (rm' := setDisconnectTimers (setPlayers rm (<[clientId := p']> (r_players rm)))
                (<[clientId := nextTimer sv]> (r_disconnectTimers rm))).
  set (sv1 := Server (<[roomId := rm']> (rooms sv)) (clientToRoom sv) (globalLeaderboard sv)
                (<[nextTimer sv := Timer roomId clientId (bool_decide (r_hostId rm = clientId))]>
                   (timers sv)) (S (nextTimer sv))).
  assert (disconnect sv clientId = (sv1, [EvPlayerDisconnected roomId clientId])) as ->.
  { unfold disconnect. by rewrite Hc, Ht, Hrm, Hp. }
  cbn [fst].
  assert (rooms sv1 !! roomId = Some rm') as Hrm' by apply lookup_insert_eq.
  assert (r_players rm' !! clientId = Some p') as Hp' by apply lookup_insert_eq.
  assert (r_disconnectTimers rm' !! clientId = Some (nextTimer sv)) as Hdt'
    by apply lookup_insert_eq.
  rewrite (resume_known sv1 clientId socketId roomId rm' p' Hc Ht Hrm' Hp'), Hdt'.
  f_equal. unfold sv1, rm', rejoined, reconnectPlayer.
  cbn [rooms clientToRoom globalLeaderboard timers nextTimer setDisconnectTimers setPlayers
       r_hostId r_players r_disconnectTimers r_state r_board r_level].
  f_equal.
  - rewrite insert_insert_eq. f_equal. unfold setPlayers. f_equal.
    + by rewrite insert_insert_eq.
    + by rewrite delete_insert_eq, (delete_id _ _ Hdt).
  - by rewrite delete_insert_eq, (delete_id _ _ Hfresh).
Qed.

Lemma disconnect_resume_witness :
  resume (disconnect demoServer "alice").1 "alice" "s9" =
    (Server {[ "ROOM" := setPlayers demoRoom {[ "alice" := Player "Alice" 30 true "s9" ]} ]}
       {[ "alice" := "ROOM" ]} ∅ ∅ 1,
     [EvPlayerRejoined "ROOM" "alice"]).
Proof.
  rewrite (disconnect_resume demoServer "alice" "s9" "ROOM" demoRoom
             (Player "Alice" 30 true "s1") eq_refl eq_refl eq_refl eq_refl eq_refl eq_refl).
  by vm_compute.
Defined.

(** ** Who may do what *)

(** X20: the requests of the host: from any other client they change nothing. *)
Theorem host_only draw sv clientId roomId rm level :
  rooms sv !! roomId = Some rm → r_hostId rm ≠ clientId →
  startGame draw sv clientId roomId = (sv, AckFail "Only host can start", []) ∧
  endGame sv clientId roomId = (sv, AckFail "Only host can end", []) ∧
  restartGame draw sv clientId roomId = (sv, AckFail "Only host can restart", []) ∧
  closeRoom sv clientId roomId = (sv, AckFail "Only host can close", []) ∧
  setLevel sv clientId roomId level = (sv, AckFail "Only host can set level", []).
Proof.
  intros Hrm Hne. unfold startGame, endGame, restartGame, closeRoom, setLevel.
  rewrite Hrm. by rewrite !decide_True.
Qed.

Lemma host_only_witness :
  closeRoom demoServer "bob" "ROOM" = (demoServer, AckFail "Only host can close", []).
Proof.
  by destruct (host_only (λ i, i) demoServer "bob" "ROOM" demoRoom 3 eq_refl)
    as (_ & _ & _ & H & _).
Defined.

(** What [room_inv] and the clients see of a room. *)
Definition gameOf (rm : room) : roomState * option board * nat :=
  (r_state rm, r_board rm, r_level rm).


(** X23: an accepted move gives the sender 10 points in the room and 10 points
    under its name on the leaderboard when it is a player of the room, and
    nothing otherwise; it changes no other score, and neither the host nor
    the registered timers. *)
Theorem gameMove_award draw sv clientId roomId a b sv' evs :
  gameMove draw sv clientId roomId a b = Done sv' AckOk evs →
  ∃ rm rm',
    rooms sv !! roomId = Some rm ∧ rooms sv' !! roomId = Some rm' ∧
    r_hostId rm' = r_hostId rm ∧ r_disconnectTimers rm' = r_disconnectTimers rm ∧
    (∀ k, k ≠ roomId → rooms sv' !! k = rooms sv !! k) ∧
    clientToRoom sv' = clientToRoom sv ∧ timers sv' = timers sv ∧
    match r_players rm !! clientId with
    | Some p =>
        r_players rm' =
          <[clientId := Player (pl_name p) (pl_score p + 10) (pl_connected p) (pl_socketId p)]>
            (r_players rm) ∧
        globalLeaderboard sv' =
          <[pl_name p := default 0 (globalLeaderboard sv !! pl_name p) + 10]>
            (globalLeaderboard sv)
    | None => r_players rm' = r_players rm ∧ globalLeaderboard sv' = globalLeaderboard sv
    end.
Proof.
  intros (rm & bd & pa & pb & path & Hrm & Hst & Hbd & -> & -> & Hp & H)%gameMove_accepted.
  cbv zeta in H. unfold award in H.
  assert (∀ rm0 lb k, k ≠ roomId →
            rooms (setLeaderboard (setRooms sv (<[roomId := rm0]> (rooms sv))) lb) !! k
            = rooms sv !! k) as Hother.
  { intros rm0 lb k Hne. cbn [rooms setLeaderboard setRooms]. by rewrite lookup_insert_ne. }
  exists rm.
  destruct (r_players rm !! clientId) as [p|];
    (destruct (boardCleared _); [|destruct (hasAnyMove _)]); destruct H as [-> _];
    eexists; (split; [done|]); (split; [apply lookup_insert_eq|]);
    (split; [done|]); (split; [done|]); (split; [by apply Hother|]); done.
Qed.

Lemma gameMove_award_witness :
  ∃ rm', rooms stuckServer !! "ROOM" = Some rm' ∧
         r_players rm' = <[ "alice" := Player "Alice" 10 true "s1" ]>
                           {[ "alice" := Player "Alice" 0 true "s1" ]}.
Proof.
  destruct (gameMove_award stuckDraw deadlockServer "alice" "ROOM"
              (Some (Pos 8 8)) (Some (Pos 8 9)) stuckServer stuckEvents deadlock_move)
    as (rm & rm' & Hrm & Hrm' & _ & _ & _ & _ & _ & H).
  unfold deadlockServer in Hrm. cbn [rooms] in Hrm.
  apply lookup_singleton_Some in Hrm as [_ <-].
  exists rm'. split; [done|]. by destruct H as [H _].
Defined.

(** ** The host leaving and the host closing *)

(** X19: when the host leaves with [user:leaveRoom] the room is deleted and
    broadcast as closed, as with [host:closeRoom]; but only [host:closeRoom]
    clears what the registry files the other players under: after
    [user:leaveRoom] they stay filed under the deleted room. *)
Theorem host_leaves_or_closes sv clientId roomId rm :
  rooms sv !! roomId = Some rm → r_hostId rm = clientId →
  is_Some (r_players rm !! clientId) →
  ∃ sv1 sv2,
    leaveRoom sv clientId roomId = (sv1, AckOk, [EvRoomClosed roomId]) ∧
    closeRoom sv clientId roomId = (sv2, AckOk, [EvRoomClosed roomId]) ∧
    rooms sv1 = delete roomId (rooms sv) ∧ rooms sv2 = delete roomId (rooms sv) ∧
    timers sv1 = timers sv ∧ timers sv2 = timers sv ∧
    clientToRoom sv1 !! clientId = None ∧
    (∀ other, other ≠ clientId → clientToRoom sv1 !! other = clientToRoom sv !! other) ∧
    (∀ member, is_Some (r_players rm !! member) → clientToRoom sv2 !! member = None) ∧
    (∀ other, r_players rm !! other = None →
              clientToRoom sv2 !! other = clientToRoom sv !! other).
Proof.
  intros Hrm Hhost [p Hp]. unfold leaveRoom, closeRoom. rewrite Hrm, Hp.
  rewrite bool_decide_eq_true_2 by done. rewrite decide_False by (by intros ?).
  eexists _, _. split; [done|]. split; [done|]. cbn [rooms timers clientToRoom].
  split; [done|]. split; [done|]. split; [done|]. split; [done|].
  split; [apply lookup_delete_eq|]. split; [|split].
  - intros other Hne. by apply lookup_delete_ne.
  - intros member Hm. by apply forgetMembers_member.
  - intros other Ho. by apply forgetMembers_other.
Qed.

Lemma host_leaves_or_closes_witness :
  ∃ sv1, leaveRoom awayServer "alice" "ROOM" = (sv1, AckOk, [EvRoomClosed "ROOM"]) ∧
         clientToRoom sv1 !! "bob" = Some "ROOM" ∧ rooms sv1 !! "ROOM" = None.
Proof.
  destruct (host_leaves_or_closes awayServer "alice" "ROOM" awayRoom eq_refl eq_refl)
    as (sv1 & sv2 & Hl & _ & Hrooms & _ & _ & _ & _ & Hother & _).
  { by eexists. }
  exists sv1. split; [done|]. split.
  - by rewrite Hother.
  - rewrite Hrooms. apply lookup_delete_eq.
Defined.

(** ** The end of a game *)





(** ** A second timer for one player *)

(** X26: [disconnect] does not look for a timer the room already has for the
    player: it arms a new one and registers it in place of the old one,
    which stays pending; the automatic resume then cancels the new timer
    only. *)
Theorem disconnect_keeps_old_timer sv clientId socketId roomId rm p h0 tm0 :
  clientToRoom sv !! clientId = Some roomId → truthy roomId = true →
  rooms sv !! roomId = Some rm → r_players rm !! clientId = Some p →
  r_disconnectTimers rm !! clientId = Some h0 → timers sv !! h0 = Some tm0 →
  h0 < nextTimer sv →
  ∃ sv1 sv2 rm1 rm2 p2,
    disconnect sv clientId = (sv1, [EvPlayerDisconnected roomId clientId]) ∧
    rooms sv1 !! roomId = Some rm1 ∧
    r_disconnectTimers rm1 !! clientId = Some (nextTimer sv) ∧
    is_Some (timers sv1 !! nextTimer sv) ∧ timers sv1 !! h0 = Some tm0 ∧
    resume sv1 clientId socketId = (sv2, [EvPlayerRejoined roomId clientId]) ∧
    rooms sv2 !! roomId = Some rm2 ∧
    r_players rm2 !! clientId = Some p2 ∧ pl_connected p2 = true ∧
    r_disconnectTimers rm2 !! clientId = None ∧
    timers sv2 !! nextTimer sv = None ∧ timers sv2 !! h0 = Some tm0.
Proof.
  intros Hc Ht Hrm Hp Hdt Hh0 Hlt.
  set (p' := Player (pl_name p) (pl_score p) false (pl_socketId p)).
  set (rm' := setDisconnectTimers (setPlayers rm (<[clientId := p']> (r_players rm)))
                (<[clientId := nextTimer sv]> (r_disconnectTimers rm))).
  set (sv1 := Server (<[roomId := rm']> (rooms sv)) (clientToRoom sv) (globalLeaderboard sv)
                (<[nextTimer sv := Timer roomId clientId (bool_decide (r_hostId rm = clientId))]>
                   (timers sv)) (S (nextTimer sv))).
  assert (disconnect sv clientId = (sv1, [EvPlayerDisconnected roomId clientId])) as Hd.
  { unfold disconnect. by rewrite Hc, Ht, Hrm, Hp. }
  assert (rooms sv1 !! roomId = Some rm') as Hrm' by apply lookup_insert_eq.
  assert (r_players rm' !! clientId = Some p') as Hp' by apply lookup_insert_eq.
  assert (r_disconnectTimers rm' !! clientId = Some (nextTimer sv)) as Hdt'
    by apply lookup_insert_eq.
  pose proof (resume_known sv1 clientId socketId roomId rm' p' Hc Ht Hrm' Hp') as Hr.
  rewrite Hdt' in Hr.
  eexists sv1, _, rm', _, _. split; [done|]. split; [done|]. split; [done|].
  split; [unfold sv1; cbn [timers]; rewrite lookup_insert_eq; by eauto|].
  split; [unfold sv1; cbn [timers]; rewrite lookup_insert_ne by lia; done|].
  split; [exact Hr|]. cbn [rooms timers].
  split; [apply lookup_insert_eq|]. unfold rejoined. cbn [r_players r_disconnectTimers].
  split; [apply lookup_insert_eq|]. split; [done|].
  split; [apply lookup_delete_eq|]. split; [apply lookup_delete_eq|].
  rewrite lookup_delete_ne by lia. unfold sv1. cbn [timers].
  by rewrite lookup_insert_ne by lia.
Qed.

Lemma disconnect_keeps_old_timer_witness :
  ∃ sv1 sv2,
    disconnect awayServer "bob" = (sv1, [EvPlayerDisconnected "ROOM" "bob"]) ∧
    resume sv1 "bob" "s3" = (sv2, [EvPlayerRejoined "ROOM" "bob"]) ∧
    timers sv2 !! 0 = Some (Timer "ROOM" "bob" false).
Proof.
  destruct (disconnect_keeps_old_timer awayServer "bob" "s3" "ROOM" awayRoom
              (Player "Bob" 20 false "s2") 0 (Timer "ROOM" "bob" false)
              eq_refl eq_refl eq_refl eq_refl eq_refl eq_refl)
    as (sv1 & sv2 & rm1 & rm2 & p2 & Hd & _ & _ & _ & _ & Hr & _ & _ & _ & _ & _ & Ht).
  { simpl. lia. }
  by exists sv1, sv2.
Defined.

(** ** A timer that outlives a reconnect *)

(** Alice hosts a room and Bob joins it; Bob opens a second connection under
    the same identity; both connections drop, one after the other; Bob
    connects again and is resumed; then that connection drops too. *)
Definition staleRun : list request :=
  [ReqCreateRoom [] "alice-0001" "s1" "Alice" "ROOM" "GEN1";
   ReqJoinRoom "bob-00002" "s2" "ROOM" "Bob";
   ReqConnect "bob-00002" "s3";
   ReqDisconnect "bob-00002";
   ReqDisconnect "bob-00002";
   ReqConnect "bob-00002" "s4";
   ReqDisconnect "bob-00002"].

(** [rooms.get(roomId)?.players.get(clientId)] *)
Definition playerOf (sv : server) (roomId clientId : string) : option player :=
  rooms sv !! roomId ≫= λ rm, r_players rm !! clientId.

(** [rooms.get(roomId)?.disconnectTimers.get(clientId)] *)
Definition registeredTimer (sv : server) (roomId clientId : string) : option nat :=
  rooms sv !! roomId ≫= λ rm, r_disconnectTimers rm !! clientId.

(** C9: the claim fails on the code.  In [staleRun] the first disconnect
    arms timer 0; the second arms timer 1 and registers it in place of
    timer 0, which is not cleared; the resume clears timer 1 and marks Bob
    connected, with timer 0 still pending; the last disconnect arms timer 2.
    When timer 0 then fires, after Bob has reconnected, it finds him marked
    disconnected and removes him from the room, while the timer of his last
    disconnect is still pending. *)
Theorem stale_timer_removes :
  let bob := "bob-00002" in
  let armed := run (take 4 staleRun) in
  let back := run (take 6 staleRun) in
  let away := run staleRun in
  timers armed !! 0 = Some (Timer "ROOM" bob false) ∧
  registeredTimer armed "ROOM" bob = Some 0 ∧
  playerOf back "ROOM" bob = Some (Player "Bob" 0 true "s4") ∧
  registeredTimer back "ROOM" bob = None ∧
  timers back !! 0 = Some (Timer "ROOM" bob false) ∧
  playerOf away "ROOM" bob = Some (Player "Bob" 0 false "s4") ∧
  registeredTimer away "ROOM" bob = Some 2 ∧
  (timerFire away 0).2 = [EvPlayerLeft "ROOM" bob] ∧
  playerOf (timerFire away 0).1 "ROOM" bob = None ∧
  clientToRoom (timerFire away 0).1 !! bob = None ∧
  timers (timerFire away 0).1 !! 2 = Some (Timer "ROOM" bob false).
Proof. cbv zeta. repeat split; by vm_compute. Qed.

(** ** Starting a game *)

(** X21: [host:startGame] and [host:restartGame] from the host do the same,
    whatever the state of the room: a new full board, the room in progress
    at the level it had, every score back to 0 with names and connection
    flags kept; the leaderboard is not reset. *)
Theorem startGame_deals draw sv clientId roomId rm :
  rooms sv !! roomId = Some rm → r_hostId rm = clientId →
  ∃ sv' rm',
    startGame draw sv clientId roomId
      = (sv', AckOk, [EvStarted roomId (makeInitialBoard draw) (r_level rm)]) ∧
    restartGame draw sv clientId roomId
      = (sv', AckOk, [EvRestarted roomId (makeInitialBoard draw) (r_level rm)]) ∧
    rooms sv' !! roomId = Some rm' ∧
    gameOf rm' = (InProgress, Some (makeInitialBoard draw), r_level rm) ∧
    length (tileValues (makeInitialBoard draw)) = 144 ∧
    (∀ c, r_players rm' !! c
          = (λ p, Player (pl_name p) 0 (pl_connected p) (pl_socketId p))
              <$> r_players rm !! c) ∧
    globalLeaderboard sv' = globalLeaderboard sv ∧
    clientToRoom sv' = clientToRoom sv ∧ timers sv' = timers sv.
Proof.
  intros Hrm Hhost. unfold startGame, restartGame. rewrite Hrm.
  destruct (decide (r_hostId rm ≠ clientId)) as [|_]; [done|].
  destruct (decide (r_hostId rm ≠ clientId)) as [|_]; [done|].
  eexists _, _. split; [done|]. split; [done|]. cbn [rooms setRooms].
  split; [apply lookup_insert_eq|]. split; [done|].
  split; [apply makeInitialBoard_count|]. split; [|by repeat split].
  intros c. cbn [r_players]. unfold resetScores. apply lookup_fmap.
Qed.

Lemma startGame_deals_witness :
  ∃ sv', startGame (λ i, i) demoServer "alice" "ROOM"
         = (sv', AckOk, [EvStarted "ROOM" (makeInitialBoard (λ i, i)) 1]).
Proof.
  destruct (startGame_deals (λ i, i) demoServer "alice" "ROOM" demoRoom eq_refl eq_refl)
    as (sv' & rm' & H & _).
  by exists sv'.
Defined.

(** ** The polyline through the corner points *)

(** The number of unit steps from [p] to [q] on a common row or column. *)
Definition segLen (p q : pos) : nat :=
  Z.to_nat (Z.abs (p_r q - p_r p) + Z.abs (p_c q - p_c p)).

(** The corner list walked cell by cell: for every two consecutive corner
    points that differ, the unit steps from the first to the second. *)
Fixpoint walk (pts : list pos) : list nat :=
  match pts with
  | p :: (q :: _) as rest =>
      match segDir p q with
      | Some d => replicate (segLen p q) d ++ walk rest
      | None => walk rest
      end
  | _ => []
  end.

Lemma segLen_straight p q k d :
  d < 4 → routeEnd p (replicate k d) = q → segLen p q = k.
Proof.
  intros Hd <-. rewrite routeEnd_replicate. unfold segLen. simpl.
  destruct d as [|[|[|[|]]]]; [..|lia]; unfold dr, dc; simpl; lia.
Qed.

Lemma walk_snoc l p q d :
  last l = Some p → segDir p q = Some d →
  walk (l ++ [q]) = walk l ++ replicate (segLen p q) d.
Proof.
  intros Hlast Hseg. induction l as [|x [|y l] IH]; [done|..].
  - injection Hlast as ->. simpl. rewrite Hseg. by rewrite app_nil_r.
  - change (walk ((x :: y :: l) ++ [q])) with
      (match segDir x y with
       | Some d0 => replicate (segLen x y) d0 ++ walk ((y :: l) ++ [q])
       | None => walk ((y :: l) ++ [q])
       end).
    rewrite IH by done. simpl. destruct (segDir x y); [|done]. by rewrite app_assoc.
Qed.

Lemma corners_walk b start goal maxTurns e ds :
  nodeRoute b start goal maxTurns e ds → n_parent e ≠ None →
  walk (start :: reverse (cornersBack e)) = ds.
Proof.
  induction 1 as [d Hd|d0 r c d k Hd0 Hd Hk Hok Hend Hne
                 |p ds r c d k Hp IH Hpar Hd Hdne Hk Hok Hend Hne Hle]; intros Hnp;
    [done|..].
  - pose proof (segDir_straight _ _ _ _ Hd Hk Hend) as Hseg.
    pose proof (segLen_straight _ _ _ _ Hd Hend) as Hlen.
    unfold cornersBack, n_pos. simpl.
    destruct (decide (d0 ≠ d)); simpl; unfold n_pos; simpl; rewrite ?pos_eta.
    + rewrite segDir_refl, Hseg, Hlen. by rewrite app_nil_r.
    + rewrite Hseg, Hlen. by rewrite app_nil_r.
  - pose proof (segDir_straight _ _ _ _ Hd Hk Hend) as Hseg.
    pose proof (segLen_straight _ _ _ _ Hd Hend) as Hlen.
    destruct (corners_spec _ _ _ _ _ _ Hp Hpar) as (Hlast & _).
    assert (start :: reverse (cornersBack (Node r c d (S (n_t p)) (Some p))) =
            (start :: reverse (cornersBack p)) ++ [Pos r c]) as ->.
    { unfold cornersBack. simpl. rewrite decide_True by done.
      by rewrite !reverse_cons. }
    by rewrite (walk_snoc _ _ _ _ Hlast Hseg), IH, Hlen.
Qed.

(** X3: the polyline through the corner points a call returns is itself a legal
    connection from [start] to [goal]: walked cell by cell it stays on the
    grid and enters only empty cells and the goal; and it has the turns
    counted on the corner points, at most [maxTurns]. *)
Theorem findPath_polyline b start goal maxTurns pts :
  findPathLimitedTurns b start goal maxTurns = Path pts →
  legalRoute b start goal (walk pts) ∧
  routeTurns (walk pts) = pathTurns pts ∧ routeTurns (walk pts) ≤ maxTurns.
Proof.
  intros (Hin & e & (Hwf & Hpar & Hgoal & Hmin) & ->)%findPath_endNode.
  destruct Hwf as [ds He].
  destruct (nodeRoute_facts _ _ _ _ _ _ He) as (_ & Ht & Hseed & Hok & Hend & Hnon).
  destruct (Hnon Hpar) as (Hne & Hturns & _).
  destruct (corners_spec _ _ _ _ _ _ He Hpar) as (_ & _ & L & HL & _ & HLt & _).
  rewrite reverse_revPoints, (corners_walk _ _ _ _ _ _ He Hpar).
  unfold pathTurns. rewrite HL, HLt, Hturns.
  split; [|split; [done|lia]].
  split; [done|]. split; [done|]. split; [done|]. congruence.
Qed.

Lemma findPath_polyline_witness :
  legalRoute pathBoard (Pos 1 1) (Pos 1 3)
    (walk [Pos 1 1; Pos 0 1; Pos 0 3; Pos 1 3]).
Proof.
  by destruct (findPath_polyline pathBoard (Pos 1 1) (Pos 1 3) 2 _ findPath_around)
    as [H _].
Defined.

(** ** Joining a room for the first time *)

(** X18: a client the room does not know joins as a new player with score 0,
    whatever the state of the game: it is answered with the room's state,
    level and (once the game has started) board; the game of the room is
    untouched; the registry files the client under the room; and in the
    room the registry filed it under before, when that is another one, it
    is no longer a player. *)
Theorem joinRoom_new sv clientId socketId roomId name rm :
  rooms sv !! roomId = Some rm → r_players rm !! clientId = None →
  ∃ sv' rm' evs,
    let nm := if truthy name then name else "Player" in
    joinRoom sv clientId socketId roomId name
      = (sv', AckRoom roomId (r_hostId rm) (r_state rm) (r_level rm) (payloadBoard rm),
         evs ++ [EvPlayerJoined roomId clientId nm]) ∧
    rooms sv' !! roomId = Some rm' ∧
    r_players rm' = <[clientId := Player nm 0 true socketId]> (r_players rm) ∧
    gameOf rm' = gameOf rm ∧ r_hostId rm' = r_hostId rm ∧
    clientToRoom sv' !! clientId = Some roomId ∧
    globalLeaderboard sv' = globalLeaderboard sv ∧ timers sv' = timers sv ∧
    (∀ prevId prev,
       clientToRoom sv !! clientId = Some prevId → truthy prevId = true →
       prevId ≠ roomId → rooms sv !! prevId = Some prev →
       is_Some (r_players prev !! clientId) →
       ∃ prev', rooms sv' !! prevId = Some prev' ∧
                r_players prev' = delete clientId (r_players prev) ∧
                r_disconnectTimers prev' = delete clientId (r_disconnectTimers prev) ∧
                gameOf prev' = gameOf prev ∧
                evs = [EvPlayerLeft prevId clientId]).
Proof.
  intros Hrm Hp. unfold joinRoom. rewrite Hrm, Hp.
  pose proof (leavePrevious_leaderboard sv clientId roomId) as Hlb.
  pose proof (leavePrevious_timers sv clientId roomId) as Htm.
  destruct (leavePrevious sv clientId roomId) as [sv1 evs1] eqn:Hleft.
  cbn [fst] in Hlb, Htm. cbv zeta.
  eexists _, _, evs1. split; [done|]. cbn [rooms clientToRoom setRooms setClientToRoom
                                            globalLeaderboard timers].
  split; [apply lookup_insert_eq|]. split; [done|]. split; [done|]. split; [done|].
  split; [apply lookup_insert_eq|]. split; [done|]. split; [done|].
  intros prevId prev Hc Ht Hne Hprev Hin.
  revert Hleft. unfold leavePrevious. rewrite Hc, Ht, Hprev.
  rewrite bool_decide_eq_true_2 by done. cbn [andb].
  rewrite decide_True by done. intros [= <- <-].
  cbn [rooms setClientToRoom setRooms]. rewrite lookup_insert_ne by done.
  eexists. split; [apply lookup_insert_eq|]. done.
Qed.

Lemma joinRoom_new_witness :
  ∃ sv' rm',
    joinRoom demoServer "carol" "s7" "ROOM" ""
      = (sv', AckRoom "ROOM" "alice" InProgress 1 (Some pathBoard),
         [EvPlayerJoined "ROOM" "carol" "Player"]) ∧
    rooms sv' !! "ROOM" = Some rm' ∧
    r_players rm' = <[ "carol" := Player "Player" 0 true "s7" ]> (r_players demoRoom).
Proof.
  destruct (joinRoom_new demoServer "carol" "s7" "ROOM" "" demoRoom eq_refl eq_refl)
    as (sv' & rm' & evs & Hj & Hrm' & Hpl & _).
  cbv zeta in Hj. exists sv', rm'. split; [|done].
  rewrite Hj. f_equal.
  assert (evs ++ [EvPlayerJoined "ROOM" "carol" "Player"]
          = [EvPlayerJoined "ROOM" "carol" "Player"]) as Hevs.
  { assert ((joinRoom demoServer "carol" "s7" "ROOM" "").2
            = [EvPlayerJoined "ROOM" "carol" "Player"]) as H2 by (by vm_compute).
    rewrite Hj in H2. exact H2. }
  exact Hevs.
Defined.

(** ** Room codes *)

(** [genRoomId]: four characters of the alphabet, [draw i] being the raw
    draw of the iteration [i], reduced to an index of the alphabet as
    [Math.floor(Math.random() * alphabet.length)] does. *)
Definition alphabet : string := "ABCDEFGHJKLMNPQRSTUVWXYZ23456789".

Definition alphabetAt (j : nat) : Ascii.ascii :=
  default Ascii.zero (String.get j alphabet).

Definition genRoomId (draw : nat → nat) : string :=
  String.string_of_list_ascii
    ((λ i, alphabetAt (draw i mod String.length alphabet)) <$> [0; 1; 2; 3]).

Lemma alphabet_codeChars :
  Forall (λ j, codeChar (alphabetAt j) = true) (seq 0 (String.length alphabet)).
Proof. apply (bool_decide_unpack _). by vm_compute. Qed.

Lemma alphabetAt_code (n : nat) : codeChar (alphabetAt (n mod String.length alphabet)) = true.
Proof.
  pose proof alphabet_codeChars as H. rewrite Forall_forall in H. apply H.
  apply elem_of_seq. split; [lia|].
  assert (String.length alphabet ≠ 0) as Hne by (by vm_compute).
  pose proof (Nat.mod_upper_bound n _ Hne). lia.
Qed.

(** X27: whatever is drawn, the code [genRoomId] makes has four characters and
    passes the check [host:createRoom] makes on a code the client asks for;
    so a room under a generated code can be joined, and created again, by
    its code. *)
Theorem genRoomId_valid draw :
  String.length (genRoomId draw) = 4 ∧ validCode (genRoomId draw) = true ∧
  truthy (genRoomId draw) = true.
Proof.
  unfold genRoomId. cbn [fmap list_fmap].
  set (a0 := alphabetAt _). set (a1 := alphabetAt _).
  set (a2 := alphabetAt _). set (a3 := alphabetAt _).
  split; [done|]. split; [|done].
  unfold validCode. cbn [String.string_of_list_ascii String.length
                         String.list_ascii_of_string forallb Nat.leb andb].
  unfold a0, a1, a2, a3. by rewrite !alphabetAt_code.
Qed.
